(** * MABE2 core: a shallow embedding of the module-orchestration kernel

    The development follows the C++ sources file by file:

    - [TraitInfo]  : the [Access] enumeration of source/core/TraitInfo.h;
    - [ModuleTraits]: the trait claims a module submits, and the access
                     modes they are submitted under
                     (source/core/Module.hpp);
    - [SignalBus]  : [MABE::UpdateSignals] (source/core/MABE.hpp);
    - [Prep]       : [MABE::Preprocess] (source/core/MABE.hpp);
    - [TraitUsers] : the modules that use a trait, and the lookups over
                     them (source/core/TraitInfo.h);
    - [TraitSet]   : a set of traits of one type
                     (source/core/TraitSet.hpp);
    - [Core]       : populations, organisms, injection, birth, movement,
                     copying, random positions and teardown
                     (source/core/MABE.hpp), and the parameters of a module
                     that name a population or a module
                     (source/core/Module.hpp);
    - [CommandLine]: [MABE::ProcessArgs] and [MABE::Setup]
                     (source/core/MABE.hpp);
    - [UpdateLoop] : [MABE::Update] (source/core/MABE.hpp) and the signal
                     handlers of the base class (source/core/Module.hpp).

    Conventions.  An [emp::Ptr<Organism>] is an address into an arena
    ([heap]); a [Population &] is the index of the population in
    [MABE::pops].  The [const Organism &] of [Inject] and of the looping
    [DoBirth] is the address of its referent, read again in every round;
    where the referent is read once, before anything is released
    ([InjectAt], [DoBirth] with a target position), it is the value read.
    Signals are recorded in a trace in the order in which they fire; the
    handlers that modules attach to them are observers of that trace, and
    at teardown, where the modules are deleted before the populations are
    cleared, the call of the handlers of BeforeDeath is written out.
    [emp_assert] is compiled out (release build); an access outside a
    vector is a [Crash]. *)

From Stdlib Require Import ZArith Lia List Ascii.
From stdpp Require Import base option list gmap sets strings pretty.

Set Default Proof Using "Type".
Set Warnings "-clear-no-such-hyp".

(* ===================================================================== *)
(** * TraitInfo.h : trait access modes                                    *)
(* ===================================================================== *)

Module TraitInfo.

#[local] Open Scope string_scope.
#[local] Open Scope list_scope.

(** [enum Access] of TraitInfo.h, lines 56-63, in declaration order.
    TraitInfo.h is the header of [TraitUsers] below; Module.hpp does not
    include it (see [ModuleTraits]). *)
Inductive Access : Set :=
| UNKNOWN      (* Access level unknown; most likely a problem! *)
| PRIVATE      (* Can READ & WRITE this trait; other modules cannot use it at all. *)
| OWNED        (* Can READ & WRITE this trait; other modules can only read. *)
| SHARED       (* Can READ & WRITE this trait; other modules can too. *)
| REQUIRED     (* Can READ this trait, but another module must WRITE to it. *)
| NUM_ACCESS.  (* How many access methods are there? *)

#[export] Instance Access_eq_dec : EqDecision Access.
Proof. solve_decision. Defined.

(** The integer each enumerator stands for ([UNKNOWN=0], then counting up). *)
Definition Access_value (a : Access) : Z :=
  match a with
  | UNKNOWN => 0 | PRIVATE => 1 | OWNED => 2
  | SHARED => 3 | REQUIRED => 4 | NUM_ACCESS => 5
  end.

End TraitInfo.

(* ===================================================================== *)
(** * TraitInfo.h : the modules that use a trait                          *)
(* ===================================================================== *)

Module TraitUsers.

Import TraitInfo.
#[local] Open Scope string_scope.
#[local] Open Scope list_scope.

(** [struct ModuleInfo], TraitInfo.h lines 112-116; [mod_ptr] is a
    module's address, [None] for [nullptr]. *)
Record ModuleInfo : Set := {
  mod_name : string;
  mod_ptr : option nat;
  access : Access;
}.

(** [(int) v] for a 32-bit [int]. *)
Definition to_int (v : Z) : Z := ((v + 2 ^ 31) mod 2 ^ 32 - 2 ^ 31)%Z.

(** The loop of both [GetInfoID] overloads, TraitInfo.h lines 123-135:
    [for (int i = 0; i < (int) access_info.size(); i++)
       if (test(access_info[(size_t) i])) return i;
     return -1;]
    [i] runs over the entries below [(int) access_info.size()]. *)
Fixpoint GetInfoID_from (test : ModuleInfo -> bool) (entries : list ModuleInfo) (i : Z)
    : Z :=
  match entries with
  | [] => -1
  | info :: entries' =>
      if test info then i else GetInfoID_from test entries' (i + 1)
  end.

Definition GetInfoID_loop (test : ModuleInfo -> bool) (access_info : list ModuleInfo)
    : Z :=
  let bound := to_int (Z.of_nat (length access_info)) in
  GetInfoID_from test (take (Z.to_nat bound) access_info) 0.

(** [int GetInfoID(const std::string & mod_name) const] *)
Definition GetInfoID_name (access_info : list ModuleInfo) (name : string) : Z :=
  GetInfoID_loop (fun info => String.eqb (mod_name info) name) access_info.

(** [int GetInfoID(mod_ptr_t mod_ptr) const] *)
Definition GetInfoID (access_info : list ModuleInfo) (m : option nat) : Z :=
  GetInfoID_loop (fun info => bool_decide (mod_ptr info = m)) access_info.

(** [Access GetAccess(mod_ptr_t mod_ptr) const], lines 145-149.  On the
    second [return] the index is the position of an entry. *)
Definition GetAccess (access_info : list ModuleInfo) (m : option nat) : Access :=
  let id := GetInfoID access_info m in
  if (id =? -1)%Z then UNKNOWN
  else match access_info !! Z.to_nat id with
       | Some info => access info
       | None => UNKNOWN
       end.

(** [bool HasAccess(mod_ptr_t mod_ptr) const], line 152. *)
Definition HasAccess (access_info : list ModuleInfo) (m : option nat) : bool :=
  bool_decide (GetAccess access_info m <> UNKNOWN).

(** [size_t GetModuleCount() const], line 155. *)
Definition GetModuleCount (access_info : list ModuleInfo) : nat := length access_info.

(** [emp::vector<std::string> GetModuleNames() const], lines 171-177. *)
Definition GetModuleNames (access_info : list ModuleInfo) : list string :=
  foldl (fun mod_names info => mod_names ++ [mod_name info]) [] access_info.

(** [emp::vector<std::string> GetModuleNames(Access test_access) const],
    lines 179-185. *)
Definition GetModuleNames_with (access_info : list ModuleInfo) (test_access : Access)
    : list string :=
  foldl (fun mod_names info =>
           if bool_decide (access info = test_access)
           then mod_names ++ [mod_name info] else mod_names)
        [] access_info.

(** Lines 187-191. *)
Definition GetUnknownNames (v : list ModuleInfo) := GetModuleNames_with v UNKNOWN.
Definition GetPrivateNames (v : list ModuleInfo) := GetModuleNames_with v PRIVATE.
Definition GetOwnedNames (v : list ModuleInfo) := GetModuleNames_with v OWNED.
Definition GetSharedNames (v : list ModuleInfo) := GetModuleNames_with v SHARED.
Definition GetRequiredNames (v : list ModuleInfo) := GetModuleNames_with v REQUIRED.

End TraitUsers.

(* ===================================================================== *)
(** * TraitSet.hpp : a set of traits of one type                          *)
(* ===================================================================== *)

(** The header is unfinished: the class is spelled [TriatSet], one
    statement of [AddTraits] ends in [l] where a semicolon is meant,
    [CountValues] is declared [const] and assigns to members, and
    [GetIndex] breaks off in its loop.  The functions below are those
    whose bodies are complete, read statement by statement. *)

Module TraitSet.

#[local] Open Scope string_scope.
#[local] Open Scope list_scope.

(** The members of the class, TraitSet.hpp lines 29-38 ([layout] is a
    parameter of the section below). *)
Record TraitSet : Set := {
  base_names : list string;
  vector_names : list string;
  base_IDs : list nat;
  vector_IDs : list nat;
  vec_sizes : list nat;
  num_values : nat;
  error_trait : string;
}.

(** The constructor: every vector empty, [num_values = 0],
    [error_trait = ""]. *)
Definition TraitSet_new : TraitSet :=
  {| base_names := []; vector_names := []; base_IDs := []; vector_IDs := [];
     vec_sizes := []; num_values := 0; error_trait := "" |}.

(** [void Clear()], lines 43-47: [error_trait] is not among the members
    it resets. *)
Definition Clear (ts : TraitSet) : TraitSet :=
  {| base_names := []; vector_names := []; base_IDs := []; vector_IDs := [];
     vec_sizes := []; num_values := 0; error_trait := error_trait ts |}.

(** Lines 89-97 and 114. *)
Definition GetNumBaseTraits (ts : TraitSet) : nat := length (base_IDs ts).
Definition GetNumVectorTraits (ts : TraitSet) : nat := length (vector_IDs ts).
Definition GetNumTraits (ts : TraitSet) : nat :=
  length (base_IDs ts) + length (vector_IDs ts).
Definition GetNumValues (ts : TraitSet) : nat := num_values ts.

Section WithLayout.

(** [emp::slice(in_names, ',')] and the [emp::DataLayout] the set was
    built on are Empirical's; the set reads them through these calls. *)
Variable slice : string -> list string.
Variable HasName : string -> bool.            (* layout.HasName(name) *)
Variable GetID : string -> nat.               (* layout.GetID(name) *)
Variable IsType_T : nat -> bool.              (* layout.IsType<T>(id) *)
Variable IsType_vector_T : nat -> bool.       (* layout.IsType<emp::vector<T>>(id) *)

(** The body of the loop of [AddTraits], lines 53-71, over the names
    still to come; [false] is the early [return false]. *)
Fixpoint AddTraits_loop (names : list string) (ts : TraitSet) : bool * TraitSet :=
  match names with
  | [] => (true, ts)
  | name :: names' =>
      if negb (HasName name) then
        (false, {| base_names := base_names ts; vector_names := vector_names ts;
                   base_IDs := base_IDs ts; vector_IDs := vector_IDs ts;
                   vec_sizes := vec_sizes ts; num_values := num_values ts;
                   error_trait := name |})
      else
        let id := GetID name in
        if IsType_T id then
          AddTraits_loop names'
            {| base_names := base_names ts ++ [name]; vector_names := vector_names ts;
               base_IDs := base_IDs ts ++ [id]; vector_IDs := vector_IDs ts;
               vec_sizes := vec_sizes ts; num_values := num_values ts;
               error_trait := error_trait ts |}
        else if IsType_vector_T id then
          AddTraits_loop names'
            {| base_names := base_names ts; vector_names := vector_names ts ++ [name];
               base_IDs := base_IDs ts; vector_IDs := vector_IDs ts ++ [id];
               vec_sizes := vec_sizes ts; num_values := num_values ts;
               error_trait := error_trait ts |}
        else
          (false, {| base_names := base_names ts; vector_names := vector_names ts;
                     base_IDs := base_IDs ts; vector_IDs := vector_IDs ts;
                     vec_sizes := vec_sizes ts; num_values := num_values ts;
                     error_trait := name |})
  end.

(** [bool AddTraits(const std::string & in_names)], lines 50-73. *)
Definition AddTraits (in_names : string) (ts : TraitSet) : bool * TraitSet :=
  let ts := {| base_names := base_names ts; vector_names := vector_names ts;
               base_IDs := base_IDs ts; vector_IDs := vector_IDs ts;
               vec_sizes := vec_sizes ts; num_values := 0;
               error_trait := error_trait ts |} in
  AddTraits_loop (slice in_names) ts.

(** The variadic [AddTraits(in_names, next_names, extras...)], lines
    76-79: [AddTraits(in_names) && AddTraits(next_names, extras...)]. *)
Fixpoint AddTraits_all (in_names : string) (more : list string) (ts : TraitSet)
    : bool * TraitSet :=
  match more with
  | [] => AddTraits in_names ts
  | next_names :: extras =>
      let (ok, ts') := AddTraits in_names ts in
      if ok then AddTraits_all next_names extras ts' else (false, ts')
  end.

(** [bool SetTraits(Ts &... traits)], lines 82-86. *)
Definition SetTraits (in_names : string) (more : list string) (ts : TraitSet)
    : bool * TraitSet :=
  AddTraits_all in_names more (Clear ts).

(** [dmap.Get<emp::vector<T>>(id).size()] *)
Variable DataMap : Type.
Variable vector_size : DataMap -> nat -> nat.

(** The loop of [CountValues], lines 104-109; [None] is a write outside
    [vec_sizes]. *)
Fixpoint CountValues_loop (dmap : DataMap) (ids : list nat) (i : nat) (ts : TraitSet)
    : option TraitSet :=
  match ids with
  | [] => Some ts
  | id :: ids' =>
      let cur_size := vector_size dmap id in
      if bool_decide (i < length (vec_sizes ts)) then
        CountValues_loop dmap ids' (S i)
          {| base_names := base_names ts; vector_names := vector_names ts;
             base_IDs := base_IDs ts; vector_IDs := vector_IDs ts;
             vec_sizes := <[i := cur_size]> (vec_sizes ts);
             num_values := num_values ts + cur_size;
             error_trait := error_trait ts |}
      else None
  end.

(** [size_t CountValues(const DataMap & dmap) const], lines 100-111: the
    count, and the set with [num_values] and [vec_sizes] brought up to
    date. *)
Definition CountValues (dmap : DataMap) (ts : TraitSet) : option (nat * TraitSet) :=
  let ts := {| base_names := base_names ts; vector_names := vector_names ts;
               base_IDs := base_IDs ts; vector_IDs := vector_IDs ts;
               vec_sizes := vec_sizes ts; num_values := length (base_IDs ts);
               error_trait := error_trait ts |} in
  match CountValues_loop dmap (vector_IDs ts) 0 ts with
  | Some ts' => Some (num_values ts', ts')
  | None => None
  end.

(** ** Vocabulary of the statements *)

(** A name the set accepts: the layout has it, with type [T] or
    [emp::vector<T>]. *)
Definition accepted (name : string) : bool :=
  HasName name && (IsType_T (GetID name) || IsType_vector_T (GetID name)).

(** The names of a list that go to the base traits, and those that go to
    the vector traits. *)
Definition to_base (names : list string) : list string :=
  List.filter (fun name => IsType_T (GetID name)) names.
Definition to_vector (names : list string) : list string :=
  List.filter (fun name => negb (IsType_T (GetID name))) names.

(** The set with accepted names added. *)
Definition with_names (good : list string) (ts : TraitSet) : TraitSet :=
  {| base_names := base_names ts ++ to_base good;
     vector_names := vector_names ts ++ to_vector good;
     base_IDs := base_IDs ts ++ map GetID (to_base good);
     vector_IDs := vector_IDs ts ++ map GetID (to_vector good);
     vec_sizes := vec_sizes ts; num_values := num_values ts;
     error_trait := error_trait ts |}.

(** The ids are those of the names, in the same order, and [vec_sizes]
    has no entry. *)
Definition aligned (ts : TraitSet) : Prop :=
  base_IDs ts = map GetID (base_names ts) /\
  vector_IDs ts = map GetID (vector_names ts) /\
  vec_sizes ts = [].

(** The calls that change a set. *)
Inductive Call : Type :=
| call_Clear
| call_AddTraits (in_names : string) (more : list string)
| call_SetTraits (in_names : string) (more : list string)
| call_CountValues (dmap : DataMap).

(** A set after a call; a [CountValues] that writes outside [vec_sizes]
    leaves no set to go on with. *)
Definition after (c : Call) (ts : TraitSet) : option TraitSet :=
  match c with
  | call_Clear => Some (Clear ts)
  | call_AddTraits in_names more => Some (snd (AddTraits_all in_names more ts))
  | call_SetTraits in_names more => Some (snd (SetTraits in_names more ts))
  | call_CountValues dmap => snd <$> CountValues dmap ts
  end.

Fixpoint after_all (cs : list Call) (ts : TraitSet) : option TraitSet :=
  match cs with
  | [] => Some ts
  | c :: cs' =>
      match after c ts with
      | Some ts' => after_all cs' ts'
      | None => None
      end
  end.

End WithLayout.

End TraitSet.

(* ===================================================================== *)
(** * Module.hpp : the trait claims a module submits                      *)
(* ===================================================================== *)

Module ModuleTraits.

#[local] Open Scope string_scope.
#[local] Open Scope list_scope.

(** Modelled from the spec: [TraitInfo::Access], which Module.hpp names
    [Access] (line 46).  Module.hpp takes it from TraitInfo.hpp (its line
    35), which is not among the sources; TraitInfo.h is another header,
    which Module.hpp does not include.  The spec: "Access modes: PRIVATE
    (sole claimant, no others), OWNED (one read/write owner, others
    read-only), SHARED (multiple read/write claimants), REQUIRED
    (read-only, must be produced elsewhere), GENERATED (read/write, must
    have ≥1 consumer), OPTIONAL (read-only if present, not
    required)".  [UNKNOWN] is the enumerator a [BaseTrait] starts with
    (Module.hpp line 53).  Module.hpp names these seven enumerators and
    no other. *)
Inductive Access : Set :=
| UNKNOWN
| PRIVATE
| OWNED
| SHARED
| REQUIRED
| GENERATED
| OPTIONAL.

#[export] Instance Access_eq_dec : EqDecision Access.
Proof. solve_decision. Defined.

Section Registration.

(** The type [T] of the trait, and [T()]. *)
Variable T : Type.
Variable T_default : T.










(** ** Vocabulary of the statements *)




End Registration.

End ModuleTraits.

(* ===================================================================== *)
(** * MABE.hpp : UpdateSignals                                            *)
(* ===================================================================== *)

Module SignalBus.

(** A module, as far as the signal bus reads it (ModuleBase.hpp is not
    among the sources; Module.hpp writes [has_signal[SIG_...]] and
    [UpdateSignals] reads [has_signal[sig_id]]): [has_signal] is the set
    of flags indexed by signal id. *)
Record ModuleBase : Type := {
  mod_name : string;
  has_signal : list bool;
}.

(** [emp::Ptr<ModuleBase>]: modules are owned by [modules] and never move,
    so a module pointer is the module's registration index. *)
Abbreviation mod_ptr := nat (only parsing).

(** [mod_ptr->has_signal[sig_id]]. *)
Definition has_signal_at (ms : list ModuleBase) (m : mod_ptr) (sig_id : nat) : bool :=
  match ms !! m with
  | Some md => default false (has_signal md !! sig_id)
  | None => false
  end.

(** The members of MABEBase that [UpdateSignals] works on. *)
Record MABEBase : Type := {
  modules : list ModuleBase;          (* emp::vector<emp::Ptr<ModuleBase>> *)
  sig_ptrs : list (list mod_ptr);     (* one listener vector per signal *)
  rescan_signals : bool;
}.

(** [for (auto modv : sig_ptrs) modv->resize(0);] *)
Definition clear_listeners (sp : list (list mod_ptr)) : list (list mod_ptr) :=
  foldl (fun acc sig_id => <[sig_id := []]> acc) sp (seq 0 (length sp)).

(** [sig_ptrs[sig_id]->push_back(mod_ptr)] *)
Definition push_back_listener (sig_id : nat) (m : mod_ptr)
    (sp : list (list mod_ptr)) : list (list mod_ptr) :=
  alter (fun v => v ++ [m]) sig_id sp.

(** The inner loop, for one module:
    [for (sig_id = 0; sig_id < sig_ptrs.size(); sig_id++)
       if (mod_ptr->has_signal[sig_id]) sig_ptrs[sig_id]->push_back(mod_ptr);] *)
Definition scan_module (ms : list ModuleBase) (sp : list (list mod_ptr))
    (m : mod_ptr) : list (list mod_ptr) :=
  foldl (fun acc sig_id =>
           if has_signal_at ms m sig_id then push_back_listener sig_id m acc else acc)
        sp (seq 0 (length sp)).

(** [MABE::UpdateSignals], MABE.hpp lines 501-516. *)
Definition UpdateSignals (st : MABEBase) : MABEBase :=
  let cleared := clear_listeners (sig_ptrs st) in
  let scanned := foldl (scan_module (modules st)) cleared
                       (seq 0 (length (modules st))) in
  {| modules := modules st; sig_ptrs := scanned; rescan_signals := false |}.

(** What a channel's subscriber list should be: the modules whose flag for
    the signal is set, in registration order. *)
Definition subscribers (ms : list ModuleBase) (sig_id : nat) : list mod_ptr :=
  filter (fun m => has_signal_at ms m sig_id = true) (seq 0 (length ms)).

End SignalBus.

(* ===================================================================== *)
(** * MABE.hpp : Preprocess                                               *)
(* ===================================================================== *)

Module Prep.

(** A [std::string] is its sequence of characters. *)
Definition chars (s : string) : list ascii := String.list_ascii_of_string s.

Definition dollar : ascii := "$"%char.
Definition lbrace : ascii := "{"%char.
Definition rbrace : ascii := "}"%char.

(** [s[i]], for an index inside the string. *)
Definition char_at (s : list ascii) (i : nat) : ascii :=
  default Ascii.zero (s !! i).

(** [s.erase(pos, len)] *)
Definition erase (s : list ascii) (pos len : nat) : list ascii :=
  take pos s ++ drop (pos + len) s.

(** [s.replace(pos, len, text)] *)
Definition replace (s : list ascii) (pos len : nat) (text : list ascii) : list ascii :=
  take pos s ++ text ++ drop (pos + len) s.

(** [emp::view_string_range(s, start, end)]: the characters of
    [start, end). *)
Definition view_string_range (s : list ascii) (start_pos end_pos : nat) : list ascii :=
  take (end_pos - start_pos) (drop start_pos s).

(** The scan of [emp::find_paren_match] after the opening character:
    [depth] opens are pending at position [pos]. *)
Fixpoint scan_match (open close : ascii) (rest : list ascii) (pos depth : nat)
    : option nat :=
  match rest with
  | [] => None
  | c :: rest' =>
      if Ascii.eqb c open then scan_match open close rest' (S pos) (S depth)
      else if Ascii.eqb c close then
        match depth with
        | 0 | 1 => Some pos
        | S d => scan_match open close rest' (S pos) d
        end
      else scan_match open close rest' (S pos) depth
  end.

(** [emp::find_paren_match(s, start_pos, open, close, false)] of the
    Empirical library, as [Preprocess] relies on it: the position of the
    [close] that matches the [open] at [start_pos], and [start_pos] itself
    when there is none. *)
Definition find_paren_match (s : list ascii) (start_pos : nat) (open close : ascii)
    : nat :=
  if negb (Ascii.eqb (char_at s start_pos) open) then start_pos
  else default start_pos
         (scan_match open close (drop (S start_pos) s) (S start_pos) 1).

Section WithConfig.

(** [config.Execute]: the configuration language's evaluator, a
    collaborator outside the core. *)
Variable Execute : list ascii -> list ascii.

(** The loop of [MABE::Preprocess], MABE.hpp lines 523-540, one iteration
    per unit of [fuel]; [None] when the fuel runs out before the loop
    ends. *)
Fixpoint Preprocess_loop (fuel : nat) (out_string : list ascii) (i : nat)
    : option (list ascii) :=
  match fuel with
  | 0 => None
  | S fuel' =>
      if negb (i <? length out_string) then Some out_string
      else if negb (Ascii.eqb (char_at out_string i) dollar)
        then Preprocess_loop fuel' out_string (S i)               (* continue *)
      else if length out_string <=? i + 2
        then Some out_string                                      (* break *)
      else if Ascii.eqb (char_at out_string (i + 1)) dollar
        then Preprocess_loop fuel' (erase out_string i 1) (S i)   (* $$ -> $ *)
      else if negb (Ascii.eqb (char_at out_string (i + 1)) lbrace)
        then Preprocess_loop fuel' out_string (S i)               (* continue *)
      else
        let end_pos := find_paren_match out_string (i + 1) lbrace rbrace in
        if end_pos =? i + 1 then Some out_string                  (* return *)
        else
          let replacement_text :=
            Execute (view_string_range out_string (i + 2) end_pos) in
          let out_string' :=
            replace out_string i (end_pos - i + 1) replacement_text in
          Preprocess_loop fuel' out_string' (S (i + length replacement_text))
  end.

(** [MABE::Preprocess], MABE.hpp lines 518-543.  Every iteration that
    does not leave the loop shortens the part of the string still to be
    read, so [length in_string + 1] iterations are enough
    ([Preprocess_loop_total] below). *)
Definition Preprocess (in_string : list ascii) : option (list ascii) :=
  Preprocess_loop (S (length in_string)) in_string 0.

End WithConfig.

End Prep.

(* ===================================================================== *)
(** * MABE.hpp : populations and organisms                                *)
(* ===================================================================== *)

Module Core.

(** ** Data *)

(** [emp::Ptr<Organism>]: an address in the arena of organisms. *)
Abbreviation ptr := nat (only parsing).

(** An organism (Organism.h): the manager that made it and the variables
    it carries. *)
Record Organism : Type := {
  manager : string;
  var_map : list Z;
}.

#[export] Instance Organism_eq_dec : EqDecision Organism.
Proof. solve_decision. Defined.

(** Modelled from the spec: the type [OrgPosition] (OrgPosition.hpp is
    not among the sources), "a (population, index) reference".  The
    population is its index in [MABE::pops], and [None] is the null
    population of [OrgPosition()]. *)
Record OrgPosition : Set := {
  pop_ptr : option nat;
  pos : nat;
}.

#[export] Instance OrgPosition_eq_dec : EqDecision OrgPosition.
Proof. solve_decision. Defined.

#[export] Instance OrgPosition_countable : Countable OrgPosition :=
  inj_countable' (fun p => (pop_ptr p, pos p))
                 (fun q => {| pop_ptr := fst q; pos := snd q |})
                 (fun p => match p with Build_OrgPosition _ _ => eq_refl end).

(** [OrgPosition()] *)
Definition no_position : OrgPosition := {| pop_ptr := None; pos := 0 |}.

(** [pop.IteratorAt(i)] *)
Definition IteratorAt (pop : nat) (i : nat) : OrgPosition :=
  {| pop_ptr := Some pop; pos := i |}.

(** Modelled from the spec: the type [Collection] (Collection.hpp is not
    among the sources), "an ad hoc, cross-population set of positions;
    duplicates collapse". *)
Abbreviation Collection := (gset OrgPosition) (only parsing).

(** Modelled from the spec: [Collection::Insert(OrgPosition)], which adds
    one position to the set. *)
Definition Insert (p : OrgPosition) (c : Collection) : Collection := {[ p ]} ∪ c.

(** Modelled from the spec: the type [Population] (Population.hpp is not
    among the sources), "an ordered, named set of slots", a slot being "a
    real organism or the sentinel". *)
Record Population : Type := {
  pop_name : string;
  orgs : list ptr;      (* one slot per position *)
}.

(** What can be observed of a run: the signals, in the order in which
    they fire, and the releases of organisms, modules and populations.
    [OnOffspringReady] and [OnInjectReady] hand the organism itself to
    their listeners, so the event keeps its value; [BeforeDeath] keeps the
    occupant its listeners find at the position. *)
Inductive Event : Type :=
| BeforeRepro (ppos : OrgPosition)
| OnOffspringReady (offspring : ptr) (value : Organism)
                   (ppos : OrgPosition) (target_pop : nat)
| OnInjectReady (inject_org : ptr) (value : Organism) (pop : nat)
| BeforePlacement (org : ptr) (target_pos ppos : OrgPosition)
| OnPlacement (placement_pos : OrgPosition)
| BeforeDeath (remove_pos : OrgPosition) (occupant : option ptr)
| BeforeSwap (pos1 pos2 : OrgPosition)
| OnSwap (pos1 pos2 : OrgPosition)
| BeforePopResize (pop : nat) (new_size : nat)
| OnPopResize (pop : nat) (old_size : nat)
| BeforeExit
| Released (org : ptr)
| ModuleDeleted (id : nat)
| PopulationDeleted (id : nat).

#[export] Instance Event_eq_dec : EqDecision Event.
Proof. solve_decision. Defined.

(** The controller, as far as population management reads or writes it. *)
Record MABE : Type := {
  exit_now : bool;
  errors : list string;             (* error_man: the errors, oldest first *)
  pops : list Population;           (* emp::vector<emp::Ptr<Population>> *)
  empty_org : option ptr;           (* nullptr until SetupEmpty *)
  heap : list (option Organism);    (* the arena; [None] once released *)
  random : nat;                     (* state of emp::Random *)
  modules : list string;            (* the modules, by name *)
  trace : list Event;
}.

Definition set_errors (v : list string) (st : MABE) : MABE :=
  {| exit_now := exit_now st; errors := v; pops := pops st;
     empty_org := empty_org st; heap := heap st; random := random st;
     modules := modules st; trace := trace st |}.

Definition set_pops (v : list Population) (st : MABE) : MABE :=
  {| exit_now := exit_now st; errors := errors st; pops := v;
     empty_org := empty_org st; heap := heap st; random := random st;
     modules := modules st; trace := trace st |}.

Definition set_heap (v : list (option Organism)) (st : MABE) : MABE :=
  {| exit_now := exit_now st; errors := errors st; pops := pops st;
     empty_org := empty_org st; heap := v; random := random st;
     modules := modules st; trace := trace st |}.

Definition set_random (v : nat) (st : MABE) : MABE :=
  {| exit_now := exit_now st; errors := errors st; pops := pops st;
     empty_org := empty_org st; heap := heap st; random := v;
     modules := modules st; trace := trace st |}.

Definition set_trace (v : list Event) (st : MABE) : MABE :=
  {| exit_now := exit_now st; errors := errors st; pops := pops st;
     empty_org := empty_org st; heap := heap st; random := random st;
     modules := modules st; trace := v |}.

(** ** Effects: state, and faults that end the run *)

Inductive Fault : Set :=
| OutOfBounds (index : Z)     (* vector access outside the vector *)
| BadPosition                 (* slot access through an invalid position *)
| NullDeref                   (* use of a null or released pointer *)
| ShrinkOccupied.             (* resize that would drop an occupied slot *)

Inductive Outcome (A : Type) : Type :=
| Done (a : A) (st : MABE)
| Crash (f : Fault) (st : MABE).
Arguments Done {A} a st.
Arguments Crash {A} f st.

Definition M (A : Type) : Type := MABE -> Outcome A.

Definition ret {A} (a : A) : M A := fun st => Done a st.
Definition bind {A B} (m : M A) (f : A -> M B) : M B := fun st =>
  match m st with
  | Done a st' => f a st'
  | Crash e st' => Crash e st'
  end.

Declare Scope mabe_scope.
Delimit Scope mabe_scope with mabe.
Notation "x ← y ; z" := (bind y (fun x => z))
  (at level 20, y at level 100, z at level 200, only parsing) : mabe_scope.
Notation "x ;; z" := (bind x (fun _ => z))
  (at level 100, z at level 200, only parsing, right associativity) : mabe_scope.
#[local] Open Scope mabe_scope.

Definition crash {A} (f : Fault) : M A := fun st => Crash f st.
Definition gets {A} (f : MABE -> A) : M A := fun st => Done (f st) st.
Definition modify (f : MABE -> MABE) : M unit := fun st => Done tt (f st).

(** [for (size_t i = start; i < start + n; i++) acc = body(i, acc);] *)
Fixpoint for_loop {T : Type} (n : nat) (i : nat) (body : nat -> T -> M T) (acc : T)
    : M T :=
  match n with
  | 0 => ret acc
  | S n' => acc' ← body i acc; for_loop n' (S i) body acc'
  end.

(** [sig.Trigger(...)]: the signal fires. *)
Definition Trigger (ev : Event) : M unit :=
  modify (fun st => set_trace (trace st ++ [ev]) st).

(** [error_man.AddError(...)]: the message joins the collected errors. *)
Definition AddError (msg : string) : M unit :=
  modify (fun st => set_errors (errors st ++ [msg]) st).

(** [emp::NewPtr<Organism>(o)]: a fresh address, holding [o]. *)
Definition NewPtr (o : Organism) : M ptr :=
  fun st => Done (length (heap st)) (set_heap (heap st ++ [Some o]) st).

(** [p.Delete()] on an organism pointer. *)
Definition Delete (p : ptr) : M unit :=
  modify (fun st => set_trace (trace st ++ [Released p])
                      (set_heap (<[p := None]> (heap st)) st)).

(** [*p] *)
Definition Deref (p : ptr) : M Organism :=
  fun st => match heap st !! p with
            | Some (Some o) => Done o st
            | _ => Crash NullDeref st
            end.

(** ** Positions *)

(** [pos.OrgPtr()]: the pointer stored at a position, when the position
    is valid. *)
Definition OrgPtr (st : MABE) (p : OrgPosition) : option ptr :=
  match pop_ptr p with
  | Some id =>
      match pops st !! id with
      | Some P => orgs P !! pos p
      | None => None
      end
  | None => None
  end.

(** Modelled from the spec: [OrgPosition::IsValid] (OrgPosition.hpp is
    not among the sources), "validity = index in bounds and population
    exists". *)
Definition IsValid (st : MABE) (p : OrgPosition) : bool :=
  match pop_ptr p with
  | Some id =>
      match pops st !! id with
      | Some P => bool_decide (pos p < length (orgs P))
      | None => false
      end
  | None => false
  end.

(** Is [q] the shared placeholder of unoccupied slots? *)
Definition is_sentinel (st : MABE) (q : ptr) : bool :=
  bool_decide (empty_org st = Some q).

(** Modelled from the spec: [OrgPosition::IsEmpty] and [IsOccupied];
    occupancy is a property of a valid position, whose "slot holds either
    a real organism or the sentinel". *)
Definition IsEmpty (st : MABE) (p : OrgPosition) : bool :=
  match OrgPtr st p with
  | Some q => is_sentinel st q
  | None => false
  end.

Definition IsOccupied (st : MABE) (p : OrgPosition) : bool :=
  match OrgPtr st p with
  | Some q => negb (is_sentinel st q)
  | None => false
  end.

(** [pos.PopPtr()->ExtractOrg(pos.Pos())], as far as reading goes: the
    pointer in the slot. *)
Definition SlotAt (p : OrgPosition) : M ptr :=
  fun st => match OrgPtr st p with
            | Some q => Done q st
            | None => Crash BadPosition st
            end.

Definition set_slot (p : OrgPosition) (q : ptr) (ps : list Population)
    : list Population :=
  match pop_ptr p with
  | Some id =>
      alter (fun P => {| pop_name := pop_name P;
                         orgs := <[pos p := q]> (orgs P) |}) id ps
  | None => ps
  end.

(** [pos.PopPtr()->SetOrg(pos.Pos(), q)] *)
Definition SetOrg (p : OrgPosition) (q : ptr) : M unit :=
  fun st => if IsValid st p then Done tt (set_pops (set_slot p q (pops st)) st)
            else Crash BadPosition st.

(** The sentinel, for a slot that is being emptied. *)
Definition GetEmpty : M ptr :=
  fun st => match empty_org st with
            | Some e => Done e st
            | None => Crash NullDeref st
            end.

(** ** MABEBase: the operations every entry point goes through *)

(** Modelled from the spec: [MABEBase::AddOrgAt] (MABEBase.hpp is not
    among the sources), which "fires BeforePlacement(org, pos,
    parent_pos), installs org at pos (releasing whatever was previously
    there, unless it was the sentinel), fires OnPlacement(pos)". *)
Definition AddOrgAt (org_ptr : ptr) (pos ppos : OrgPosition) : M unit :=
  Trigger (BeforePlacement org_ptr pos ppos);;
  old ← SlotAt pos;
  keep ← gets (fun st => is_sentinel st old);
  (if keep then ret tt else Delete old);;
  SetOrg pos org_ptr;;
  Trigger (OnPlacement pos).

(** Modelled from the spec: [MABEBase::ClearOrgAt], which "if occupied by
    a real organism, fires BeforeDeath(pos), replaces the slot with the
    sentinel reference, releases the organism". *)
Definition ClearOrgAt (pos : OrgPosition) : M unit :=
  occupied ← gets (fun st => IsOccupied st pos);
  if (occupied : bool) then
    occupant ← gets (fun st => OrgPtr st pos);
    Trigger (BeforeDeath pos occupant);;
    old ← SlotAt pos;
    e ← GetEmpty;
    SetOrg pos e;;
    Delete old
  else ret tt.

(** Modelled from the spec: [MABEBase::SwapOrgs], which "fires
    BeforeSwap, exchanges slot contents (may cross populations), fires
    OnSwap". *)
Definition SwapOrgs (pos1 pos2 : OrgPosition) : M unit :=
  Trigger (BeforeSwap pos1 pos2);;
  org1 ← SlotAt pos1;
  org2 ← SlotAt pos2;
  SetOrg pos1 org2;;
  SetOrg pos2 org1;;
  Trigger (OnSwap pos1 pos2).

(** The population behind a [Population &]. *)
Definition GetPop (pop : nat) : M Population :=
  fun st => match pops st !! pop with
            | Some P => Done P st
            | None => Crash NullDeref st
            end.

(** [pop.GetSize()] *)
Definition GetSize (pop : nat) : M nat := P ← GetPop pop; ret (length (orgs P)).

(** Modelled from the spec: [MABEBase::ResizePop], which "fires
    BeforePopResize(pop, n); grows with sentinel-filled new slots or
    shrinks (removed slots must be empty); fires OnPopResize(pop,
    old_size)". *)
Definition ResizePop (pop : nat) (new_size : nat) : M unit :=
  Trigger (BeforePopResize pop new_size);;
  P ← GetPop pop;
  let old_size := length (orgs P) in
  (if bool_decide (old_size <= new_size) then
     if bool_decide (old_size = new_size) then ret tt
     else
       e ← GetEmpty;
       modify (fun st =>
         set_pops (<[pop := {| pop_name := pop_name P;
                               orgs := orgs P ++ replicate (new_size - old_size) e |}]>
                     (pops st)) st)
   else
     removed_empty ← gets (fun st =>
       forallb (is_sentinel st) (drop new_size (orgs P)));
     if (removed_empty : bool) then
       modify (fun st =>
         set_pops (<[pop := {| pop_name := pop_name P;
                               orgs := take new_size (orgs P) |}]> (pops st)) st)
     else crash ShrinkOccupied);;
  Trigger (OnPopResize pop old_size).

(** ** Vector access by a C++ index *)

(** [(size_t) v] for a 64-bit [size_t]. *)
Definition to_size_t (v : Z) : Z := v mod 2 ^ 64.

(** [(int) v] for a 32-bit [int]. *)
Definition to_int (v : Z) : Z := ((v + 2 ^ 31) mod 2 ^ 32 - 2 ^ 31)%Z.

(** [emp::FindEval(v, pred)] of Empirical, an [int]: the index of the
    first element that passes [pred], or -1.  The index is a [size_t]
    that the function returns as an [int]. *)
Fixpoint FindEval_from {A} (pred : A -> bool) (v : list A) (i : Z) : Z :=
  match v with
  | [] => -1
  | x :: v' => if pred x then i else FindEval_from pred v' (i + 1)
  end.
Definition FindEval {A} (pred : A -> bool) (v : list A) : Z :=
  to_int (FindEval_from pred v 0).

(** [v[id]] for a [size_t] [id]. *)
Definition vector_at {A} (v : list A) (id : Z) : option A :=
  if (id <? Z.of_nat (length v))%Z then v !! Z.to_nat id else None.

(** [int MABE::GetPopID], MABE.hpp line 160. *)
Definition GetPopID (st : MABE) (name : string) : Z :=
  FindEval (fun P => String.eqb (pop_name P) name) (pops st).

(** [MABE::GetPopulation(size_t id)], MABE.hpp line 163: [*pops[id]].
    The result is the reference to the population, which is its index. *)
Definition GetPopulation (id : Z) : M nat :=
  fun st => match vector_at (pops st) id with
            | Some _ => Done (Z.to_nat id) st
            | None => Crash (OutOfBounds id) st
            end.

(** [int MABE::GetModuleID], MABE.hpp line 275. *)
Definition GetModuleID (st : MABE) (mod_name : string) : Z :=
  FindEval (fun m => String.eqb m mod_name) (modules st).

(** [MABE::GetModule(const std::string &)], MABE.hpp line 287:
    [*modules[(size_t) GetModuleID(mod_name)]]. *)
Definition GetModule (mod_name : string) : M string :=
  fun st => let id := to_size_t (GetModuleID st mod_name) in
            match vector_at (modules st) id with
            | Some m => Done m st
            | None => Crash (OutOfBounds id) st
            end.

(** ** MABE: movement and clearing *)

(** [MABE::MoveOrg], MABE.hpp lines 167-172. *)
Definition MoveOrg (from_pos to_pos : OrgPosition) : M unit :=
  ClearOrgAt to_pos;;
  SwapOrgs from_pos to_pos.

(** [MABE::ClearPop], MABE.hpp lines 221-224: from [pop.begin()] to
    [pop.end()]. *)
Definition ClearPop (pop : nat) : M unit :=
  n ← GetSize pop;
  for_loop n 0 (fun i _ => ClearOrgAt (IteratorAt pop i)) tt.

(** [MABE::EmptyPop], MABE.hpp lines 226-230. *)
Definition EmptyPop (pop : nat) (new_size : nat) : M unit :=
  ClearPop pop;;
  ResizePop pop new_size.

(** [org.CloneOrganism()] (Organism.h: "We MUST be able to make a copy
    of organisms"): a copy of the organism at a new address. *)
Definition CloneOrganism (org : Organism) : M ptr := NewPtr org.

(** [on_inject_ready_sig.Trigger( *inject_org, pop)] *)
Definition Trigger_OnInjectReady (inject_org : ptr) (pop : nat) : M unit :=
  v ← Deref inject_org;
  Trigger (OnInjectReady inject_org v pop).

(** [MABE::InjectAt], MABE.hpp lines 191-197. *)
Definition InjectAt (org : Organism) (pos : OrgPosition) : M unit :=
  inject_org ← CloneOrganism org;
  pop ← match pop_ptr pos with
        | Some id => GetPopulation (Z.of_nat id)
        | None => crash NullDeref
        end;
  Trigger_OnInjectReady inject_org pop;;
  AddOrgAt inject_org pos no_position.

(** [MABE::CopyPop], MABE.hpp lines 232-239.  The bound
    [from_pop.GetSize()] is read once: nothing in the body resizes a
    population. *)
Definition CopyPop (from_pop to_pop : nat) : M unit :=
  n ← GetSize from_pop;
  EmptyPop to_pop n;;
  n ← GetSize from_pop;
  for_loop n 0 (fun pos _ =>
    empty ← gets (fun st => IsEmpty st (IteratorAt from_pop pos));
    if (empty : bool) then ret tt                          (* continue *)
    else
      q ← SlotAt (IteratorAt from_pop pos);                 (* from_pop[pos] *)
      org ← Deref q;
      InjectAt org (IteratorAt to_pop pos)) tt.

(** ** MABE: teardown *)

(** Has the module [m] been deleted?  The trace keeps the deletions. *)
Definition module_deleted (st : MABE) (m : nat) : bool :=
  bool_decide (ModuleDeleted m ∈ trace st).

(** Modelled from the spec: the delivery of a signal to its listeners
    (the signal classes are in MABEBase.hpp, which is not among the
    sources), [Trigger] being what "invokes, in module-registration
    order, the handler of every module currently subscribed".  The
    listeners are the module pointers that [UpdateSignals] stored for the
    signal (MABE.hpp line 510); a call through the pointer of a deleted
    module is the use of a released pointer.  The handlers themselves are
    observers. *)
Definition call_listeners (listeners : list nat) : M unit :=
  fun st => if forallb (fun m => negb (module_deleted st m)) listeners
            then Done tt st
            else Crash NullDeref st.

Section Teardown.

(** The listeners of BeforeDeath: the modules of
    [sig_ptrs[SIG_BeforeDeath]]. *)
Variable BeforeDeath_listeners : list nat.

(** Modelled from the spec: [MABEBase::ClearOrgAt] as above, with the
    delivery of its BeforeDeath written out. *)
Definition ClearOrgAt_delivering (pos : OrgPosition) : M unit :=
  occupied ← gets (fun st => IsOccupied st pos);
  if (occupied : bool) then
    occupant ← gets (fun st => OrgPtr st pos);
    Trigger (BeforeDeath pos occupant);;
    call_listeners BeforeDeath_listeners;;
    old ← SlotAt pos;
    e ← GetEmpty;
    SetOrg pos e;;
    Delete old
  else ret tt.

(** [MABE::ClearPop], MABE.hpp lines 222-224, with that [ClearOrgAt]. *)
Definition ClearPop_delivering (pop : nat) : M unit :=
  n ← GetSize pop;
  for_loop n 0 (fun i _ => ClearOrgAt_delivering (IteratorAt pop i)) tt.

(** [MABE::~MABE], MABE.hpp lines 125-135.  BeforeExit goes to modules
    that are all there; line 128 deletes every module, and leaves their
    pointers in the listener vectors of the signals; the BeforeDeath of
    line 130 goes to those. *)
Definition MABE_destructor : M unit :=
  Trigger BeforeExit;;
  n_mods ← gets (fun st => length (modules st));
  for_loop n_mods 0 (fun i _ => Trigger (ModuleDeleted i)) tt;;
  n_pops ← gets (fun st => length (pops st));
  for_loop n_pops 0 (fun i _ =>
    ClearPop_delivering i;;
    Trigger (PopulationDeleted i)) tt;;
  e ← gets empty_org;
  match e with
  | Some p => Delete p
  | None => ret tt
  end.

End Teardown.

(** ** MABE: injection, birth and random positions *)

Section Plugins.

(** What modules and the random number generator supply.  Each is a
    function of what the C++ hands to it; a placement strategy may also
    read the populations. *)

(** [pop.PlaceInject(org)]: the population's placement strategy for an
    injected organism. *)
Variable PlaceInject : MABE -> nat -> ptr -> OrgPosition.

(** [pop.PlaceBirth(org, ppos)]: its placement strategy for an offspring. *)
Variable PlaceBirth : MABE -> nat -> ptr -> OrgPosition -> OrgPosition.

(** [org_manager.Make<Organism>(random)]: the factory of a module. *)
Variable Make : string -> nat -> Organism * nat.

(** [org.Mutate(random)] (Organism.h). *)
Variable Mutate : Organism -> nat -> Organism * nat.

(** [random.GetUInt(max)] of emp::Random. *)
Variable GetUInt : nat -> nat -> nat * nat.

(** [org_manager.Make<Organism>(random)], at a new address. *)
Definition MakeOrganism (type_name : string) : M ptr :=
  r ← gets random;
  let '(o, r') := Make type_name r in
  modify (set_random r');;
  NewPtr o.

(** Modelled from the spec: [Organism::MakeOffspringOrganism] (absent
    from Organism.h as given), "mutated inheritance": a clone of the
    parent, mutated. *)
Definition MakeOffspringOrganism (org : Organism) : M ptr :=
  r ← gets random;
  let '(o, r') := Mutate org r in
  modify (set_random r');;
  NewPtr o.

(** [MABE::Inject(Population &, const Organism &, size_t)],
    MABE.hpp lines 817-835.  [org] is a reference: each round reads the
    organism behind it, to copy it. *)
Definition Inject (pop : nat) (org : ptr) (copy_count : nat) : M Collection :=
  for_loop copy_count 0 (fun i placement_set =>
    original ← Deref org;
    inject_org ← CloneOrganism original;
    Trigger_OnInjectReady inject_org pop;;
    pos ← gets (fun st => PlaceInject st pop inject_org);
    valid ← gets (fun st => IsValid st pos);
    if (valid : bool) then
      AddOrgAt inject_org pos no_position;;
      ret (Insert pos placement_set)
    else
      Delete inject_org;;
      AddError ("Invalid position; failed to inject organism "
                  +:+ pretty i +:+ "!");;
      ret placement_set) ∅.

(** [MABE::InjectInstance], MABE.hpp lines 837-849. *)
Definition InjectInstance (pop : nat) (org_ptr : ptr) : M OrgPosition :=
  Trigger_OnInjectReady org_ptr pop;;
  pos ← gets (fun st => PlaceInject st pop org_ptr);
  valid ← gets (fun st => IsValid st pos);
  (if (valid : bool) then AddOrgAt org_ptr pos no_position
   else
     Delete org_ptr;;
     AddError "Invalid position; failed to inject organism!");;
  ret pos.

(** [MABE::Inject(Population &, const std::string &, size_t)],
    MABE.hpp lines 852-868. *)
Definition Inject_type (pop : nat) (type_name : string) (copy_count : nat)
    : M Collection :=
  org_manager ← GetModule type_name;
  for_loop copy_count 0 (fun i placement_set =>
    org_ptr ← MakeOrganism org_manager;
    pos ← InjectInstance pop org_ptr;
    ret (Insert pos placement_set)) ∅.

(** [MABE::InjectByName], MABE.hpp lines 870-884. *)
Definition InjectByName (pop_name type_name : string) (copy_count : nat)
    : M Collection :=
  pop_id ← gets (fun st => GetPopID st pop_name);
  (if (pop_id =? -1)%Z then
     AddError ("Invalid population name used in inject: "
                 +:+ "org_type= '" +:+ type_name +:+ "'; "
                 +:+ "pop_name= '" +:+ pop_name +:+ "'; "
                 +:+ "copy_count=" +:+ pretty copy_count)
   else ret tt);;
  pop ← GetPopulation (to_size_t pop_id);
  Inject_type pop type_name copy_count.

(** [MABE::DoBirth(const Organism &, OrgPosition, Population &, size_t,
    bool)], MABE.hpp lines 886-914.  [org] is a reference: each round
    reads the organism behind it, to make the offspring. *)
Definition DoBirth (org : ptr) (ppos : OrgPosition) (target_pop : nat)
    (birth_count : nat) (do_mutations : bool) : M Collection :=
  Trigger (BeforeRepro ppos);;
  for_loop birth_count 0 (fun i birth_list =>
    parent ← Deref org;
    new_org ← (if do_mutations then MakeOffspringOrganism parent
               else CloneOrganism parent);
    v ← Deref new_org;
    Trigger (OnOffspringReady new_org v ppos target_pop);;
    pos ← gets (fun st => PlaceBirth st target_pop new_org ppos);
    valid ← gets (fun st => IsValid st pos);
    if (valid : bool) then
      AddOrgAt new_org pos ppos;;
      ret (Insert pos birth_list)
    else
      Delete new_org;;
      ret birth_list) ∅.

(** [MABE::DoBirth(const Organism &, OrgPosition, OrgPosition, bool)],
    MABE.hpp lines 916-930. *)
Definition DoBirth_at (org : Organism) (ppos target_pos : OrgPosition)
    (do_mutations : bool) : M Collection :=
  Trigger (BeforeRepro ppos);;
  new_org ← (if do_mutations then MakeOffspringOrganism org
             else CloneOrganism org);
  v ← Deref new_org;
  target_pop ← match pop_ptr target_pos with
               | Some id => ret id
               | None => crash NullDeref
               end;
  Trigger (OnOffspringReady new_org v ppos target_pop);;
  AddOrgAt new_org target_pos ppos;;
  ret ({[ target_pos ]} : Collection).




End Plugins.

(** ** Vocabulary for stating what the entry points do *)

(** The organism at an address is alive: allocated and not released. *)
Definition Live (st : MABE) (q : ptr) : Prop :=
  exists o, heap st !! q = Some (Some o).

(** Nothing alive is stored at address [q] of the arena [h]. *)
Definition dead (h : list (option Organism)) (q : ptr) : Prop :=
  forall o, h !! q <> Some (Some o).

(** The events of clearing the slots [slots] of population [pop], which
    start at index [i]: every slot that does not hold the sentinel [e]
    dies and is released. *)
Fixpoint clear_events (e : ptr) (pop : nat) (i : nat) (slots : list ptr)
    : list Event :=
  match slots with
  | [] => []
  | q :: slots' =>
      (if decide (q = e) then []
       else [BeforeDeath (IteratorAt pop i) (Some q); Released q])
        ++ clear_events e pop (S i) slots'
  end.

(** The arena once every organism of [slots] other than the sentinel is
    released. *)
Definition release_all (e : ptr) (slots : list ptr) (h : list (option Organism))
    : list (option Organism) :=
  foldl (fun h q => if decide (q = e) then h else <[q := None]> h) h slots.

(** A population once it is cleared: every slot holds the sentinel. *)
Definition cleared (e : ptr) (P : Population) : Population :=
  {| pop_name := pop_name P; orgs := replicate (length (orgs P)) e |}.

(** The arena once the organisms of the populations [ps] are released. *)
Definition release_pops (e : ptr) (ps : list Population)
    (h : list (option Organism)) : list (option Organism) :=
  foldl (fun h P => release_all e (orgs P) h) h ps.

(** The events of tearing down the populations [ps], the first of which
    has index [i]: each is cleared, then deleted. *)
Fixpoint teardown_events (e : ptr) (i : nat) (ps : list Population) : list Event :=
  match ps with
  | [] => []
  | P :: ps' =>
      clear_events e i 0 (orgs P) ++ [PopulationDeleted i]
        ++ teardown_events e (S i) ps'
  end.

(** The slot [slot] of a copy answers the source slot [p]: empty for
    empty, and otherwise an address that was not in use in [h] and holds
    in [h'] what [p] holds in [h]. *)
Definition copied (e : ptr) (h h' : list (option Organism)) (p : ptr)
    (slot : option ptr) : Prop :=
  if decide (p = e) then slot = Some e
  else exists q o, slot = Some q /\ length h <= q
                   /\ h !! p = Some (Some o) /\ h' !! q = Some (Some o).

Section Draws.

Variable GetUInt : nat -> nat -> nat * nat.



End Draws.

Section Offspring.

Variable Mutate : Organism -> nat -> Organism * nat.
Variables (org : Organism) (do_mutations : bool).

(** [v] is an offspring of [org]: mutated from it, or its exact copy. *)
Definition is_offspring (v : Organism) : Prop :=
  if do_mutations then exists r, v = fst (Mutate org r) else v = org.

End Offspring.

(** The controller once [AddOrgAt] has put [o] at [pos], where [old]
    was: [old] is released unless it is the sentinel. *)
Definition installed (o : ptr) (pos ppos : OrgPosition) (old : ptr) (st : MABE)
    : MABE :=
  {| exit_now := exit_now st; errors := errors st;
     pops := set_slot pos o (pops st);
     empty_org := empty_org st;
     heap := if is_sentinel st old then heap st else <[old := None]> (heap st);
     random := random st; modules := modules st;
     trace := trace st ++ [BeforePlacement o pos ppos]
                ++ (if is_sentinel st old then [] else [Released old])
                ++ [OnPlacement pos] |}.

(** The controller once the organism at [o] has been released. *)
Definition released (o : ptr) (st : MABE) : MABE :=
  {| exit_now := exit_now st; errors := errors st; pops := pops st;
     empty_org := empty_org st;
     heap := <[o := None]> (heap st);
     random := random st; modules := modules st;
     trace := trace st ++ [Released o] |}.

Definition is_OnPlacement (ev : Event) : bool :=
  match ev with OnPlacement _ => true | _ => false end.
Definition placements (evs : list Event) : nat :=
  length (List.filter is_OnPlacement evs).

Section BirthRounds.

Variable PlaceBirth : MABE -> nat -> ptr -> OrgPosition -> OrgPosition.
Variable Mutate : Organism -> nat -> Organism * nat.
Variables (org : ptr) (ppos : OrgPosition) (target_pop : nat).
Variable do_mutations : bool.

(** The offspring of [parent], and the generator after it was made. *)
Definition offspring (parent : Organism) (r : nat) : Organism * nat :=
  if do_mutations then Mutate parent r else (parent, r).

(** The controller once the next offspring of [parent] is ready: the
    offspring is at a new address, the generator has moved on, and
    OnOffspringReady has fired. *)
Definition offspring_ready (parent : Organism) (st : MABE) : MABE :=
  {| exit_now := exit_now st; errors := errors st; pops := pops st;
     empty_org := empty_org st;
     heap := heap st ++ [Some (fst (offspring parent (random st)))];
     random := snd (offspring parent (random st));
     modules := modules st;
     trace := trace st ++ [OnOffspringReady (length (heap st))
                             (fst (offspring parent (random st)))
                             ppos target_pop] |}.

(** The destination [PlaceBirth] gives for that offspring. *)
Definition birth_pos (parent : Organism) (st : MABE) : OrgPosition :=
  PlaceBirth (offspring_ready parent st) target_pop (length (heap st)) ppos.

(** How [n] more rounds of the loop of [DoBirth] go, from the controller
    [st] with the positions [birth_list] collected so far.  A round that
    finds the parent alive makes the offspring and asks [PlaceBirth]; on
    a valid answer the offspring is installed there and the position
    collected, otherwise the offspring is released.  A round that finds
    the parent released ends the run. *)
Inductive births : nat -> MABE -> Collection -> Outcome Collection -> Prop :=
| births_done (st : MABE) (birth_list : Collection) :
    births 0 st birth_list (Done birth_list st)
| births_placed (n : nat) (st : MABE) (birth_list : Collection)
      (parent : Organism) (old : ptr) (out : Outcome Collection) :
    heap st !! org = Some (Some parent) ->
    OrgPtr (offspring_ready parent st) (birth_pos parent st) = Some old ->
    births n
      (installed (length (heap st)) (birth_pos parent st) ppos old
         (offspring_ready parent st))
      (Insert (birth_pos parent st) birth_list) out ->
    births (S n) st birth_list out
| births_turned_away (n : nat) (st : MABE) (birth_list : Collection)
      (parent : Organism) (out : Outcome Collection) :
    heap st !! org = Some (Some parent) ->
    IsValid (offspring_ready parent st) (birth_pos parent st) = false ->
    births n (released (length (heap st)) (offspring_ready parent st))
      birth_list out ->
    births (S n) st birth_list out
| births_dangling (n : nat) (st : MABE) (birth_list : Collection) :
    ~ Live st org ->
    births (S n) st birth_list (Crash NullDeref st).

End BirthRounds.

Section InjectRounds.

Variable PlaceInject : MABE -> nat -> ptr -> OrgPosition.
Variables (pop : nat) (org : ptr).

(** The controller once the next copy of [original] is ready: the copy
    is at a new address and OnInjectReady has fired. *)
Definition inject_ready (original : Organism) (st : MABE) : MABE :=
  {| exit_now := exit_now st; errors := errors st; pops := pops st;
     empty_org := empty_org st;
     heap := heap st ++ [Some original];
     random := random st; modules := modules st;
     trace := trace st ++ [OnInjectReady (length (heap st)) original pop] |}.

(** The destination [PlaceInject] gives for that copy. *)
Definition inject_pos (original : Organism) (st : MABE) : OrgPosition :=
  PlaceInject (inject_ready original st) pop (length (heap st)).

(** The controller once the copy at [o], of round [i], has been turned
    away: it is released and the error reported. *)
Definition refused (i : nat) (o : ptr) (st : MABE) : MABE :=
  set_errors (errors st ++ ["Invalid position; failed to inject organism "
                              +:+ pretty i +:+ "!"])
    (released o st).

(** How [n] more rounds of the loop of [Inject] go, from round [i] in the
    controller [st] with the positions [placement_set] collected so far. *)
Inductive injections
    : nat -> nat -> MABE -> Collection -> Outcome Collection -> Prop :=
| injections_done (i : nat) (st : MABE) (placement_set : Collection) :
    injections 0 i st placement_set (Done placement_set st)
| injections_placed (n i : nat) (st : MABE) (placement_set : Collection)
      (original : Organism) (old : ptr) (out : Outcome Collection) :
    heap st !! org = Some (Some original) ->
    OrgPtr (inject_ready original st) (inject_pos original st) = Some old ->
    injections n (S i)
      (installed (length (heap st)) (inject_pos original st) no_position old
         (inject_ready original st))
      (Insert (inject_pos original st) placement_set) out ->
    injections (S n) i st placement_set out
| injections_refused (n i : nat) (st : MABE) (placement_set : Collection)
      (original : Organism) (out : Outcome Collection) :
    heap st !! org = Some (Some original) ->
    IsValid (inject_ready original st) (inject_pos original st) = false ->
    injections n (S i) (refused i (length (heap st)) (inject_ready original st))
      placement_set out ->
    injections (S n) i st placement_set out
| injections_dangling (n i : nat) (st : MABE) (placement_set : Collection) :
    ~ Live st org ->
    injections (S n) i st placement_set (Crash NullDeref st).

End InjectRounds.

(** ** MABE.hpp and Module.hpp: whole populations, names and collections *)

#[local] Open Scope string_scope.
#[local] Open Scope list_scope.

(** One round of the loop of [MoveOrgs], MABE.hpp line 942: the slot
    [i] of [from_pop], and the slot of [to_pop] that [it_to] has
    reached with it. *)
Definition MoveOrgs_body (from_pop to_pop it_to i : nat) : M unit :=
  occupied ← gets (fun st => IsOccupied st (IteratorAt from_pop i));
  if (occupied : bool)
  then MoveOrg (IteratorAt from_pop i) (IteratorAt to_pop (it_to + i))
  else ret tt.

(** [MABE::MoveOrgs], MABE.hpp lines 932-947.  [it_to] starts at
    [to_pop.begin()] or at [to_pop.end()], read before [to_pop] is
    prepared; the two iterators step together, and the loop ends at
    [from_pop.end()], which nothing in its body moves. *)
Definition MoveOrgs (from_pop to_pop : nat) (reset_to : bool) : M unit :=
  to_size ← GetSize to_pop;
  let it_to := if reset_to then 0 else to_size in
  from_size ← GetSize from_pop;
  (if reset_to then EmptyPop to_pop from_size
   else ResizePop to_pop (to_size + from_size));;
  n ← GetSize from_pop;
  for_loop n 0 (fun i _ => MoveOrgs_body from_pop to_pop it_to i) tt;;
  EmptyPop from_pop 0.

(** The events of moving the slots [slots] of [from_pop], which start at
    index [i], to the slots of [to_pop] that start at [it_to + i]: every
    slot that does not hold the sentinel [e] is swapped over. *)
Fixpoint move_events (e : ptr) (from_pop to_pop : nat) (it_to i : nat)
    (slots : list ptr) : list Event :=
  match slots with
  | [] => []
  | q :: slots' =>
      (if decide (q = e) then []
       else [BeforeSwap (IteratorAt from_pop i) (IteratorAt to_pop (it_to + i));
             OnSwap (IteratorAt from_pop i) (IteratorAt to_pop (it_to + i))])
        ++ move_events e from_pop to_pop it_to (S i) slots'
  end.

(** Modelled from the spec: the constructor of [Population]
    (Population.hpp is not among the sources), whose slots each hold "a
    real organism or the sentinel": a new population of [pop_size] slots
    holds the sentinel in each.  Slots cannot be made before there is a
    sentinel ([SetupEmpty]).  The population keeps [pop_id] for itself;
    the controller finds a population by its place in [pops]. *)
Definition NewPopulation (name : string) (pop_id : Z) (pop_size : nat)
    : M Population :=
  match pop_size with
  | 0 => ret {| pop_name := name; orgs := [] |}
  | _ => e ← GetEmpty; ret {| pop_name := name; orgs := replicate pop_size e |}
  end.

(** [MABE::AddPopulation], MABE.hpp lines 796-815: the new population
    goes to the end of [pops]; the result is the reference to it.  The
    placement functions it installs are the [PlaceBirth] and [PlaceInject]
    of the section [Plugins]. *)
Definition AddPopulation (name : string) (pop_size : nat) : M nat :=
  pop_id ← gets (fun st => to_int (Z.of_nat (length (pops st))));
  new_pop ← NewPopulation name pop_id pop_size;
  place ← gets (fun st => length (pops st));
  modify (fun st => set_pops (pops st ++ [new_pop]) st);;
  ret place.

(** [MABE::GetNumPopulations], MABE.hpp line 159. *)
Definition GetNumPopulations (st : MABE) : nat := length (pops st).

(** ** Module.hpp: parameters that name a population or a module *)

(** The [set_fun] of [Module::LinkPop], Module.hpp lines 174-180: the new
    value of [var], and the message handed to [emp::notify::Error] when
    there is one. *)
Definition LinkPop_set (st : MABE) (name : string) : Z * option string :=
  let var := GetPopID st name in
  (var, if (var =? -1)%Z
        then Some ("Trying to access population '" +:+ name +:+ "'; does not exist.")
        else None).

(** The [get_fun] of [Module::LinkPop], Module.hpp lines 171-172:
    [control.GetPopulation(var).GetName()]. *)
Definition LinkPop_get (var : Z) : M string :=
  pop ← GetPopulation (to_size_t var);
  P ← GetPop pop;
  ret (pop_name P).

(** The [set_fun] of [Module::LinkModule], Module.hpp lines 211-215. *)
Definition LinkModule_set (st : MABE) (name : string) : Z * option string :=
  let var := GetModuleID st name in
  (var, if (var =? -1)%Z
        then Some ("Trying to access module '" +:+ name +:+ "'; does not exist.")
        else None).

(** [MABE::GetModule(int id)], MABE.hpp lines 280-281:
    [*modules[(size_t) id]]. *)
Definition GetModule_id (id : Z) : M string :=
  fun st => match vector_at (modules st) (to_size_t id) with
            | Some m => Done m st
            | None => Crash (OutOfBounds (to_size_t id)) st
            end.

(** The [get_fun] of [Module::LinkModule], Module.hpp lines 208-209:
    [control.GetModule(var).GetName()]; a module is known by its name. *)
Definition LinkModule_get (var : Z) : M string := GetModule_id var.

(** ** MABE: collections by name *)

(** Modelled from the spec: [Collection::Insert(Population &)]
    (Collection.hpp is not among the sources), a Collection being
    "buildable from a whole population": every position of the
    population joins the set. *)
Definition Insert_pop (pop : nat) (c : Collection) : M Collection :=
  n ← GetSize pop;
  ret (list_to_set (IteratorAt pop <$> seq 0 n) ∪ c).

(** [for (auto x : l) acc = body(x, acc);] *)
Fixpoint for_each {A T : Type} (l : list A) (body : A -> T -> M T) (acc : T) : M T :=
  match l with
  | [] => ret acc
  | x :: l' => acc' ← body x acc; for_each l' body acc'
  end.

(** One round of the loop of [ToCollection], MABE.hpp lines 964-966. *)
Definition ToCollection_body (name : string) (out : Collection) : M Collection :=
  pop_id ← gets (fun st => GetPopID st name);
  if (pop_id =? -1)%Z
  then AddError ("Unknown population: " +:+ name);; ret out
  else pop ← GetPopulation (to_size_t pop_id); Insert_pop pop out.

Section Slices.

(** [emp::view_slices(load_str, ',')] of Empirical. *)
Variable view_slices : string -> list string.

(** [MABE::ToCollection], MABE.hpp lines 960-969. *)
Definition ToCollection (load_str : string) : M Collection :=
  let slices := view_slices load_str in
  for_each slices ToCollection_body ∅.

End Slices.

End Core.

(* ===================================================================== *)
(** * MABE.hpp : the command line                                         *)
(* ===================================================================== *)

Module CommandLine.

#[local] Open Scope string_scope.
#[local] Open Scope list_scope.

(** The seven lambdas that [ProcessArgs] registers, by the option they
    belong to. *)
Inductive Action : Set :=
| set_filenames      (* --filename *)
| set_generate       (* --generate *)
| ask_help           (* --help *)
| list_modules       (* --modules *)
| add_settings       (* --set *)
| print_version      (* --version *)
| set_verbose.       (* --verbose *)

(** [struct ArgInfo], MABE.hpp lines 82-95; its member [args] is
    [args_doc] here, the name [args] being that of [MABE::args]. *)
Record ArgInfo : Set := {
  name : string;     (* E.g.: "help" which would be called with "--help" *)
  flag : string;     (* E.g.: "h" which would be called with -h *)
  args_doc : string; (* Type of arguments needed *)
  desc : string;
  action : Action;
}.

(** The members of [MABE] that the command line reads or writes.  What is
    written to [std::cout] is not part of the state; [help_signals] counts
    the times [on_help_sig] fired.  Of [error_man] (ErrorManager.hpp is
    not among the sources) the state keeps the errors it has collected,
    in their order, as in [Core]: [AddError] adds one at the end and
    [GetNumErrors] counts them. *)
Record MABE : Set := {
  verbose : bool;
  show_help : bool;
  help_topic : string;
  exit_now : bool;
  errors : list string;               (* error_man: the errors, oldest first *)
  arg_set : list ArgInfo;
  args : list string;
  config_filenames : list string;
  config_settings : list string;
  gen_filename : string;
  help_signals : nat;
}.

(** The state the constructor leaves (the default member initialisers of
    lines 59-101, and [args(emp::cl::args_to_strings(argc, argv))]). *)
Definition MABE_new (argv : list string) : MABE :=
  {| verbose := false; show_help := false; help_topic := ""; exit_now := false;
     errors := []; arg_set := []; args := argv; config_filenames := [];
     config_settings := []; gen_filename := ""; help_signals := 0 |}.

Definition set_verbose_to (v : bool) (st : MABE) : MABE :=
  {| verbose := v; show_help := show_help st; help_topic := help_topic st;
     exit_now := exit_now st; errors := errors st; arg_set := arg_set st;
     args := args st; config_filenames := config_filenames st;
     config_settings := config_settings st; gen_filename := gen_filename st;
     help_signals := help_signals st |}.

Definition set_show_help (v : bool) (st : MABE) : MABE :=
  {| verbose := verbose st; show_help := v; help_topic := help_topic st;
     exit_now := exit_now st; errors := errors st; arg_set := arg_set st;
     args := args st; config_filenames := config_filenames st;
     config_settings := config_settings st; gen_filename := gen_filename st;
     help_signals := help_signals st |}.

Definition set_help_topic (v : string) (st : MABE) : MABE :=
  {| verbose := verbose st; show_help := show_help st; help_topic := v;
     exit_now := exit_now st; errors := errors st; arg_set := arg_set st;
     args := args st; config_filenames := config_filenames st;
     config_settings := config_settings st; gen_filename := gen_filename st;
     help_signals := help_signals st |}.

Definition set_exit_now (v : bool) (st : MABE) : MABE :=
  {| verbose := verbose st; show_help := show_help st; help_topic := help_topic st;
     exit_now := v; errors := errors st; arg_set := arg_set st;
     args := args st; config_filenames := config_filenames st;
     config_settings := config_settings st; gen_filename := gen_filename st;
     help_signals := help_signals st |}.

Definition set_errors (v : list string) (st : MABE) : MABE :=
  {| verbose := verbose st; show_help := show_help st; help_topic := help_topic st;
     exit_now := exit_now st; errors := v; arg_set := arg_set st;
     args := args st; config_filenames := config_filenames st;
     config_settings := config_settings st; gen_filename := gen_filename st;
     help_signals := help_signals st |}.

Definition set_arg_set (v : list ArgInfo) (st : MABE) : MABE :=
  {| verbose := verbose st; show_help := show_help st; help_topic := help_topic st;
     exit_now := exit_now st; errors := errors st; arg_set := v;
     args := args st; config_filenames := config_filenames st;
     config_settings := config_settings st; gen_filename := gen_filename st;
     help_signals := help_signals st |}.

Definition set_config_filenames (v : list string) (st : MABE) : MABE :=
  {| verbose := verbose st; show_help := show_help st; help_topic := help_topic st;
     exit_now := exit_now st; errors := errors st; arg_set := arg_set st;
     args := args st; config_filenames := v;
     config_settings := config_settings st; gen_filename := gen_filename st;
     help_signals := help_signals st |}.

Definition set_config_settings (v : list string) (st : MABE) : MABE :=
  {| verbose := verbose st; show_help := show_help st; help_topic := help_topic st;
     exit_now := exit_now st; errors := errors st; arg_set := arg_set st;
     args := args st; config_filenames := config_filenames st;
     config_settings := v; gen_filename := gen_filename st;
     help_signals := help_signals st |}.

Definition set_gen_filename (v : string) (st : MABE) : MABE :=
  {| verbose := verbose st; show_help := show_help st; help_topic := help_topic st;
     exit_now := exit_now st; errors := errors st; arg_set := arg_set st;
     args := args st; config_filenames := config_filenames st;
     config_settings := config_settings st; gen_filename := v;
     help_signals := help_signals st |}.

Definition set_help_signals (v : nat) (st : MABE) : MABE :=
  {| verbose := verbose st; show_help := show_help st; help_topic := help_topic st;
     exit_now := exit_now st; errors := errors st; arg_set := arg_set st;
     args := args st; config_filenames := config_filenames st;
     config_settings := config_settings st; gen_filename := gen_filename st;
     help_signals := v |}.

(** [MABE::ShowHelp], MABE.hpp lines 367-394: [on_help_sig.Trigger()],
    the usage or the topic on [std::cout], then [exit_now = true]. *)
Definition ShowHelp (st : MABE) : MABE :=
  set_exit_now true (set_help_signals (S (help_signals st)) st).

(** [MABE::ShowModules], MABE.hpp lines 397-408. *)
Definition ShowModules (st : MABE) : MABE := set_exit_now true st.

(** [s[0]] of a [std::string]: the first character, and the terminating
    null of an empty string. *)
Definition front (s : string) : ascii :=
  match s with
  | EmptyString => "000"%char
  | String c _ => c
  end.

(** [s.substr(pos)]: the characters from [pos] on. *)
Definition substr (s : string) (pos : nat) : string :=
  String.substring pos (String.length s - pos) s.

(** The options [ProcessArgs] registers, MABE.hpp lines 411-446, in the
    order of the [emplace_back] calls. *)
Definition registered : list ArgInfo :=
  [ {| name := "--filename"; flag := "-f"; args_doc := "[filename...] ";
       desc := "Filenames of configuration settings"; action := set_filenames |};
    {| name := "--generate"; flag := "-g"; args_doc := "[filename]    ";
       desc := "Generate a new output file"; action := set_generate |};
    {| name := "--help"; flag := "-h"; args_doc := "              ";
       desc := "Help; print command-line options for MABE"; action := ask_help |};
    {| name := "--modules"; flag := "-m"; args_doc := "              ";
       desc := "Module list"; action := list_modules |};
    {| name := "--set"; flag := "-s"; args_doc := "[param=value] ";
       desc := "Set specified parameter"; action := add_settings |};
    {| name := "--version"; flag := "-v"; args_doc := "              ";
       desc := "Version ID of MABE"; action := print_version |};
    {| name := "--verbose"; flag := "-+"; args_doc := "              ";
       desc := "Output extra setup info"; action := set_verbose |} ].

(** [cur_arg.action(option_args)]: the bodies of the seven lambdas. *)
Definition run (a : Action) (input : list string) (st : MABE) : MABE :=
  match a with
  | set_filenames => set_config_filenames input st
  | set_generate =>
      if bool_decide (length input <> 1) then set_exit_now true st
      else
        let in0 := nth 0 input "" in
        if bool_decide (4 < String.length in0)
           && String.eqb (substr in0 (String.length in0 - 4)) ".gen"
        then
          set_exit_now true
            (set_errors (errors st ++
               ["Error: generated file " +:+ in0 +:+
                " not allowed to be *.gen; typically should end in *.mabe."]) st)
        else set_gen_filename in0 st
  | ask_help =>
      let st := set_show_help true st in
      match input with
      | in0 :: _ => set_help_topic in0 st
      | [] => st
      end
  | list_modules => ShowModules st
  | add_settings =>
      set_config_settings ((config_settings st ++ input) ++ [";"]) st
  | print_version => set_exit_now true st
  | set_verbose => set_verbose_to true st
  end.

(** [for (auto & cur_arg : arg_set) if (arg == cur_arg.name || arg ==
    cur_arg.flag) ...; break;]: the first option that matches. *)
Fixpoint find_arg (arg : string) (set : list ArgInfo) : option ArgInfo :=
  match set with
  | [] => None
  | cur_arg :: set' =>
      if String.eqb arg (name cur_arg) || String.eqb arg (flag cur_arg)
      then Some cur_arg
      else find_arg arg set'
  end.

(** [while (pos+1 < args.size() && args[pos+1][0] != '-')
      option_args.push_back(args[++pos]);]
    run on the arguments after [pos]: "args until we run out or hit
    another option". *)
Fixpoint collect_options (rest : list string) : list string :=
  match rest with
  | [] => []
  | a :: rest' =>
      if bool_decide (front a <> "-"%char) then a :: collect_options rest' else []
  end.

(** The scan of [ProcessArgs], MABE.hpp lines 449-473, from position
    [pos]; every round moves [pos] forward, and [fuel] bounds the rounds. *)
Fixpoint ProcessArgs_scan (fuel : nat) (pos : nat) (st : MABE) : option MABE :=
  match fuel with
  | 0 => None
  | S fuel' =>
      match args st !! pos with
      | None => Some st                               (* pos < args.size() fails *)
      | Some arg =>
          match find_arg arg (arg_set st) with
          | Some cur_arg =>
              let option_args := collect_options (drop (pos + 1) (args st)) in
              let pos := pos + length option_args in
              let st := run (action cur_arg) option_args st in
              ProcessArgs_scan fuel' (pos + 1) st
          | None => Some (set_show_help true st)      (* unknown argument: break *)
          end
      end
  end.

(** [MABE::ProcessArgs], MABE.hpp lines 410-476. *)
Definition ProcessArgs (st : MABE) : option MABE :=
  let st := set_arg_set (arg_set st ++ registered) st in
  match ProcessArgs_scan (S (length (args st))) 1 st with
  | Some st => Some (if show_help st then ShowHelp st else st)
  | None => None
  end.

(** ** Setup *)

(** What [Setup] does outside of the members above, in the order of the
    calls. *)
Inductive Step : Set :=
| config_Load (filenames : list string)
| config_LoadStatements (settings : list string)
| config_Write (filename : string)
| trait_man_Unlock
| Setup_Modules
| Setup_Traits
| UpdateSignals
| error_man_Activate.

Section Configuration.

(** Running configuration text is Emplode's; of what it does, [Setup]
    reads whether it called [EXIT] (which sets [exit_now]) and the errors
    it reported.  [module_errors] are the errors that [Setup_Modules] and
    [Setup_Traits] report. *)
Variable Load : list string -> bool * list string.
Variable LoadStatements : list string -> bool * list string.
Variable module_errors : list string.

Definition ran (r : bool * list string) (st : MABE) : MABE :=
  set_exit_now (exit_now st || fst r) (set_errors (errors st ++ snd r) st).

(** [MABE::Setup], MABE.hpp lines 729-769 ([SetupConfig] links
    [random_seed], which is not among the members above). *)
Definition Setup (st : MABE) : option (bool * MABE * list Step) :=
  match ProcessArgs st with
  | None => None
  | Some st =>
      if exit_now st then Some (false, st, [])
      else
        let '(st, steps) :=
          if bool_decide (config_filenames st <> [])
          then (ran (Load (config_filenames st)) st, [config_Load (config_filenames st)])
          else (st, []) in
        let '(st, steps) :=
          if bool_decide (config_settings st <> [])
          then (ran (LoadStatements (config_settings st)) st,
                steps ++ [config_LoadStatements (config_settings st)])
          else (st, steps) in
        let '(st, steps) :=
          if bool_decide (gen_filename st <> "")
          then (set_exit_now true st, steps ++ [config_Write (gen_filename st)])
          else (st, steps) in
        if exit_now st then Some (false, st, steps)
        else
          let st := set_errors (errors st ++ module_errors) st in
          Some (bool_decide (errors st = []), st,
                steps ++ [trait_man_Unlock; Setup_Modules; Setup_Traits;
                          UpdateSignals; error_man_Activate])
  end.

End Configuration.

(** ** Vocabulary of the statements *)

(** An argument that cannot be taken for an option: it does not start
    with a dash. *)
Definition plain (a : string) : Prop := front a <> "-"%char.

(** A command line written as the program name and a sequence of options,
    each with the arguments that follow it. *)
Definition command_line (prog : string) (groups : list (string * list string))
    : list string :=
  prog :: concat (map (fun g => fst g :: snd g) groups).

(** Every option of the sequence is a registered one, and none of its
    arguments can be taken for an option. *)
Definition well_formed (groups : list (string * list string)) : Prop :=
  Forall (fun g => is_Some (find_arg (fst g) registered) /\ Forall plain (snd g)) groups.

(** The action of one option on the arguments that follow it. *)
Definition run_group (st : MABE) (g : string * list string) : MABE :=
  match find_arg (fst g) (arg_set st) with
  | Some cur_arg => run (action cur_arg) (snd g) st
  | None => st
  end.

(** The result of loading configuration text, when there is any. *)
Definition loaded (load : list string -> bool * list string) (text : list string)
    : bool * list string :=
  if bool_decide (text <> []) then load text else (false, []).

(** The step of loading configuration text, when there is any. *)
Definition load_step (step : list string -> Step) (text : list string) : list Step :=
  if bool_decide (text <> []) then [step text] else [].

(** The files of the last [--filename] among the options. *)
Definition last_filenames (groups : list (string * list string)) : list string :=
  default [] (last (map snd (filter (fun g => fst g ∈ ["-f"; "--filename"]) groups))).

(** The settings of every [--set] among the options, each followed by a
    semicolon. *)
Definition all_settings (groups : list (string * list string)) : list string :=
  concat (map (fun g => snd g ++ [";"])
              (filter (fun g => fst g ∈ ["-s"; "--set"]) groups)).

(** [if (show_help) ShowHelp();] *)
Definition help_if_asked (st : MABE) : MABE :=
  if show_help st then ShowHelp st else st.

End CommandLine.

(* ===================================================================== *)
(** * MABE.hpp : Update, and the handlers of Module.hpp it calls          *)
(* ===================================================================== *)

Module UpdateLoop.

Import SignalBus.
#[local] Open Scope list_scope.

(** What a run of [Update] lets the outside see: the handlers that ran,
    each with the signal, the module and the update number handed to it,
    and the calls into the configuration script. *)
Inductive Notice : Set :=
| Delivered (sig_id : nat) (m : mod_ptr) (arg : Z)
| StartEvents                      (* config.TriggerEvents("start") *)
| UpdateEvents (update : Z).       (* config.UpdateEventValue("update", update) *)

#[export] Instance Notice_eq_dec : EqDecision Notice.
Proof. solve_decision. Defined.

(** The members of [MABE] and [MABEBase] that [Update] reads or writes. *)
Record MABE : Type := {
  base : MABEBase;                 (* modules, sig_ptrs, rescan_signals *)
  update : Z;                      (* size_t update = 0 *)
  exit_now : bool;
  log : list Notice;
}.

Definition set_base (b : MABEBase) (w : MABE) : MABE :=
  {| base := b; update := update w; exit_now := exit_now w; log := log w |}.
Definition set_update (u : Z) (w : MABE) : MABE :=
  {| base := base w; update := u; exit_now := exit_now w; log := log w |}.
Definition set_exit_now (b : bool) (w : MABE) : MABE :=
  {| base := base w; update := update w; exit_now := b; log := log w |}.
Definition note (n : Notice) (w : MABE) : MABE :=
  {| base := base w; update := update w; exit_now := exit_now w; log := log w ++ [n] |}.

(** ** Module.hpp: the handlers of the base class *)

(** [has_signal[sig_id] = value] in module [m]. *)
Definition set_flag (m : mod_ptr) (sig_id : nat) (value : bool) (ms : list ModuleBase)
    : list ModuleBase :=
  alter (fun md => {| mod_name := mod_name md;
                      has_signal := <[sig_id := value]> (has_signal md) |}) m ms.

(** Modelled from the spec: [MABEBase::RescanSignals] (MABEBase.hpp is
    not among the sources); a rescan "is invoked lazily ... whenever any
    module's capability set changed since the last rescan". *)
Definition RescanSignals (b : MABEBase) : MABEBase :=
  {| modules := modules b; sig_ptrs := sig_ptrs b; rescan_signals := true |}.

(** The handler [Module] gives to every signal, Module.hpp lines 320-441:
    [has_signal[SIG_...] = false; control.RescanSignals();] *)
Definition Module_handler (sig_id : nat) (m : mod_ptr) (b : MABEBase) : MABEBase :=
  RescanSignals {| modules := set_flag m sig_id false (modules b);
                   sig_ptrs := sig_ptrs b; rescan_signals := rescan_signals b |}.

(** [Module::Deactivate], Module.hpp lines 445-448: [has_signal.Clear()]. *)
Definition Deactivate (m : mod_ptr) (b : MABEBase) : MABEBase :=
  RescanSignals
    {| modules := alter (fun md => {| mod_name := mod_name md;
                                      has_signal := (fun _ => false) <$> has_signal md |})
                        m (modules b);
       sig_ptrs := sig_ptrs b; rescan_signals := rescan_signals b |}.

(** [Module::Activate], Module.hpp lines 451-454: [has_signal.SetAll()]. *)
Definition Activate (m : mod_ptr) (b : MABEBase) : MABEBase :=
  RescanSignals
    {| modules := alter (fun md => {| mod_name := mod_name md;
                                      has_signal := (fun _ => true) <$> has_signal md |})
                        m (modules b);
       sig_ptrs := sig_ptrs b; rescan_signals := rescan_signals b |}.

Section Handlers.

(** The ids of the two signals of [Update] in [has_signal] and [sig_ptrs]
    (the enumeration is in ModuleBase.hpp). *)
Variables SIG_BeforeUpdate SIG_OnUpdate : nat.

(** Does the class of module [m] override the handler of [sig_id]?  A
    handler of its own is an observer; otherwise the handler of [Module]
    runs. *)
Variable overridden : mod_ptr -> nat -> bool.

(** Does the configuration script call [EXIT] among its "start" events,
    and among the events due at an update? *)
Variable start_exits : bool.
Variable update_exits : Z -> bool.

(** One listener of a signal is called. *)
Definition call (sig_id : nat) (arg : Z) (w : MABE) (m : mod_ptr) : MABE :=
  let w := note (Delivered sig_id m arg) w in
  if overridden m sig_id then w
  else set_base (Module_handler sig_id m (base w)) w.

(** Modelled from the spec: [sig.Trigger(arg)] of a signal whose
    listeners are the modules of [sig_ptrs[sig_id]] (SigListener is in
    MABEBase.hpp, not among the sources), which "invokes, in
    module-registration order, the handler of every module currently
    subscribed": the listeners are called in the order of the vector,
    which is the one the signal had when the trigger began. *)
Definition Trigger (sig_id : nat) (arg : Z) (w : MABE) : MABE :=
  foldl (call sig_id arg) w (default [] (sig_ptrs (base w) !! sig_id)).

(** The body of the loop of [Update], MABE.hpp lines 775-780. *)
Definition Update_body (w : MABE) : MABE :=
  let w := if rescan_signals (base w) then set_base (UpdateSignals (base w)) w else w in
  let w := Trigger SIG_BeforeUpdate (update w) w in
  let w := set_update ((update w + 1) mod 2 ^ 64) w in
  let w := Trigger SIG_OnUpdate (update w) w in
  let w := note (UpdateEvents (update w)) w in
  set_exit_now (exit_now w || update_exits (update w)) w.

(** [for (size_t ud = 0; ud < num_updates && !exit_now; ud++) ...] *)
Fixpoint Update_loop (num_updates : nat) (w : MABE) : MABE :=
  match num_updates with
  | 0 => w
  | S rest => if exit_now w then w else Update_loop rest (Update_body w)
  end.

(** [MABE::Update], MABE.hpp lines 772-782. *)
Definition Update (num_updates : nat) (w : MABE) : MABE :=
  let w := if (update w =? 0)%Z
           then set_exit_now (exit_now w || start_exits) (note StartEvents w)
           else w in
  Update_loop num_updates w.

(** ** Vocabulary of the statements *)

(** The update numbers with which the handler of signal [sig_id] ran in
    module [m], oldest first. *)
Fixpoint deliveries (sig_id : nat) (m : mod_ptr) (l : list Notice) : list Z :=
  match l with
  | [] => []
  | Delivered s m' arg :: l' =>
      if bool_decide (s = sig_id /\ m' = m) then arg :: deliveries sig_id m l'
      else deliveries sig_id m l'
  | _ :: l' => deliveries sig_id m l'
  end.

(** The calls into the configuration script, oldest first. *)
Fixpoint script_calls (l : list Notice) : list Notice :=
  match l with
  | [] => []
  | Delivered _ _ _ :: l' => script_calls l'
  | n :: l' => n :: script_calls l'
  end.

End Handlers.

(** The listeners of a signal. *)
Definition listeners (w : MABE) (sig_id : nat) : list mod_ptr :=
  default [] (sig_ptrs (base w) !! sig_id).

(** The state with which the handlers of an update are called. *)
Definition rescanned (w : MABE) : MABE :=
  if rescan_signals (base w) then set_base (UpdateSignals (base w)) w else w.

(** The flag of [m] for [s] is off, and the listeners of [s] are either
    due to be rebuilt or already without [m]. *)
Definition quiet (w : MABE) (m s : nat) : Prop :=
  has_signal_at (modules (base w)) m s = false
  /\ (rescan_signals (base w) = true \/ m ∉ listeners w s).

(** The flag of [m] for [s] is on, and the listeners of [s] are either
    due to be rebuilt or hold [m] once. *)
Definition tuned (w : MABE) (m s : nat) : Prop :=
  has_signal_at (modules (base w)) m s = true
  /\ s < length (sig_ptrs (base w))
  /\ (rescan_signals (base w) = true
      \/ (NoDup (listeners w s) /\ m ∈ listeners w s)).

End UpdateLoop.

(* ===================================================================== *)
(** * Small runs, used to exercise the entry points                       *)
(* ===================================================================== *)

Module Scenario.

Import Core.
#[local] Open Scope string_scope.
#[local] Open Scope list_scope.

Definition empty_organism : Organism := {| manager := "EmptyOrg"; var_map := [] |}.
Definition bits_organism : Organism := {| manager := "Bits"; var_map := [1%Z; 0%Z] |}.
Definition ints_organism : Organism := {| manager := "Ints"; var_map := [7%Z] |}.

(** One population, "main", of two slots: slot 0 is empty and slot 1
    holds an organism. *)
Definition small_run : MABE :=
  {| exit_now := false; errors := [];
     pops := [ {| pop_name := "main"; orgs := [0; 1] |} ];
     empty_org := Some 0;
     heap := [Some empty_organism; Some bits_organism];
     random := 0;
     modules := ["EmptyOrg"; "Bits"];
     trace := [] |}.

(** Two populations: "main" holds organisms in slots 0 and 2, "next"
    holds one organism. *)
Definition two_pop_run : MABE :=
  {| exit_now := false; errors := [];
     pops := [ {| pop_name := "main"; orgs := [1; 0; 2] |};
               {| pop_name := "next"; orgs := [3] |} ];
     empty_org := Some 0;
     heap := [Some empty_organism; Some bits_organism; Some ints_organism;
              Some bits_organism];
     random := 0;
     modules := ["EmptyOrg"; "Bits"; "Ints"];
     trace := [] |}.

(** A placement strategy that turns every organism away. *)
Definition place_nowhere : MABE -> nat -> nat -> OrgPosition :=
  fun _ _ _ => no_position.

(** A factory that builds an organism with no variables, and a mutation
    that changes nothing. *)
Definition make_blank : string -> nat -> Organism * nat :=
  fun type_name r => ({| manager := type_name; var_map := [] |}, S r).
Definition mutate_none : Organism -> nat -> Organism * nat :=
  fun o r => (o, S r).



(** The pieces of a string between its commas. *)
Fixpoint split_commas_from (cur s : string) : list string :=
  match s with
  | EmptyString => [cur]
  | String c s' =>
      if Ascii.eqb c ","%char then cur :: split_commas_from "" s'
      else split_commas_from (cur +:+ String c "") s'
  end.
Definition split_commas (s : string) : list string := split_commas_from "" s.

(** A placement strategy that puts every organism into slot 0, and one
    that puts them into slot 1. *)
Definition place_first : MABE -> nat -> nat -> OrgPosition :=
  fun _ pop _ => IteratorAt pop 0.
Definition place_second : MABE -> nat -> nat -> OrgPosition :=
  fun _ pop _ => IteratorAt pop 1.

(** A placement strategy that puts every offspring where its parent is. *)
Definition birth_onto_parent : MABE -> nat -> nat -> OrgPosition -> OrgPosition :=
  fun _ _ _ ppos => ppos.

(** The small run with one more organism made, not yet in a population. *)
Definition pending_run : MABE :=
  set_heap (heap small_run ++ [Some ints_organism]) small_run.

End Scenario.

Module TraitScenario.

Import TraitInfo TraitUsers.
#[local] Open Scope string_scope.
#[local] Open Scope list_scope.

(** The users of a trait: one module owns it, and a second one, entered
    twice, requires and shares it. *)
Definition users : list ModuleInfo :=
  [ {| mod_name := "EvalNK"; mod_ptr := Some 0; access := OWNED |};
    {| mod_name := "Select"; mod_ptr := Some 1; access := REQUIRED |};
    {| mod_name := "Select"; mod_ptr := Some 1; access := SHARED |} ].

End TraitScenario.

Module TraitSetScenario.

Import TraitSet.
#[local] Open Scope string_scope.
#[local] Open Scope list_scope.

(** A layout of three traits: "fitness" is a [T], "genome" a vector of
    [T], and "label" is of another type. *)
Definition has_name (name : string) : bool :=
  bool_decide (name ∈ ["fitness"; "genome"; "label"]).
Definition get_id (name : string) : nat :=
  if String.eqb name "fitness" then 0 else if String.eqb name "genome" then 1 else 2.
Definition is_T (id : nat) : bool := Nat.eqb id 0.
Definition is_vector_T (id : nat) : bool := Nat.eqb id 1.

(** A data map is read through the sizes of its vectors. *)
Definition sizes_of (dmap : nat -> nat) (id : nat) : nat := dmap id.

End TraitSetScenario.

Module CommandLineScenario.

#[local] Open Scope string_scope.
#[local] Open Scope list_scope.

(** Configuration text that loads without a word, and text whose loading
    reports an error. *)
Definition loads_quietly : list string -> bool * list string :=
  fun _ => (false, []).
Definition loads_with_error : list string -> bool * list string :=
  fun _ => (false, ["Unknown setting."]).

End CommandLineScenario.

Module UpdateScenario.

Import SignalBus UpdateLoop.
#[local] Open Scope string_scope.
#[local] Open Scope list_scope.

(** Two signals, BeforeUpdate with id 0 and OnUpdate with id 1, and two
    modules: "EvalNK" listens to both with handlers of its own, "Select"
    is entered for OnUpdate but leaves the handler to [Module]. *)
Definition fresh_world : MABE :=
  {| base := {| modules := [ {| mod_name := "EvalNK"; has_signal := [true; true] |};
                             {| mod_name := "Select"; has_signal := [false; true] |} ];
                sig_ptrs := [[]; []];
                rescan_signals := true |};
     update := 0; exit_now := false; log := [] |}.
Definition overrides : nat -> nat -> bool := fun m _ => Nat.eqb m 0.

(** A script that never calls EXIT, and one that calls it at update 2. *)
Definition never_exits : Z -> bool := fun _ => false.
Definition exits_at_2 : Z -> bool := fun u => (u =? 2)%Z.

End UpdateScenario.

(* ===================================================================== *)
(** * Facts: trait access modes                                           *)
(* ===================================================================== *)

Section TraitInfoFacts.
Import TraitInfo.
#[local] Open Scope string_scope.
#[local] Open Scope list_scope.

Lemma Access_values_distinct (a b : Access) :
  Access_value a = Access_value b -> a = b.
Proof. by destruct a, b. Qed.

End TraitInfoFacts.

(* ===================================================================== *)
(** * Facts: the trait claims a module submits                            *)
(* ===================================================================== *)

Section ModuleTraitsFacts.
Import ModuleTraits.
#[local] Open Scope string_scope.
#[local] Open Scope list_scope.

Context (T : Type) (T_default : T).


End ModuleTraitsFacts.

(* ===================================================================== *)
(** * Facts: the modules that use a trait                              *)
(* ===================================================================== *)

Section TraitUsersFacts.
Import TraitInfo TraitUsers.
#[local] Open Scope string_scope.
#[local] Open Scope list_scope.

Lemma to_int_small (n : nat) :
  (Z.of_nat n < 2 ^ 31)%Z -> to_int (Z.of_nat n) = Z.of_nat n.
Proof.
  intros H. unfold to_int.
  rewrite Z.mod_small by lia. lia.
Qed.

Lemma GetInfoID_loop_small (test : ModuleInfo -> bool) (v : list ModuleInfo) :
  (Z.of_nat (length v) < 2 ^ 31)%Z ->
  GetInfoID_loop test v = GetInfoID_from test v 0.
Proof.
  intros H. unfold GetInfoID_loop. rewrite to_int_small by done.
  by rewrite Nat2Z.id, firstn_all.
Qed.

Lemma GetInfoID_from_none (test : ModuleInfo -> bool) (v : list ModuleInfo) : forall i,
  (forall info, info ∈ v -> test info = false) ->
  GetInfoID_from test v i = (-1)%Z.
Proof.
  induction v as [|x v IH]; intros i H; [done|]. cbn.
  rewrite (H x) by left. apply IH. intros info Hin. apply H. by right.
Qed.

Lemma GetInfoID_from_first (test : ModuleInfo -> bool) (pre : list ModuleInfo)
    (info : ModuleInfo) (post : list ModuleInfo) : forall i,
  (forall x, x ∈ pre -> test x = false) -> test info = true ->
  GetInfoID_from test (pre ++ info :: post) i = (i + Z.of_nat (length pre))%Z.
Proof.
  induction pre as [|x pre IH]; intros i Hpre Hinfo; cbn.
  - rewrite Hinfo. lia.
  - rewrite (Hpre x) by left. rewrite IH; [lia| |done].
    intros y Hy. apply Hpre. by right.
Qed.

Lemma split_first (test : ModuleInfo -> bool) (v : list ModuleInfo) :
  (forall info, info ∈ v -> test info = false) \/
  exists pre info post,
    v = pre ++ info :: post /\ (forall x, x ∈ pre -> test x = false) /\ test info = true.
Proof.
  induction v as [|x v IH].
  - left. intros info H. by apply elem_of_nil in H.
  - destruct (test x) eqn:Hx.
    + right. exists [], x, v. split; [done|]. split; [|done].
      intros y H. by apply elem_of_nil in H.
    + destruct IH as [IH|(pre & info & post & -> & Hpre & Hinfo)].
      * left. intros info [->|H]%elem_of_cons; [done|by apply IH].
      * right. exists (x :: pre), info, post. split; [done|]. split; [|done].
        intros y [->|H]%elem_of_cons; [done|by apply Hpre].
Qed.

(** X1.  For a trait with fewer than 2^31 users, [GetInfoID] by module
    name returns -1 exactly when no entry has the name; otherwise it
    returns the index of the first entry with the name: the index lies
    within [access_info], the entry there has the name, and no entry
    before it has. *)
Theorem GetInfoID_finds_the_first_entry (access_info : list ModuleInfo) (name : string) :
  (Z.of_nat (length access_info) < 2 ^ 31)%Z ->
  let id := GetInfoID_name access_info name in
  (id = (-1)%Z <-> forall info, info ∈ access_info -> mod_name info <> name) /\
  (id <> (-1)%Z ->
     (0 <= id < Z.of_nat (length access_info))%Z /\
     (exists info, access_info !! Z.to_nat id = Some info /\ mod_name info = name) /\
     (forall j info, j < Z.to_nat id -> access_info !! j = Some info ->
                     mod_name info <> name)).
Proof.
  intros Hlen. cbn zeta. unfold GetInfoID_name.
  rewrite GetInfoID_loop_small by done.
  set (test := fun info => String.eqb (mod_name info) name).
  assert (Htest : forall info, test info = false <-> mod_name info <> name).
  { intros info. unfold test. by rewrite String.eqb_neq. }
  destruct (split_first test access_info)
    as [Hnone|(pre & info & post & -> & Hpre & Hinfo)].
  - rewrite GetInfoID_from_none by done. split; [|done].
    split; [|done]. intros _ info Hin. apply Htest. by apply Hnone.
  - rewrite GetInfoID_from_first by done. rewrite Z.add_0_l.
    split.
    + split; [lia|]. intros H. exfalso.
      assert (test info = false) as Hf by (apply Htest, H, elem_of_app; right; left).
      congruence.
    + intros _. rewrite Nat2Z.id. split; [rewrite length_app; cbn; lia|]. split.
      * exists info. split; [by rewrite list_lookup_middle|].
        unfold test in Hinfo. by apply String.eqb_eq.
      * intros j x Hj Hx. apply Htest, Hpre.
        rewrite lookup_app_l in Hx by done. by eapply list_elem_of_lookup_2.
Qed.

(** X2.  For a trait with fewer than 2^31 users, [GetAccess] of a module
    that has no entry is [UNKNOWN], and [HasAccess] is false; of a module
    that has entries, [GetAccess] is the access of the first of them,
    whatever the later ones say, and [HasAccess] tells whether that access
    is other than [UNKNOWN]. *)
Theorem GetAccess_reads_the_first_entry_of_the_module (access_info : list ModuleInfo)
    (m : option nat) :
  (Z.of_nat (length access_info) < 2 ^ 31)%Z ->
  ((forall info, info ∈ access_info -> mod_ptr info <> m) ->
     GetAccess access_info m = UNKNOWN /\ HasAccess access_info m = false) /\
  (forall pre info post,
     access_info = pre ++ info :: post ->
     (forall x, x ∈ pre -> mod_ptr x <> m) -> mod_ptr info = m ->
     GetAccess access_info m = access info /\
     HasAccess access_info m = bool_decide (access info <> UNKNOWN)).
Proof.
  intros Hlen. unfold HasAccess, GetAccess, GetInfoID.
  rewrite GetInfoID_loop_small by done.
  set (test := fun info => bool_decide (mod_ptr info = m)).
  split.
  - intros Hnone. rewrite GetInfoID_from_none; [done|].
    intros info Hin. apply bool_decide_eq_false_2. by apply Hnone.
  - intros pre info post -> Hpre Hinfo.
    rewrite GetInfoID_from_first.
    + rewrite Z.add_0_l.
      destruct (Z.eqb_spec (Z.of_nat (length pre)) (-1)) as [E|_]; [lia|].
      by rewrite Nat2Z.id, list_lookup_middle.
    + intros x Hx. apply bool_decide_eq_false_2. by apply Hpre.
    + by apply bool_decide_eq_true_2.
Qed.

Lemma foldl_snoc_filter_map {A B} (keep : A -> bool) (f : A -> B) (l : list A) :
  forall acc,
  foldl (fun out x => if keep x then out ++ [f x] else out) acc l
  = acc ++ map f (List.filter keep l).
Proof.
  induction l as [|x l IH]; intros acc; cbn; [by rewrite app_nil_r|].
  rewrite IH. destruct (keep x); [|done]. cbn. by rewrite <- app_assoc.
Qed.

Lemma GetModuleNames_with_spec (v : list ModuleInfo) (a : Access) :
  GetModuleNames_with v a
  = map mod_name (List.filter (fun info => bool_decide (access info = a)) v).
Proof. unfold GetModuleNames_with. by rewrite foldl_snoc_filter_map. Qed.

Lemma GetModuleNames_spec (v : list ModuleInfo) :
  GetModuleNames v = map mod_name v.
Proof.
  unfold GetModuleNames.
  rewrite (foldl_snoc_filter_map (fun _ => true) mod_name v []).
  cbn. f_equal. induction v as [|x v IH]; cbn; [done|by rewrite IH].
Qed.

(** X3.  When no entry has the count [NUM_ACCESS] for its access, the
    names listed for the five access modes are together the names that
    [GetModuleNames] lists, each as many times, and [GetModuleNames]
    lists as many names as [GetModuleCount] counts. *)
Theorem GetModuleNames_by_access_partition (access_info : list ModuleInfo) :
  (forall info, info ∈ access_info -> access info <> NUM_ACCESS) ->
  GetModuleNames access_info ≡ₚ
    GetUnknownNames access_info ++ GetPrivateNames access_info ++
    GetOwnedNames access_info ++ GetSharedNames access_info ++
    GetRequiredNames access_info
  /\ length (GetModuleNames access_info) = GetModuleCount access_info.
Proof.
  intros Hnum. split.
  2:{ by rewrite GetModuleNames_spec, length_map. }
  unfold GetUnknownNames, GetPrivateNames, GetOwnedNames, GetSharedNames,
    GetRequiredNames.
  rewrite GetModuleNames_spec, !GetModuleNames_with_spec.
  induction access_info as [|x v IH]; [done|].
  assert (Hv : forall info, info ∈ v -> access info <> NUM_ACCESS)
    by (intros info H; apply Hnum; by right).
  specialize (IH Hv). cbn [map List.filter].
  assert (Hx : access x <> NUM_ACCESS) by (apply Hnum; left).
  etrans; [apply perm_skip, IH|]. clear IH.
  set (U := map mod_name (List.filter (fun info => bool_decide (access info = UNKNOWN)) v)).
  set (P := map mod_name (List.filter (fun info => bool_decide (access info = PRIVATE)) v)).
  set (O := map mod_name (List.filter (fun info => bool_decide (access info = OWNED)) v)).
  set (S := map mod_name (List.filter (fun info => bool_decide (access info = SHARED)) v)).
  set (R := map mod_name (List.filter (fun info => bool_decide (access info = REQUIRED)) v)).
  destruct (access x); try done;
    repeat match goal with
           | |- context [bool_decide (?a = ?b)] =>
               let r := eval vm_compute in (bool_decide (a = b)) in
               change (bool_decide (a = b)) with r
           end;
    cbn [map app]; fold U P O S R.
  - apply Permutation_middle.
  - rewrite !(app_assoc U P). apply Permutation_middle.
  - rewrite !(app_assoc U P), !(app_assoc (U ++ P) O). apply Permutation_middle.
  - rewrite !(app_assoc U P), !(app_assoc (U ++ P) O), !(app_assoc ((U ++ P) ++ O) S).
    apply Permutation_middle.
Qed.

End TraitUsersFacts.

Section TraitUsersRuns.
Import TraitInfo TraitUsers TraitScenario.
#[local] Open Scope string_scope.
#[local] Open Scope list_scope.

(** X1 at work: "Select" is found at its first entry, and a module that
    is not among the users is not found. *)
Lemma GetInfoID_witness :
  (exists info, users !! Z.to_nat (GetInfoID_name users "Select") = Some info
                /\ mod_name info = "Select")
  /\ (GetInfoID_name users "Absent" = (-1)%Z
      <-> forall info, info ∈ users -> mod_name info <> "Absent").
Proof.
  destruct (GetInfoID_finds_the_first_entry users "Select" eq_refl) as [_ Hfound].
  destruct (GetInfoID_finds_the_first_entry users "Absent" eq_refl) as [Hnone _].
  split; [|exact Hnone].
  destruct Hfound as (_ & Hinfo & _); [discriminate|exact Hinfo].
Defined.

(** X2 at work: the access of "Select" is that of its first entry. *)
Lemma GetAccess_witness :
  GetAccess users (Some 1) = REQUIRED /\ HasAccess users (Some 1) = true
  /\ GetAccess users None = UNKNOWN.
Proof.
  destruct (GetAccess_reads_the_first_entry_of_the_module users (Some 1) eq_refl)
    as [_ Hfirst].
  destruct (GetAccess_reads_the_first_entry_of_the_module users None eq_refl)
    as [Hnone _].
  destruct (Hfirst [ {| mod_name := "EvalNK"; mod_ptr := Some 0; access := OWNED |} ]
              {| mod_name := "Select"; mod_ptr := Some 1; access := REQUIRED |}
              [ {| mod_name := "Select"; mod_ptr := Some 1; access := SHARED |} ])
    as [Ha Hh]; [reflexivity| |reflexivity|].
  { intros x Hx. apply list_elem_of_singleton in Hx as ->. discriminate. }
  split; [exact Ha|]. split; [exact Hh|].
  apply Hnone. intros info Hin. unfold users in Hin.
  repeat (apply elem_of_cons in Hin as [->|Hin]; [discriminate|]).
  by apply elem_of_nil in Hin.
Defined.

(** X3 at work: the three users, listed by access. *)
Lemma GetModuleNames_witness :
  GetModuleNames users ≡ₚ
    GetUnknownNames users ++ GetPrivateNames users ++ GetOwnedNames users
      ++ GetSharedNames users ++ GetRequiredNames users
  /\ length (GetModuleNames users) = GetModuleCount users.
Proof.
  apply GetModuleNames_by_access_partition.
  intros info Hin. unfold users in Hin.
  repeat (apply elem_of_cons in Hin as [->|Hin]; [discriminate|]).
  by apply elem_of_nil in Hin.
Defined.

End TraitUsersRuns.

(* ===================================================================== *)
(** * Facts: sets of traits                                            *)
(* ===================================================================== *)

Section TraitSetFacts.
Import TraitSet.
#[local] Open Scope string_scope.
#[local] Open Scope list_scope.

Context (slice : string -> list string) (HasName : string -> bool)
        (GetID : string -> nat) (IsType_T IsType_vector_T : nat -> bool).

Context (DataMap : Type) (vector_size : DataMap -> nat -> nat).

#[local] Abbreviation accepted := (accepted HasName GetID IsType_T IsType_vector_T).
#[local] Abbreviation AddTraits_loop :=
  (AddTraits_loop HasName GetID IsType_T IsType_vector_T).
#[local] Abbreviation AddTraits :=
  (AddTraits slice HasName GetID IsType_T IsType_vector_T).
#[local] Abbreviation AddTraits_all :=
  (AddTraits_all slice HasName GetID IsType_T IsType_vector_T).
#[local] Abbreviation SetTraits :=
  (SetTraits slice HasName GetID IsType_T IsType_vector_T).
#[local] Abbreviation to_base := (to_base GetID IsType_T).
#[local] Abbreviation to_vector := (to_vector GetID IsType_T).
#[local] Abbreviation with_names := (with_names GetID IsType_T).
#[local] Abbreviation aligned := (aligned GetID).
#[local] Abbreviation CountValues := (CountValues DataMap vector_size).
#[local] Abbreviation after_all :=
  (after_all slice HasName GetID IsType_T IsType_vector_T DataMap vector_size).
#[local] Abbreviation after :=
  (after slice HasName GetID IsType_T IsType_vector_T DataMap vector_size).

Lemma AddTraits_loop_accepted (good : list string) : forall tail ts,
  Forall (fun name => accepted name = true) good ->
  AddTraits_loop (good ++ tail) ts = AddTraits_loop tail (with_names good ts).
Proof.
  induction good as [|name good IH]; intros tail ts Hgood.
  - unfold TraitSet.with_names, TraitSet.to_base, TraitSet.to_vector. cbn. rewrite !app_nil_r. by destruct ts.
  - pose proof (Forall_inv Hgood) as Hname. apply Forall_inv_tail in Hgood.
    unfold TraitSet.accepted in Hname.
    apply andb_true_iff in Hname as [Hhas Htype].
    cbn [app TraitSet.AddTraits_loop]. rewrite Hhas. cbn [negb].
    destruct (IsType_T (GetID name)) eqn:HT.
    + rewrite IH by done. f_equal. unfold TraitSet.with_names, TraitSet.to_base, TraitSet.to_vector.
      cbn [List.filter base_names vector_names base_IDs vector_IDs vec_sizes
           num_values error_trait]. rewrite HT. cbn [negb map].
      by rewrite <- !app_assoc.
    + cbn [orb] in Htype. rewrite Htype.
      rewrite IH by done. f_equal. unfold TraitSet.with_names, TraitSet.to_base, TraitSet.to_vector.
      cbn [List.filter base_names vector_names base_IDs vector_IDs vec_sizes
           num_values error_trait]. rewrite HT. cbn [negb map].
      by rewrite <- !app_assoc.
Qed.

Lemma AddTraits_loop_rejected (bad : string) (rest : list string) (ts : TraitSet) :
  accepted bad = false ->
  AddTraits_loop (bad :: rest) ts
  = (false, {| base_names := base_names ts; vector_names := vector_names ts;
               base_IDs := base_IDs ts; vector_IDs := vector_IDs ts;
               vec_sizes := vec_sizes ts; num_values := num_values ts;
               error_trait := bad |}).
Proof.
  unfold TraitSet.accepted. intros Hbad. cbn [TraitSet.AddTraits_loop].
  destruct (HasName bad); [|done]. cbn [negb andb] in *.
  apply orb_false_iff in Hbad as [-> ->]. done.
Qed.

Lemma to_base_to_vector_length (names : list string) :
  length (to_base names) + length (to_vector names) = length names.
Proof.
  unfold TraitSet.to_base, TraitSet.to_vector. induction names as [|x names IH]; [done|].
  cbn. destruct (IsType_T (GetID x)); cbn; lia.
Qed.

(** X4.  When the layout does not have a name of the list, or has it
    with a type that is neither [T] nor a vector of [T], [AddTraits]
    returns false with [error_trait] set to the first such name; the
    names before it stay added, to the base traits and to the vector
    traits in their order, no name after it is looked at, and the count
    of values is left at 0. *)
Theorem AddTraits_keeps_the_names_before_a_rejected_one (in_names : string)
    (ts : TraitSet) (good : list string) (bad : string) (rest : list string) :
  slice in_names = good ++ bad :: rest ->
  Forall (fun name => accepted name = true) good ->
  accepted bad = false ->
  let r := AddTraits in_names ts in
  fst r = false /\ error_trait (snd r) = bad /\
  base_names (snd r) = base_names ts ++ to_base good /\
  vector_names (snd r) = vector_names ts ++ to_vector good /\
  GetNumTraits (snd r) = GetNumTraits ts + length good /\
  GetNumValues (snd r) = 0.
Proof.
  intros Hslice Hgood Hbad. cbn zeta. unfold TraitSet.AddTraits. rewrite Hslice.
  rewrite AddTraits_loop_accepted by done. rewrite AddTraits_loop_rejected by done.
  cbn. unfold GetNumTraits. cbn. rewrite !length_app, !length_map.
  pose proof (to_base_to_vector_length good). repeat split; lia.
Qed.

(** X5.  [AddTraits] returns true exactly when the layout has every name
    of the list with type [T] or vector of [T]; the set then has as many
    more traits as the list has names, and [error_trait] is as it was. *)
Theorem AddTraits_succeeds_exactly_on_accepted_names (in_names : string) (ts : TraitSet) :
  let r := AddTraits in_names ts in
  (fst r = true <-> Forall (fun name => accepted name = true) (slice in_names)) /\
  (fst r = true ->
     GetNumTraits (snd r) = GetNumTraits ts + length (slice in_names) /\
     error_trait (snd r) = error_trait ts).
Proof.
  cbn zeta. unfold TraitSet.AddTraits.
  set (ts0 := {| base_names := base_names ts; num_values := 0 |}).
  assert (Hcases : Forall (fun name => accepted name = true) (slice in_names) \/
                   exists good bad rest, slice in_names = good ++ bad :: rest /\
                     Forall (fun name => accepted name = true) good /\
                     accepted bad = false).
  { induction (slice in_names) as [|x l IH]; [by left|].
    destruct (accepted x) eqn:Hx.
    - destruct IH as [IH|(good & bad & rest & -> & Hgood & Hbad)].
      + left. by constructor.
      + right. exists (x :: good), bad, rest. split; [done|]. split; [by constructor|done].
    - right. exists [], x, l. split; [done|]. split; [constructor|done]. }
  destruct Hcases as [Hall|(good & bad & rest & Hslice & Hgood & Hbad)].
  - pose proof (AddTraits_loop_accepted (slice in_names) [] ts0 Hall) as H.
    rewrite app_nil_r in H. rewrite H. cbn [TraitSet.AddTraits_loop fst snd].
    split; [by split|]. intros _. unfold GetNumTraits. cbn.
    rewrite !length_app, !length_map.
    pose proof (to_base_to_vector_length (slice in_names)). split; [lia|done].
  - rewrite Hslice. rewrite AddTraits_loop_accepted by done.
    rewrite AddTraits_loop_rejected by done. cbn [fst snd]. split; [|done].
    split; [done|]. intros Hall. apply Forall_app in Hall as [_ Hall].
    apply Forall_inv in Hall. congruence.
Qed.

Lemma AddTraits_loop_aligned (names : list string) : forall ts,
  aligned ts -> aligned (snd (AddTraits_loop names ts)).
Proof.
  induction names as [|name names IH]; intros ts (Hb & Hv & Hs); [done|].
  cbn [TraitSet.AddTraits_loop].
  destruct (HasName name); cbn [negb]; [|done].
  destruct (IsType_T (GetID name)).
  { apply IH. unfold TraitSet.aligned. cbn. by rewrite map_app, Hb. }
  destruct (IsType_vector_T (GetID name)); [|done].
  apply IH. unfold TraitSet.aligned. cbn. by rewrite map_app, Hv.
Qed.

Lemma AddTraits_aligned (in_names : string) (ts : TraitSet) :
  aligned ts -> aligned (snd (AddTraits in_names ts)).
Proof. intros (Hb & Hv & Hs). by apply AddTraits_loop_aligned. Qed.

Lemma AddTraits_all_aligned (more : list string) : forall in_names ts,
  aligned ts -> aligned (snd (AddTraits_all in_names more ts)).
Proof.
  induction more as [|next more IH]; intros in_names ts Hts.
  - by apply AddTraits_aligned.
  - cbn [TraitSet.AddTraits_all].
    pose proof (AddTraits_aligned in_names ts Hts) as H.
    destruct (AddTraits in_names ts) as [[] ts']; [by apply IH|done].
Qed.

Lemma CountValues_without_sizes (dmap : DataMap) (ts : TraitSet) :
  vec_sizes ts = [] ->
  CountValues dmap ts =
    match vector_IDs ts with
    | [] => Some (length (base_IDs ts),
                  {| base_names := base_names ts; vector_names := vector_names ts;
                     base_IDs := base_IDs ts; vector_IDs := vector_IDs ts;
                     vec_sizes := vec_sizes ts; num_values := length (base_IDs ts);
                     error_trait := error_trait ts |})
    | _ :: _ => None
    end.
Proof.
  intros Hs. unfold TraitSet.CountValues. cbn [vector_IDs].
  destruct (vector_IDs ts) as [|id ids]; [done|].
  cbn [TraitSet.CountValues_loop vec_sizes]. by rewrite Hs.
Qed.

Lemma after_aligned (c : Call DataMap) (ts ts' : TraitSet) :
  aligned ts -> after c ts = Some ts' -> aligned ts'.
Proof.
  intros Hts. destruct c as [|n m|n m|dmap]; cbn [TraitSet.after].
  - intros [= <-]. done.
  - intros [= <-]. by apply AddTraits_all_aligned.
  - intros [= <-]. by apply AddTraits_all_aligned.
  - destruct Hts as (Hb & Hv & Hs). rewrite CountValues_without_sizes by done.
    destruct (vector_IDs ts) eqn:E; [|done]. cbn. intros [= <-].
    unfold TraitSet.aligned. by cbn.
Qed.

Lemma after_all_aligned (cs : list (Call DataMap)) : forall ts ts',
  aligned ts -> after_all cs ts = Some ts' -> aligned ts'.
Proof.
  induction cs as [|c cs IH]; intros ts ts' Hts; cbn [TraitSet.after_all].
  - by intros [= <-].
  - destruct (after c ts) as [ts1|] eqn:E; [|done].
    apply IH. by eapply after_aligned.
Qed.

(** X6.  After any sequence of calls of [Clear], [AddTraits], [SetTraits]
    and [CountValues] on a new set, also of calls that failed, the ids of
    the base traits and of the vector traits are the layout's ids of the
    names, in the order of the names, and the set has as many traits as
    names. *)
Theorem TraitSet_ids_follow_the_names (cs : list (Call DataMap)) (ts : TraitSet) :
  after_all cs TraitSet_new = Some ts ->
  base_IDs ts = map GetID (base_names ts) /\
  vector_IDs ts = map GetID (vector_names ts) /\
  GetNumTraits ts = length (base_names ts) + length (vector_names ts).
Proof.
  intros H. destruct (after_all_aligned cs TraitSet_new ts) as (Hb & Hv & _); [done|done|].
  unfold GetNumTraits. by rewrite Hb, Hv, !length_map.
Qed.

(** X7.  In a set reached by such calls, [CountValues] returns the number
    of base traits when the set has no vector trait; as soon as it has
    one, [CountValues] writes outside [vec_sizes], which no function
    of the class makes longer. *)
Theorem CountValues_writes_outside_vec_sizes (cs : list (Call DataMap))
    (ts : TraitSet) (dmap : DataMap) :
  after_all cs TraitSet_new = Some ts ->
  (GetNumVectorTraits ts = 0 ->
     exists ts', CountValues dmap ts = Some (GetNumBaseTraits ts, ts') /\
                 GetNumValues ts' = GetNumBaseTraits ts) /\
  (0 < GetNumVectorTraits ts -> CountValues dmap ts = None).
Proof.
  intros H. destruct (after_all_aligned cs TraitSet_new ts) as (_ & _ & Hs); [done|done|].
  rewrite CountValues_without_sizes by done. unfold GetNumVectorTraits.
  destruct (vector_IDs ts); cbn [length].
  - split; [|lia]. intros _. by eexists.
  - split; [lia|done].
Qed.

End TraitSetFacts.

Section TraitSetRuns.
Import TraitSet Scenario TraitSetScenario.
#[local] Open Scope string_scope.
#[local] Open Scope list_scope.

(** X4 at work: of "fitness,label,genome" the set keeps "fitness" and
    stops at "label". *)
Lemma AddTraits_witness :
  let r := AddTraits split_commas has_name get_id is_T is_vector_T
             "fitness,label,genome" TraitSet_new in
  fst r = false /\ error_trait (snd r) = "label"
  /\ base_names (snd r) = ["fitness"] /\ vector_names (snd r) = [].
Proof.
  destruct (AddTraits_keeps_the_names_before_a_rejected_one
              split_commas has_name get_id is_T is_vector_T
              "fitness,label,genome" TraitSet_new ["fitness"] "label" ["genome"])
    as (H1 & H2 & H3 & H4 & _).
  - reflexivity.
  - by repeat constructor.
  - reflexivity.
  - cbn zeta. by rewrite H1, H2, H3, H4.
Defined.

(** X6 at work: after setting, adding and clearing, the ids are those of
    the names. *)
Lemma TraitSet_ids_witness :
  exists ts,
    after_all split_commas has_name get_id is_T is_vector_T (nat -> nat) sizes_of
      [call_SetTraits _ "fitness" ["genome"]; call_AddTraits _ "label,fitness" []]
      TraitSet_new = Some ts
    /\ base_IDs ts = map get_id (base_names ts)
    /\ vector_IDs ts = map get_id (vector_names ts)
    /\ GetNumTraits ts = 2.
Proof.
  eexists. split; [reflexivity|].
  destruct (TraitSet_ids_follow_the_names
              split_commas has_name get_id is_T is_vector_T (nat -> nat) sizes_of
              [call_SetTraits _ "fitness" ["genome"]; call_AddTraits _ "label,fitness" []]
              _ eq_refl) as (H1 & H2 & H3).
  split; [exact H1|]. split; [exact H2|]. rewrite H3. reflexivity.
Defined.

(** X7 at work: with the vector trait "genome" in the set, counting
    writes outside [vec_sizes]; with "fitness" alone it counts 1. *)
Lemma CountValues_witness :
  (exists ts,
     after_all split_commas has_name get_id is_T is_vector_T (nat -> nat) sizes_of
       [call_AddTraits _ "fitness,genome" []] TraitSet_new = Some ts
     /\ CountValues (nat -> nat) sizes_of (fun _ => 3) ts = None)
  /\ (exists ts ts',
        after_all split_commas has_name get_id is_T is_vector_T (nat -> nat) sizes_of
          [call_AddTraits _ "fitness" []] TraitSet_new = Some ts
        /\ CountValues (nat -> nat) sizes_of (fun _ => 3) ts = Some (1, ts')).
Proof.
  split.
  - eexists. split; [reflexivity|].
    apply (CountValues_writes_outside_vec_sizes
             split_commas has_name get_id is_T is_vector_T (nat -> nat) sizes_of
             [call_AddTraits _ "fitness,genome" []] _ (fun _ => 3) eq_refl).
    vm_compute. lia.
  - destruct (CountValues_writes_outside_vec_sizes
                split_commas has_name get_id is_T is_vector_T (nat -> nat) sizes_of
                [call_AddTraits _ "fitness" []] _ (fun _ => 3) eq_refl)
      as [H _].
    destruct H as (ts' & H & _); [reflexivity|].
    eexists _, ts'. split; [reflexivity|exact H].
Defined.

End TraitSetRuns.

(* ===================================================================== *)
(** * Facts: the signal rescan                                            *)
(* ===================================================================== *)

Section SignalBusFacts.
Import SignalBus.

(** Three modules and three channels; the lists left over from before are
    dropped, and each channel ends with its subscribers in order. *)
Example UpdateSignals_three_modules :
  UpdateSignals
    {| modules := [ {| mod_name := "eval"; has_signal := [true; false; true] |};
                    {| mod_name := "select"; has_signal := [false; true; true] |};
                    {| mod_name := "log"; has_signal := [true; false; false] |} ];
       sig_ptrs := [[2; 2]; []; [0]];
       rescan_signals := true |}
  = {| modules := [ {| mod_name := "eval"; has_signal := [true; false; true] |};
                    {| mod_name := "select"; has_signal := [false; true; true] |};
                    {| mod_name := "log"; has_signal := [true; false; false] |} ];
       sig_ptrs := [[0; 2]; [1]; [0; 1]];
       rescan_signals := false |}.
Proof. reflexivity. Qed.

Lemma foldl_alter_seq {A} (g : nat -> A -> A) (k : nat) : forall (l : list A) (a : nat),
  foldl (fun acc i => alter (g i) i acc) l (seq a k)
  = imap (fun j x => if bool_decide (a <= j < a + k) then g j x else x) l.
Proof.
  induction k as [|k IH]; intros l a; simpl.
  - apply list_eq. intros j. rewrite list_lookup_imap.
    destruct (l !! j); simpl; [|done]. rewrite bool_decide_eq_false_2; [done|lia].
  - rewrite IH. apply list_eq. intros j.
    rewrite !list_lookup_imap.
    destruct (decide (a = j)) as [->|Hne].
    + rewrite list_lookup_alter_eq. destruct (l !! j); simpl; [|done].
      rewrite bool_decide_eq_false_2 by lia. rewrite bool_decide_eq_true_2 by lia. done.
    + rewrite list_lookup_alter_ne by done. destruct (l !! j); simpl; [|done].
      f_equal. apply (f_equal (fun b : bool => if b then g j a0 else a0)).
      apply bool_decide_ext. lia.
Qed.

Lemma foldl_ext_in {A B} (f g : A -> B -> A) (l : list B) : forall a,
  (forall x y, f x y = g x y) -> foldl f a l = foldl g a l.
Proof. induction l as [|y l IH]; intros a H; simpl; [done|]. rewrite H. by apply IH. Qed.

Lemma clear_listeners_spec (sp : list (list mod_ptr)) :
  clear_listeners sp = replicate (length sp) [].
Proof.
  unfold clear_listeners.
  rewrite (foldl_ext_in _ (fun acc i => alter ((fun _ _ => []) i) i acc)).
  2:{ intros x y. apply list_eq. intros j.
      destruct (decide (y = j)) as [->|Hne].
      - destruct (decide (j < length x)).
        + rewrite list_lookup_insert_eq by done. rewrite list_lookup_alter_eq.
          destruct (lookup_lt_is_Some_2 x j) as [v ->]; done.
        + rewrite list_insert_ge by lia. rewrite list_lookup_alter_eq.
          rewrite lookup_ge_None_2 by lia. done.
      - rewrite list_lookup_insert_ne by done. by rewrite list_lookup_alter_ne. }
  rewrite foldl_alter_seq. apply list_eq. intros j.
  rewrite list_lookup_imap.
  destruct (decide (j < length sp)) as [Hlt|Hge].
  - destruct (lookup_lt_is_Some_2 sp j Hlt) as [v ->]. simpl.
    rewrite bool_decide_eq_true_2 by lia. symmetry. by apply lookup_replicate_2.
  - rewrite lookup_ge_None_2 by lia. simpl. symmetry.
    apply lookup_ge_None_2. rewrite length_replicate. lia.
Qed.

Lemma scan_module_spec (ms : list ModuleBase) (sp : list (list mod_ptr)) (m : mod_ptr) :
  scan_module ms sp m
  = imap (fun s v => if has_signal_at ms m s then v ++ [m] else v) sp.
Proof.
  unfold scan_module.
  rewrite (foldl_ext_in _ (fun acc i =>
             alter ((fun s v => if has_signal_at ms m s then v ++ [m] else v) i) i acc)).
  2:{ intros x y. unfold push_back_listener. destruct (has_signal_at ms m y); [done|].
      symmetry. apply list_alter_id. done. }
  rewrite foldl_alter_seq. apply imap_ext. intros j v Hj. simpl.
  rewrite bool_decide_eq_true_2; [done|]. apply lookup_lt_Some in Hj. lia.
Qed.

Lemma scan_module_length ms sp m : length (scan_module ms sp m) = length sp.
Proof. rewrite scan_module_spec. apply length_imap. Qed.

Lemma scan_modules_lookup (ms : list ModuleBase) (k : nat) :
  forall (n s : nat), s < n ->
  foldl (scan_module ms) (replicate n []) (seq 0 k) !! s
  = Some (filter (fun m => has_signal_at ms m s = true) (seq 0 k)).
Proof.
  induction k as [|k IH]; intros n s Hs.
  - simpl. by apply lookup_replicate_2.
  - rewrite seq_S, foldl_app. simpl. rewrite scan_module_spec, list_lookup_imap.
    rewrite (IH n s Hs). simpl. rewrite filter_app. f_equal.
    rewrite filter_cons, filter_nil.
    destruct (has_signal_at ms k s) eqn:E.
    + rewrite decide_True by done. done.
    + rewrite decide_False by (by intros ?). by rewrite app_nil_r.
Qed.

Lemma scan_modules_length ms k : forall sp,
  length (foldl (scan_module ms) sp (seq 0 k)) = length sp.
Proof.
  induction k as [|k IH]; intros sp; [done|].
  rewrite seq_S, foldl_app. simpl. rewrite scan_module_length. apply IH.
Qed.

Lemma UpdateSignals_sig_ptrs (st : MABEBase) :
  sig_ptrs (UpdateSignals st)
  = map (subscribers (modules st)) (seq 0 (length (sig_ptrs st))).
Proof.
  unfold UpdateSignals; simpl. rewrite clear_listeners_spec.
  apply list_eq. intros s. rewrite list_lookup_fmap.
  destruct (decide (s < length (sig_ptrs st))) as [Hlt|Hge].
  - rewrite scan_modules_lookup by done. rewrite lookup_seq_lt by done. done.
  - rewrite lookup_ge_None_2.
    2:{ rewrite scan_modules_length, length_replicate. lia. }
    rewrite lookup_seq_ge by lia. done.
Qed.

(** C7.  [UpdateSignals] rebuilds every channel's subscriber list from
    the modules' capability flags alone: after it, channel [sig_id] lists
    exactly the modules whose flag for [sig_id] is set, in registration
    order; two controllers with the same modules and as many channels end
    with the same lists, whatever their lists were before; and a second
    rescan changes nothing. *)
Theorem UpdateSignals_rebuilds_idempotent (st : MABEBase) :
  (forall sig_id, sig_id < length (sig_ptrs st) ->
     sig_ptrs (UpdateSignals st) !! sig_id = Some (subscribers (modules st) sig_id))
  /\ (forall sig_id m, m ∈ subscribers (modules st) sig_id
        <-> m < length (modules st) /\ has_signal_at (modules st) m sig_id = true)
  /\ (forall sig_id, subscribers (modules st) sig_id `sublist_of` seq 0 (length (modules st)))
  /\ (forall st2, modules st2 = modules st ->
        length (sig_ptrs st2) = length (sig_ptrs st) ->
        sig_ptrs (UpdateSignals st2) = sig_ptrs (UpdateSignals st))
  /\ UpdateSignals (UpdateSignals st) = UpdateSignals st.
Proof.
  split; [|split; [|split; [|split]]].
  - intros s Hs. rewrite UpdateSignals_sig_ptrs, list_lookup_fmap.
    by rewrite lookup_seq_lt.
  - intros s m. unfold subscribers. rewrite list_elem_of_filter, elem_of_seq.
    split; intros [? ?]; split; [lia|done|done|lia].
  - intros s. unfold subscribers.
    apply sublist_filter.
  - intros st2 Hm Hl. rewrite !UpdateSignals_sig_ptrs. by rewrite Hm, Hl.
  - assert (H := UpdateSignals_sig_ptrs (UpdateSignals st)).
    assert (H0 := UpdateSignals_sig_ptrs st).
    destruct (UpdateSignals (UpdateSignals st)) as [m1 s1 r1] eqn:E1.
    destruct (UpdateSignals st) as [m2 s2 r2] eqn:E2.
    unfold UpdateSignals in E1, E2. simpl in *.
    injection E1 as <- _ <-. injection E2 as <- _ <-.
    simpl in *. f_equal. rewrite H, H0. by rewrite length_map, length_seq.
Qed.
End SignalBusFacts.

(* ===================================================================== *)
(** * Facts: Preprocess                                                   *)
(* ===================================================================== *)

Section PreprocessFacts.
Import Prep.
Variable Execute : list ascii -> list ascii.

(** An evaluator that answers with its question in brackets. *)
Example Preprocess_substitutes :
  Preprocess (fun x => chars "[" ++ x ++ chars "]")
    (chars "mean of ${fitness} is ${f{1}}.")
  = Some (chars "mean of [fitness] is [f{1}].")
  /\ Preprocess (fun x => chars "[" ++ x ++ chars "]") (chars "x = ${a{b}c}!")
     = Some (chars "x = [a{b}c]!")
  /\ Preprocess (fun x => chars "[" ++ x ++ chars "]") (chars "cost: $5 or $$5")
     = Some (chars "cost: $5 or $5").
Proof. repeat split; reflexivity. Qed.

(** After a substitution the loop goes on one character past the end of
    the replacement ([i += replacement_text.size()], then [++i]): a
    dollar that follows a substitution at once is not read as one. *)
Example Preprocess_after_a_substitution :
  Preprocess (fun x => chars "[" ++ x ++ chars "]") (chars "${a}${b}")
  = Some (chars "[a]${b}")
  /\ Preprocess (fun x => chars "[" ++ x ++ chars "]") (chars "${a}$$b")
     = Some (chars "[a]$$b")
  /\ Preprocess (fun x => chars "[" ++ x ++ chars "]") (chars "${a} ${b}")
     = Some (chars "[a] [b]").
Proof. repeat split; reflexivity. Qed.

Lemma erase_length s pos len :
  length (erase s pos len) = length s `min` pos + (length s - (pos + len)).
Proof. unfold erase. rewrite length_app, length_take, length_drop. lia. Qed.

Lemma replace_length s pos len text :
  length (replace s pos len text)
  = length s `min` pos + (length text + (length s - (pos + len))).
Proof. unfold replace. rewrite !length_app, length_take, length_drop. lia. Qed.

(** The loop always ends: a pass that does not leave it shortens what is
    left to read. *)
Lemma Preprocess_loop_total (fuel : nat) : forall out_string i,
  length out_string - i < fuel ->
  is_Some (Preprocess_loop Execute fuel out_string i).
Proof.
  induction fuel as [|fuel IH]; intros out i Hf; [lia|]. simpl.
  destruct (i <? length out) eqn:Hi; simpl; [|done].
  apply Nat.ltb_lt in Hi.
  destruct (Ascii.eqb (char_at out i) dollar); simpl; [|apply IH; lia].
  destruct (length out <=? i + 2); [done|].
  destruct (Ascii.eqb (char_at out (i + 1)) dollar).
  { apply IH. rewrite erase_length. lia. }
  destruct (Ascii.eqb (char_at out (i + 1)) lbrace); simpl; [|apply IH; lia].
  destruct (find_paren_match out (i + 1) lbrace rbrace =? i + 1); [done|].
  apply IH. rewrite replace_length. lia.
Qed.

Lemma Preprocess_total (in_string : list ascii) :
  is_Some (Preprocess Execute in_string).
Proof. apply Preprocess_loop_total. lia. Qed.

Lemma char_at_elem (s : list ascii) (i : nat) :
  i < length s -> char_at s i ∈ s.
Proof.
  intros Hi. unfold char_at. destruct (lookup_lt_is_Some_2 s i Hi) as [c Hc].
  rewrite Hc. simpl. by eapply list_elem_of_lookup_2.
Qed.

Lemma char_at_app_r (s t : list ascii) (i j : nat) :
  i = length s + j -> char_at (s ++ t) i = char_at t j.
Proof.
  intros ->. unfold char_at. rewrite lookup_app_r by lia.
  by replace (length s + j - length s) with j by lia.
Qed.

(** Reading on from [i] through characters that are not dollars changes
    nothing. *)
Lemma Preprocess_loop_no_dollar (fuel : nat) : forall out_string i,
  length out_string - i < fuel ->
  (forall j, i <= j < length out_string -> char_at out_string j <> dollar) ->
  Preprocess_loop Execute fuel out_string i = Some out_string.
Proof.
  induction fuel as [|fuel IH]; intros out i Hf Hnd; [lia|]. simpl.
  destruct (i <? length out) eqn:Hi; simpl; [|done].
  apply Nat.ltb_lt in Hi.
  destruct (Ascii.eqb_spec (char_at out i) dollar) as [E|_]; simpl.
  - exfalso. apply (Hnd i); [lia|done].
  - apply IH; [lia|]. intros j Hj. apply Hnd. lia.
Qed.

(** Skipping a prefix without dollars. *)
Lemma Preprocess_loop_skip (pre : list ascii) : forall fuel rest i,
  dollar ∉ pre ->
  i <= length pre ->
  Preprocess_loop Execute (length pre - i + fuel) (pre ++ rest) i
  = Preprocess_loop Execute fuel (pre ++ rest) (length pre).
Proof.
  intros fuel rest i Hnd. remember (length pre - i) as k eqn:Hk.
  revert i Hk. induction k as [|k IH]; intros i Hk Hi.
  - assert (i = length pre) as -> by lia. done.
  - simpl. rewrite length_app.
    destruct (i <? length pre + length rest) eqn:Hlt; simpl.
    2:{ apply Nat.ltb_ge in Hlt. lia. }
    destruct (Ascii.eqb_spec (char_at (pre ++ rest) i) dollar) as [E|_]; simpl.
    + exfalso. apply Hnd. rewrite <- E. unfold char_at.
      rewrite lookup_app_l by lia. apply char_at_elem. lia.
    + apply IH; lia.
Qed.

Lemma Preprocess_no_dollar (s : list ascii) :
  dollar ∉ s -> Preprocess Execute s = Some s.
Proof.
  intros Hnd. apply Preprocess_loop_no_dollar; [lia|].
  intros j Hj E. apply Hnd. rewrite <- E. apply char_at_elem. lia.
Qed.


Lemma scan_match_no_close (open close : ascii) (rest : list ascii) :
  forall pos depth, close ∉ rest -> scan_match open close rest pos depth = None.
Proof.
  induction rest as [|c rest IH]; intros pos depth Hnc; simpl; [done|].
  apply not_elem_of_cons in Hnc as [Hc Hrest].
  destruct (Ascii.eqb c open); [by apply IH|].
  destruct (Ascii.eqb_spec c close) as [E|_]; [by subst|]. by apply IH.
Qed.

(** A pair of dollars that ends the string is left as it is. *)
Lemma Preprocess_trailing_pair (pre : list ascii) :
  dollar ∉ pre ->
  Preprocess Execute (pre ++ [dollar; dollar]) = Some (pre ++ [dollar; dollar]).
Proof.
  intros Hnd. unfold Preprocess.
  replace (S (length (pre ++ [dollar; dollar]))) with (length pre - 0 + 3)
    by (rewrite length_app; simpl; lia).
  rewrite Preprocess_loop_skip by (done || lia).
  cbn [Preprocess_loop]. rewrite length_app. simpl length.
  rewrite (proj2 (Nat.ltb_lt _ _)) by lia. cbn [negb].
  rewrite (char_at_app_r pre _ _ 0) by lia.
  change (Ascii.eqb (char_at [dollar; dollar] 0) dollar) with true. cbn [negb].
  rewrite (proj2 (Nat.leb_le _ _)) by lia. done.
Qed.

(** A pair of dollars with at least one character after it becomes one
    dollar, and what follows is read as plain text. *)
Lemma Preprocess_inner_pair (pre : list ascii) (c : ascii) (rest : list ascii) :
  dollar ∉ pre -> dollar ∉ c :: rest ->
  Preprocess Execute (pre ++ [dollar; dollar] ++ c :: rest)
  = Some (pre ++ [dollar] ++ c :: rest).
Proof.
  intros Hnd Hnd'. unfold Preprocess.
  replace (S (length (pre ++ [dollar; dollar] ++ c :: rest)))
    with (length pre - 0 + S (3 + length rest))
    by (rewrite length_app; simpl; lia).
  rewrite Preprocess_loop_skip by (done || lia).
  cbn [Preprocess_loop]. rewrite length_app. simpl length.
  rewrite (proj2 (Nat.ltb_lt _ _)) by lia. cbn [negb].
  rewrite (char_at_app_r pre _ _ 0) by lia.
  change (Ascii.eqb (char_at ([dollar; dollar] ++ c :: rest) 0) dollar) with true.
  cbn [negb].
  rewrite (proj2 (Nat.leb_gt _ _)) by lia.
  rewrite (char_at_app_r pre _ _ 1) by lia.
  change (Ascii.eqb (char_at ([dollar; dollar] ++ c :: rest) 1) dollar) with true.
  cbv iota.
  assert (erase (pre ++ [dollar; dollar] ++ c :: rest) (length pre) 1
          = pre ++ [dollar] ++ c :: rest) as ->.
  { unfold erase. rewrite take_app_length. f_equal.
    rewrite drop_app_ge by lia.
    by replace (length pre + 1 - length pre) with 1 by lia. }
  apply Preprocess_loop_no_dollar.
  - rewrite length_app. simpl. lia.
  - intros j Hj E. rewrite length_app in Hj. simpl in Hj.
    apply Hnd'. rewrite <- E.
    rewrite (char_at_app_r pre _ _ (S (j - length pre - 1))) by lia.
    apply (char_at_elem (c :: rest)). simpl. lia.
Qed.

(** A [${] whose brace is never closed: the string comes back as it is. *)
Lemma Preprocess_unmatched_brace (pre rest : list ascii) :
  dollar ∉ pre -> rbrace ∉ rest ->
  Preprocess Execute (pre ++ [dollar; lbrace] ++ rest)
  = Some (pre ++ [dollar; lbrace] ++ rest).
Proof.
  intros Hnd Hnc. unfold Preprocess.
  replace (S (length (pre ++ [dollar; lbrace] ++ rest)))
    with (length pre - 0 + S (2 + length rest))
    by (rewrite length_app; simpl; lia).
  rewrite Preprocess_loop_skip by (done || lia).
  cbn [Preprocess_loop]. rewrite length_app. simpl length.
  rewrite (proj2 (Nat.ltb_lt _ _)) by lia. cbn [negb].
  rewrite (char_at_app_r pre _ _ 0) by lia.
  change (Ascii.eqb (char_at ([dollar; lbrace] ++ rest) 0) dollar) with true.
  cbn [negb].
  destruct (length pre + S (S (length rest)) <=? length pre + 2); [done|].
  rewrite (char_at_app_r pre _ _ 1) by lia.
  change (Ascii.eqb (char_at ([dollar; lbrace] ++ rest) 1) dollar) with false.
  change (Ascii.eqb (char_at ([dollar; lbrace] ++ rest) 1) lbrace) with true.
  cbn [negb]. cbv iota zeta.
  assert (find_paren_match (pre ++ [dollar; lbrace] ++ rest) (length pre + 1)
            lbrace rbrace = length pre + 1) as ->.
  { unfold find_paren_match.
    destruct (negb _); [done|].
    rewrite drop_app_ge by lia.
    replace (S (length pre + 1) - length pre) with 2 by lia. simpl.
    by rewrite scan_match_no_close. }
  by rewrite Nat.eqb_refl.
Qed.

End PreprocessFacts.

(** C10.  A pair of dollars that ends the string is not collapsed:
    [Preprocess] leaves the loop at its first dollar, because fewer than
    three characters remain ([out_string.size() <= i+2]), before the test
    for a second dollar is reached.  So "$$" and "price: 5$$" come back
    unchanged, while "$$5", where a character follows the pair, becomes
    "$5".  ([Preprocess_no_dollar], [Preprocess_inner_pair] and
    [Preprocess_unmatched_brace] above are the parts of the claim that
    hold.) *)
Theorem Preprocess_keeps_trailing_double_dollar :
  forall Execute : list ascii -> list ascii,
    Prep.Preprocess Execute (Prep.chars "$$") = Some (Prep.chars "$$")
    /\ Prep.Preprocess Execute (Prep.chars "price: 5$$") = Some (Prep.chars "price: 5$$")
    /\ Prep.Preprocess Execute (Prep.chars "$$5") = Some (Prep.chars "$5").
Proof. intros Execute. repeat split; reflexivity. Qed.

(* ===================================================================== *)
(** * Facts: populations and organisms                                    *)
(* ===================================================================== *)

Import Core.
#[local] Open Scope mabe_scope.

Lemma IsValid_OrgPtr (st : MABE) (p : OrgPosition) :
  IsValid st p = true <-> is_Some (OrgPtr st p).
Proof.
  unfold IsValid, OrgPtr. destruct (pop_ptr p) as [id|]; [|by split; [|intros [? ?]]].
  destruct (pops st !! id) as [P|]; [|by split; [|intros [? ?]]].
  rewrite bool_decide_eq_true. symmetry. apply lookup_lt_is_Some.
Qed.

Lemma OrgPtr_set_slot (st st' : MABE) (p p' : OrgPosition) (q : ptr) :
  pops st' = set_slot p q (pops st) ->
  OrgPtr st' p' = if decide (p = p') then (fun _ => q) <$> OrgPtr st p else OrgPtr st p'.
Proof.
  intros Hp. unfold OrgPtr. rewrite Hp. unfold set_slot.
  destruct p as [[id|] i], p' as [[id'|] i']; simpl.
  - destruct (decide (id = id')) as [->|Hne].
    + rewrite list_lookup_alter_eq.
      destruct (pops st !! id') as [P|] eqn:HP; simpl.
      * destruct (decide (i = i')) as [->|Hne].
        { rewrite decide_True by done.
          destruct (decide (i' < length (orgs P))).
          - rewrite list_lookup_insert_eq by done.
            destruct (lookup_lt_is_Some_2 (orgs P) i') as [x ->]; done.
          - rewrite list_insert_ge by lia. rewrite lookup_ge_None_2 by lia. done. }
        { rewrite decide_False by congruence.
          by rewrite list_lookup_insert_ne. }
      * by destruct (decide _).
    + rewrite list_lookup_alter_ne by done.
      rewrite decide_False by congruence. done.
  - first [done | by destruct (decide _)].
  - first [done | by destruct (decide _)].
  - first [done | by destruct (decide _)].
Qed.

Lemma IsValid_set_slot (st st' : MABE) (p p' : OrgPosition) (q : ptr) :
  pops st' = set_slot p q (pops st) ->
  IsValid st' p' = IsValid st p'.
Proof.
  intros Hp. apply eq_true_iff_eq. rewrite !IsValid_OrgPtr.
  rewrite (OrgPtr_set_slot st st' p p' q Hp).
  destruct (decide (p = p')) as [->|]; [|done].
  split; intros [x Hx].
  - destruct (OrgPtr st p'); [eauto|done].
  - rewrite Hx. eauto.
Qed.

Lemma AddOrgAt_run (st : MABE) (o : ptr) (pos ppos : OrgPosition) (old : ptr) :
  OrgPtr st pos = Some old ->
  AddOrgAt o pos ppos st
  = Done tt
      {| exit_now := exit_now st; errors := errors st;
         pops := set_slot pos o (pops st);
         empty_org := empty_org st;
         heap := if is_sentinel st old then heap st else <[old := None]> (heap st);
         random := random st; modules := modules st;
         trace := trace st ++ [BeforePlacement o pos ppos]
                    ++ (if is_sentinel st old then [] else [Released old])
                    ++ [OnPlacement pos] |}.
Proof.
  intros Hold.
  assert (Hv : forall h t, IsValid {| exit_now := exit_now st; errors := errors st;
         pops := pops st; empty_org := empty_org st; heap := h;
         random := random st; modules := modules st; trace := t |} pos = true).
  { intros h t. apply IsValid_OrgPtr. unfold OrgPtr. simpl. fold (OrgPtr st pos).
    rewrite Hold. eauto. }
  unfold AddOrgAt, bind, Trigger, modify, SlotAt, gets, SetOrg, Delete, ret,
    set_trace, set_heap, set_pops, OrgPtr, is_sentinel in *.
  simpl. rewrite Hold. simpl.
  destruct (bool_decide (empty_org st = Some old)); simpl; rewrite Hv; simpl.
  - by rewrite <- !app_assoc.
  - by rewrite <- !app_assoc.
Qed.


(** *** Running a computation step by step *)

Lemma lookup_snoc_new {A} (l : list A) (x : A) : (l ++ [x]) !! length l = Some x.
Proof. rewrite lookup_app_r by lia. by rewrite Nat.sub_diag. Qed.

Lemma bind_Done {A B} (m : M A) (f : A -> M B) (st st' : MABE) (a : A) :
  m st = Done a st' -> bind m f st = f a st'.
Proof. intros H. unfold bind. by rewrite H. Qed.

Lemma bind_Crash {A B} (m : M A) (f : A -> M B) (st st' : MABE) (e : Fault) :
  m st = Crash e st' -> bind m f st = Crash e st'.
Proof. intros H. unfold bind. by rewrite H. Qed.

Lemma bind_gets {A B} (g : MABE -> A) (f : A -> M B) (st : MABE) :
  bind (gets g) f st = f (g st) st.
Proof. reflexivity. Qed.

Lemma bind_modify {B} (g : MABE -> MABE) (f : unit -> M B) (st : MABE) :
  bind (modify g) f st = f tt (g st).
Proof. reflexivity. Qed.

Lemma bind_ret {A B} (a : A) (f : A -> M B) (st : MABE) :
  bind (ret a) f st = f a st.
Proof. reflexivity. Qed.

Lemma bind_Trigger {B} (ev : Event) (f : unit -> M B) (st : MABE) :
  bind (Trigger ev) f st = f tt (set_trace (trace st ++ [ev]) st).
Proof. reflexivity. Qed.

Lemma bind_Delete {B} (p : nat) (f : unit -> M B) (st : MABE) :
  bind (Delete p) f st
  = f tt (set_trace (trace st ++ [Released p]) (set_heap (<[p := None]> (heap st)) st)).
Proof. reflexivity. Qed.

Lemma bind_AddError {B} (msg : string) (f : unit -> M B) (st : MABE) :
  bind (AddError msg) f st = f tt (set_errors (errors st ++ [msg]) st).
Proof. reflexivity. Qed.

Ltac norm_state :=
  unfold set_errors, set_pops, set_heap, set_random, set_trace;
  cbn [exit_now errors pops empty_org heap random modules trace].

(** *** Clearing, swapping, moving *)

Lemma IsOccupied_inv (st : MABE) (p : OrgPosition) :
  IsOccupied st p = true ->
  exists q, OrgPtr st p = Some q /\ is_sentinel st q = false.
Proof.
  unfold IsOccupied. destruct (OrgPtr st p) as [q|]; [|done].
  intros H. exists q. split; [done|]. by destruct (is_sentinel st q).
Qed.

Lemma is_sentinel_spec (st : MABE) (q e : nat) :
  empty_org st = Some e -> is_sentinel st q = bool_decide (q = e).
Proof.
  intros He. unfold is_sentinel. rewrite He. apply bool_decide_ext.
  split; congruence.
Qed.

Lemma ClearOrgAt_empty (st : MABE) (p : OrgPosition) :
  IsOccupied st p = false -> ClearOrgAt p st = Done tt st.
Proof. intros H. unfold ClearOrgAt. rewrite bind_gets, H. done. Qed.

Lemma SlotAt_run (st : MABE) (p : OrgPosition) (q : nat) :
  OrgPtr st p = Some q -> SlotAt p st = Done q st.
Proof. intros H. unfold SlotAt. by rewrite H. Qed.

Lemma SetOrg_run (st : MABE) (p : OrgPosition) (q : nat) :
  IsValid st p = true ->
  SetOrg p q st = Done tt (set_pops (set_slot p q (pops st)) st).
Proof. intros H. unfold SetOrg. by rewrite H. Qed.

Lemma GetEmpty_run (st : MABE) (e : nat) :
  empty_org st = Some e -> GetEmpty st = Done e st.
Proof. intros H. unfold GetEmpty. by rewrite H. Qed.

Ltac mrun H := rewrite (bind_Done _ _ _ _ _ H).

Ltac pick_state name :=
  match goal with
  | |- exists st', Done ?a ?s = Done _ st' /\ _ =>
      set (name := s); exists name; split; [reflexivity|]
  end.

Lemma ClearOrgAt_occupied (st : MABE) (p : OrgPosition) (q e : nat) :
  OrgPtr st p = Some q -> q <> e -> empty_org st = Some e ->
  ClearOrgAt p st
  = Done tt
      {| exit_now := exit_now st; errors := errors st;
         pops := set_slot p e (pops st);
         empty_org := empty_org st;
         heap := <[q := None]> (heap st);
         random := random st; modules := modules st;
         trace := trace st ++ [BeforeDeath p (Some q); Released q] |}.
Proof.
  intros Hq Hne He. unfold ClearOrgAt. rewrite bind_gets.
  unfold IsOccupied. rewrite Hq, (is_sentinel_spec st q e He).
  rewrite bool_decide_eq_false_2 by done. cbn [negb].
  rewrite bind_gets, Hq, bind_Trigger.
  assert (Hv : IsValid st p = true) by (apply IsValid_OrgPtr; rewrite Hq; eauto).
  set (st1 := set_trace _ st).
  mrun (SlotAt_run st1 p q Hq).
  mrun (GetEmpty_run st1 e He).
  mrun (SetOrg_run st1 p e Hv).
  unfold Delete, modify, st1. norm_state. by rewrite <- app_assoc.
Qed.

Lemma SwapOrgs_run (st : MABE) (p1 p2 : OrgPosition) (o1 o2 : nat) :
  OrgPtr st p1 = Some o1 -> OrgPtr st p2 = Some o2 ->
  SwapOrgs p1 p2 st
  = Done tt
      {| exit_now := exit_now st; errors := errors st;
         pops := set_slot p2 o1 (set_slot p1 o2 (pops st));
         empty_org := empty_org st; heap := heap st;
         random := random st; modules := modules st;
         trace := trace st ++ [BeforeSwap p1 p2; OnSwap p1 p2] |}.
Proof.
  intros H1 H2. unfold SwapOrgs. rewrite bind_Trigger.
  assert (V1 : IsValid st p1 = true) by (apply IsValid_OrgPtr; rewrite H1; eauto).
  assert (V2 : IsValid st p2 = true) by (apply IsValid_OrgPtr; rewrite H2; eauto).
  set (st1 := set_trace _ st).
  mrun (SlotAt_run st1 p1 o1 H1).
  mrun (SlotAt_run st1 p2 o2 H2).
  mrun (SetOrg_run st1 p1 o2 V1).
  set (st2 := set_pops _ st1).
  assert (V2' : IsValid st2 p2 = true).
  { rewrite (IsValid_set_slot st st2 p1 p2 o2); done. }
  mrun (SetOrg_run st2 p2 o1 V2').
  unfold Trigger, modify, st2, st1. norm_state. by rewrite <- app_assoc.
Qed.

Lemma OrgPtr_after_swap (st st' : MABE) (p1 p2 : OrgPosition) (o1 o2 : nat) :
  OrgPtr st p1 = Some o1 -> OrgPtr st p2 = Some o2 ->
  pops st' = set_slot p2 o1 (set_slot p1 o2 (pops st)) ->
  OrgPtr st' p1 = Some o2 /\ OrgPtr st' p2 = Some o1.
Proof.
  intros H1 H2 Hp.
  pose (mid := set_pops (set_slot p1 o2 (pops st)) st).
  assert (Hmid : forall p, OrgPtr mid p
            = if decide (p1 = p) then (fun _ => o2) <$> OrgPtr st p1 else OrgPtr st p).
  { intros p. by apply OrgPtr_set_slot. }
  assert (Hst' : forall p, OrgPtr st' p
            = if decide (p2 = p) then (fun _ => o1) <$> OrgPtr mid p2 else OrgPtr mid p).
  { intros p. by apply OrgPtr_set_slot. }
  rewrite !Hst', !Hmid, H1, H2. simpl.
  rewrite (decide_True (P := p2 = p2)) by done.
  rewrite (decide_True (P := p1 = p1)) by done.
  destruct (decide (p1 = p2)) as [->|Hne].
  - rewrite decide_True by done. simpl. split; congruence.
  - rewrite decide_False by congruence. done.
Qed.

(** C3.  For valid positions, [MoveOrg from_pos to_pos] is [ClearOrgAt
    to_pos] followed by [SwapOrgs from_pos to_pos], and it ends normally.
    An organism that occupied [to_pos] is destroyed: BeforeDeath fires for
    it while it is still the occupant of [to_pos], then it is released,
    and only then the swap signals fire.  Afterwards [from_pos] holds the
    shared sentinel itself (no organism was created), and when the two
    positions differ [to_pos] holds what [from_pos] held. *)
Theorem MoveOrg_clears_target_then_swaps (st : MABE) (from_pos to_pos : OrgPosition)
    (e : nat) :
  empty_org st = Some e ->
  IsValid st from_pos = true ->
  IsValid st to_pos = true ->
  MoveOrg from_pos to_pos st
    = bind (ClearOrgAt to_pos) (fun _ => SwapOrgs from_pos to_pos) st
  /\ exists st',
       MoveOrg from_pos to_pos st = Done tt st'
       /\ OrgPtr st' from_pos = Some e
       /\ empty_org st' = Some e
       /\ length (heap st') = length (heap st)
       /\ (from_pos <> to_pos -> OrgPtr st' to_pos = OrgPtr st from_pos)
       /\ (forall q, OrgPtr st to_pos = Some q -> q <> e ->
             trace st' = trace st ++ [BeforeDeath to_pos (Some q); Released q;
                                      BeforeSwap from_pos to_pos;
                                      OnSwap from_pos to_pos]
             /\ ~ Live st' q)
       /\ (OrgPtr st to_pos = Some e ->
             trace st' = trace st ++ [BeforeSwap from_pos to_pos;
                                      OnSwap from_pos to_pos]
             /\ heap st' = heap st).
Proof.
  intros He Hf Ht. split; [reflexivity|].
  apply IsValid_OrgPtr in Hf as [qf Hqf]. apply IsValid_OrgPtr in Ht as [qt Hqt].
  unfold MoveOrg.
  destruct (decide (qt = e)) as [->|Hne].
  - (* the target is empty: nothing dies *)
    assert (Hocc : IsOccupied st to_pos = false).
    { unfold IsOccupied. rewrite Hqt, (is_sentinel_spec st e e He).
      by rewrite bool_decide_eq_true_2. }
    mrun (ClearOrgAt_empty st to_pos Hocc).
    rewrite (SwapOrgs_run st from_pos to_pos qf e Hqf Hqt).
    pick_state st'.
    destruct (OrgPtr_after_swap st st' from_pos to_pos qf e Hqf Hqt eq_refl) as [S1 S2].
    split; [exact S1|]. split; [exact He|]. split; [reflexivity|].
    split; [intros _; by rewrite S2|].
    split; [intros q Hq Hqe; congruence|]. done.
  - (* the target holds an organism: it dies first *)
    mrun (ClearOrgAt_occupied st to_pos qt e Hqt Hne He).
    set (st1 := {| exit_now := exit_now st; errors := errors st;
                   pops := set_slot to_pos e (pops st);
                   empty_org := empty_org st;
                   heap := <[qt := None]> (heap st);
                   random := random st; modules := modules st;
                   trace := trace st ++ [BeforeDeath to_pos (Some qt); Released qt] |}).
    assert (H1 : forall p, OrgPtr st1 p
              = if decide (to_pos = p) then (fun _ => e) <$> OrgPtr st to_pos
                else OrgPtr st p).
    { intros p. by apply OrgPtr_set_slot. }
    assert (Hqt1 : OrgPtr st1 to_pos = Some e).
    { rewrite H1, decide_True, Hqt; done. }
    assert (Hqf1 : exists qf1, OrgPtr st1 from_pos = Some qf1
                     /\ (from_pos <> to_pos -> qf1 = qf)).
    { rewrite H1. destruct (decide (to_pos = from_pos)) as [->|Hd].
      - rewrite Hqt. simpl. eexists. split; [done|]. by intros [].
      - rewrite Hqf. eauto. }
    destruct Hqf1 as (qf1 & Hqf1 & Hsame).
    rewrite (SwapOrgs_run st1 from_pos to_pos qf1 e Hqf1 Hqt1).
    pick_state st'.
    destruct (OrgPtr_after_swap st1 st' from_pos to_pos qf1 e Hqf1 Hqt1 eq_refl)
      as [S1 S2].
    split; [exact S1|]. split; [exact He|].
    split; [unfold st', st1; norm_state; apply length_insert|].
    split; [intros Hd; rewrite S2, Hqf; f_equal; auto|].
    split.
    + intros q Hq Hqe. assert (q = qt) as -> by congruence.
      split; [unfold st', st1; norm_state; by rewrite <- app_assoc|].
      intros [o Ho]. unfold st', st1 in Ho. cbn [heap] in Ho.
      destruct (decide (qt < length (heap st))).
      * rewrite list_lookup_insert_eq in Ho by done. done.
      * rewrite list_insert_ge in Ho by lia.
        rewrite lookup_ge_None_2 in Ho by lia. done.
    + intros Hq. congruence.
Qed.

(** *** Clearing a population *)

Lemma list_insert_alter' {A} (f : A -> A) (l : list A) (i : nat) (x : A) :
  <[i := x]> (alter f i l) = <[i := x]> l.
Proof.
  apply list_eq. intros j. destruct (decide (i = j)) as [->|Hne].
  - destruct (decide (j < length l)).
    + rewrite !list_lookup_insert_eq; [done|done|by rewrite length_alter].
    + rewrite !list_insert_ge; [|lia|rewrite length_alter; lia].
      rewrite list_lookup_alter_eq. by rewrite lookup_ge_None_2 by lia.
  - rewrite !list_lookup_insert_ne by done. by rewrite list_lookup_alter_ne.
Qed.

Lemma ClearPop_loop (e pop : nat) :
  forall (rest : list nat) (i : nat) (st : MABE) (P : Population),
  pops st !! pop = Some P -> empty_org st = Some e ->
  drop i (orgs P) = rest ->
  for_loop (length rest) i (fun i _ => ClearOrgAt (IteratorAt pop i)) tt st
  = Done tt
      {| exit_now := exit_now st; errors := errors st;
         pops := <[pop := {| pop_name := pop_name P;
                             orgs := take i (orgs P) ++ replicate (length rest) e |}]>
                   (pops st);
         empty_org := empty_org st;
         heap := release_all e rest (heap st);
         random := random st; modules := modules st;
         trace := trace st ++ clear_events e pop i rest |}.
Proof.
  induction rest as [|q rest IH]; intros i st P HP He Hdrop.
  - simpl. unfold ret. rewrite !app_nil_r.
    rewrite take_ge.
    2:{ apply (f_equal length) in Hdrop. rewrite length_drop in Hdrop.
        simpl in Hdrop. lia. }
    assert ({| pop_name := pop_name P; orgs := orgs P |} = P) as -> by by destruct P.
    rewrite list_insert_id by done. by destruct st.
  - assert (Hq : orgs P !! i = Some q).
    { pose proof (lookup_drop (orgs P) i 0) as H.
      rewrite Hdrop, Nat.add_0_r in H. by simpl in H. }
    assert (Hrest : drop (S i) (orgs P) = rest).
    { replace (S i) with (i + 1) by lia. by rewrite <- drop_drop, Hdrop. }
    assert (Hptr : OrgPtr st (IteratorAt pop i) = Some q).
    { unfold OrgPtr. simpl. by rewrite HP. }
    cbn [for_loop length].
    destruct (decide (q = e)) as [->|Hne].
    + assert (Hocc : IsOccupied st (IteratorAt pop i) = false).
      { unfold IsOccupied. rewrite Hptr, (is_sentinel_spec st e e He).
        by rewrite bool_decide_eq_true_2. }
      mrun (ClearOrgAt_empty st _ Hocc).
      rewrite (IH (S i) st P HP He Hrest).
      cbn [clear_events replicate]. rewrite decide_True by done.
      unfold release_all. cbn [foldl]. rewrite decide_True by done.
      rewrite (take_S_r _ _ _ Hq), <- app_assoc. done.
    + mrun (ClearOrgAt_occupied st _ q e Hptr Hne He).
      match goal with |- for_loop _ _ _ _ ?s = _ => set (st1 := s) end.
      pose (P1 := {| pop_name := pop_name P; orgs := <[i := e]> (orgs P) |}).
      assert (HP1 : pops st1 !! pop = Some P1).
      { unfold st1. cbn [pops]. unfold set_slot. simpl.
        rewrite list_lookup_alter_eq, HP. done. }
      assert (Hrest1 : drop (S i) (orgs P1) = rest).
      { unfold P1. simpl orgs. rewrite drop_insert_lt by lia. done. }
      rewrite (IH (S i) st1 P1 HP1 He Hrest1).
      unfold st1, P1. norm_state. simpl pop_name. simpl orgs.
      cbn [clear_events replicate]. rewrite decide_False by done.
      unfold release_all. cbn [foldl]. rewrite decide_False by done.
      unfold set_slot. simpl. rewrite list_insert_alter'.
      assert (take (S i) (<[i := e]> (orgs P)) = take i (orgs P) ++ [e]) as ->.
      { erewrite take_S_r.
        2:{ apply list_lookup_insert_eq. by eapply lookup_lt_Some. }
        by rewrite take_insert_ge by lia. }
      rewrite <- !app_assoc. done.
Qed.

Lemma ClearPop_run (e pop : nat) (st : MABE) (P : Population) :
  pops st !! pop = Some P -> empty_org st = Some e ->
  ClearPop pop st
  = Done tt
      {| exit_now := exit_now st; errors := errors st;
         pops := <[pop := cleared e P]> (pops st);
         empty_org := empty_org st;
         heap := release_all e (orgs P) (heap st);
         random := random st; modules := modules st;
         trace := trace st ++ clear_events e pop 0 (orgs P) |}.
Proof.
  intros HP He. unfold ClearPop, GetSize, GetPop.
  unfold bind at 1. unfold bind at 1. rewrite HP. unfold ret at 1.
  apply (ClearPop_loop e pop (orgs P) 0 st P HP He). apply drop_0.
Qed.

(** *** Teardown *)

Lemma teardown_loop (e : nat) :
  forall (rest : list Population) (i : nat) (st : MABE),
  drop i (pops st) = rest -> empty_org st = Some e ->
  for_loop (length rest) i
    (fun i _ => bind (ClearPop i) (fun _ => Trigger (PopulationDeleted i))) tt st
  = Done tt
      {| exit_now := exit_now st; errors := errors st;
         pops := take i (pops st) ++ map (cleared e) rest;
         empty_org := empty_org st;
         heap := release_pops e rest (heap st);
         random := random st; modules := modules st;
         trace := trace st ++ teardown_events e i rest |}.
Proof.
  induction rest as [|P rest IH]; intros i st Hdrop He.
  - simpl. unfold ret. rewrite !app_nil_r. rewrite take_ge.
    2:{ apply (f_equal length) in Hdrop. rewrite length_drop in Hdrop.
        simpl in Hdrop. lia. }
    by destruct st.
  - assert (HP : pops st !! i = Some P).
    { pose proof (lookup_drop (pops st) i 0) as H.
      rewrite Hdrop, Nat.add_0_r in H. by simpl in H. }
    assert (Hrest : drop (S i) (pops st) = rest).
    { replace (S i) with (i + 1) by lia. by rewrite <- drop_drop, Hdrop. }
    cbn [for_loop length].
    assert (Hbody : bind (ClearPop i) (fun _ => Trigger (PopulationDeleted i)) st
              = Done tt
                  {| exit_now := exit_now st; errors := errors st;
                     pops := <[i := cleared e P]> (pops st);
                     empty_org := empty_org st;
                     heap := release_all e (orgs P) (heap st);
                     random := random st; modules := modules st;
                     trace := (trace st ++ clear_events e i 0 (orgs P))
                                ++ [PopulationDeleted i] |}).
    { mrun (ClearPop_run e i st P HP He). reflexivity. }
    mrun Hbody.
    match goal with |- for_loop _ _ _ _ ?s = _ => set (st1 := s) end.
    assert (Hrest1 : drop (S i) (pops st1) = rest).
    { unfold st1. cbn [pops]. by rewrite drop_insert_lt by lia. }
    rewrite (IH (S i) st1 Hrest1 He).
    unfold st1. norm_state. cbn [map teardown_events].
    unfold release_pops. cbn [foldl].
    erewrite take_S_r.
    2:{ apply list_lookup_insert_eq. by eapply lookup_lt_Some. }
    rewrite take_insert_ge by lia.
    rewrite <- !app_assoc. done.
Qed.

Lemma modules_loop (n : nat) : forall (i : nat) (st : MABE),
  for_loop n i (fun i _ => Trigger (ModuleDeleted i)) tt st
  = Done tt (set_trace (trace st ++ map ModuleDeleted (seq i n)) st).
Proof.
  induction n as [|n IH]; intros i st.
  - simpl. unfold ret, set_trace. rewrite app_nil_r. by destruct st.
  - cbn [for_loop]. rewrite bind_Trigger, IH. norm_state.
    by rewrite <- app_assoc.
Qed.

Lemma for_loop_ext {T : Type} (body1 body2 : nat -> T -> M T) :
  (forall i acc st, body1 i acc st = body2 i acc st) ->
  forall n i acc st, for_loop n i body1 acc st = for_loop n i body2 acc st.
Proof.
  intros H. induction n as [|n IH]; intros i acc st; [done|].
  cbn [for_loop]. unfold bind. rewrite H.
  destruct (body2 i acc st); [apply IH|done].
Qed.

Lemma ClearOrgAt_without_listeners (pos : OrgPosition) (st : MABE) :
  ClearOrgAt_delivering [] pos st = ClearOrgAt pos st.
Proof.
  unfold ClearOrgAt_delivering, ClearOrgAt, bind, gets, call_listeners.
  by destruct (IsOccupied st pos).
Qed.

Lemma ClearPop_without_listeners (pop : nat) (st : MABE) :
  ClearPop_delivering [] pop st = ClearPop pop st.
Proof.
  unfold ClearPop_delivering, ClearPop, bind.
  destruct (GetSize pop st) as [n st'|]; [|done].
  apply for_loop_ext. intros i _ s. apply ClearOrgAt_without_listeners.
Qed.

Lemma MABE_destructor_run (st : MABE) (e : nat) :
  empty_org st = Some e ->
  MABE_destructor [] st
  = Done tt
      {| exit_now := exit_now st; errors := errors st;
         pops := map (cleared e) (pops st);
         empty_org := empty_org st;
         heap := <[e := None]> (release_pops e (pops st) (heap st));
         random := random st; modules := modules st;
         trace := trace st ++ [BeforeExit]
                    ++ map ModuleDeleted (seq 0 (length (modules st)))
                    ++ teardown_events e 0 (pops st) ++ [Released e] |}.
Proof.
  intros He. unfold MABE_destructor.
  rewrite bind_Trigger, bind_gets. norm_state.
  mrun (modules_loop (length (modules st)) 0
          {| exit_now := exit_now st; errors := errors st; pops := pops st;
             empty_org := empty_org st; heap := heap st; random := random st;
             modules := modules st; trace := trace st ++ [BeforeExit] |}).
  rewrite bind_gets. norm_state.
  match goal with |- bind _ _ ?s = _ => set (st1 := s) end.
  pose proof (teardown_loop e (pops st) 0 st1 (drop_0 _) He) as Hloop.
  rewrite <- (for_loop_ext
                (fun i _ => bind (ClearPop_delivering [] i)
                              (fun _ => Trigger (PopulationDeleted i)))) in Hloop.
  2:{ intros i _ s. unfold bind. by rewrite ClearPop_without_listeners. }
  mrun Hloop.
  rewrite bind_gets. unfold st1. norm_state. rewrite He.
  unfold Delete, modify. norm_state. rewrite take_0. simpl app at 1.
  rewrite <- !app_assoc. done.
Qed.

Lemma clear_events_elem (e pop : nat) (ev : Event) :
  forall (slots : list nat) (i : nat),
  ev ∈ clear_events e pop i slots ->
  exists j q, slots !! j = Some q /\ q <> e
    /\ (ev = BeforeDeath (IteratorAt pop (i + j)) (Some q) \/ ev = Released q).
Proof.
  induction slots as [|q slots IH]; intros i; simpl; [by intros ?%elem_of_nil|].
  rewrite elem_of_app. intros [Hin|Hin].
  - destruct (decide (q = e)); [by apply elem_of_nil in Hin|].
    exists 0, q. rewrite Nat.add_0_r. split; [done|]. split; [done|].
    rewrite !elem_of_cons, elem_of_nil in Hin. tauto.
  - destruct (IH (S i) Hin) as (j & q' & Hj & Hne & Hev).
    exists (S j), q'. replace (i + S j) with (S i + j) by lia. done.
Qed.

Lemma clear_events_Released (e pop : nat) (q : nat) :
  forall (slots : list nat) (i : nat),
  q ∈ slots -> q <> e -> Released q ∈ clear_events e pop i slots.
Proof.
  induction slots as [|q' slots IH]; intros i; [by intros ?%elem_of_nil|].
  intros [->|Hin]%elem_of_cons Hne; simpl; rewrite elem_of_app.
  - left. rewrite decide_False by done. rewrite !elem_of_cons. tauto.
  - right. by apply IH.
Qed.

Lemma teardown_events_elem (e : nat) (ev : Event) :
  forall (ps : list Population) (i : nat),
  ev ∈ teardown_events e i ps ->
  (exists j, ev = PopulationDeleted j)
  \/ (exists p q, q <> e /\ (ev = BeforeDeath p (Some q) \/ ev = Released q)).
Proof.
  induction ps as [|P ps IH]; intros i; simpl; [by intros ?%elem_of_nil|].
  rewrite elem_of_app, elem_of_cons. intros [Hin|[->|Hin]].
  - right. destruct (clear_events_elem e i ev _ _ Hin) as (j & q & _ & Hne & Hev).
    eauto.
  - left. eauto.
  - by apply (IH (S i)).
Qed.

Lemma teardown_events_order (e : nat) (q : nat) :
  forall (ps : list Population) (k j : nat) (P : Population),
  ps !! j = Some P -> q ∈ orgs P -> q <> e ->
  exists l1 l2,
    teardown_events e k ps = l1 ++ PopulationDeleted (k + j) :: l2
    /\ Released q ∈ l1.
Proof.
  induction ps as [|P' ps IH]; intros k j P Hj Hq Hne; [done|].
  destruct j as [|j]; simpl in Hj.
  - injection Hj as ->. simpl. rewrite Nat.add_0_r.
    exists (clear_events e k 0 (orgs P)), (teardown_events e (S k) ps).
    split; [done|]. by apply clear_events_Released.
  - destruct (IH (S k) j P Hj Hq Hne) as (l1 & l2 & Heq & Hin).
    exists (clear_events e k 0 (orgs P') ++ [PopulationDeleted k] ++ l1), l2.
    simpl. rewrite Heq. replace (k + S j) with (S k + j) by lia.
    split; [by rewrite <- !app_assoc|].
    rewrite !elem_of_app, elem_of_cons. auto.
Qed.

Lemma dead_insert (h : list (option Organism)) (p q : nat) :
  dead h q -> dead (<[p := None]> h) q.
Proof.
  intros Hd o. destruct (decide (p = q)) as [->|Hne].
  - destruct (decide (q < length h)).
    + by rewrite list_lookup_insert_eq.
    + rewrite list_insert_ge by lia. apply Hd.
  - rewrite list_lookup_insert_ne by done. apply Hd.
Qed.

Lemma dead_insert_same (h : list (option Organism)) (q : nat) :
  dead (<[q := None]> h) q.
Proof.
  intros o. destruct (decide (q < length h)).
  - by rewrite list_lookup_insert_eq.
  - rewrite list_insert_ge by lia. by rewrite lookup_ge_None_2 by lia.
Qed.

Lemma release_all_keeps_dead (e q : nat) : forall slots h,
  dead h q -> dead (release_all e slots h) q.
Proof.
  induction slots as [|p slots IH]; intros h Hd; [done|].
  unfold release_all. cbn [foldl]. apply IH.
  destruct (decide (p = e)); [done|]. by apply dead_insert.
Qed.

Lemma release_all_dead (e q : nat) : forall slots h,
  q ∈ slots -> q <> e -> dead (release_all e slots h) q.
Proof.
  induction slots as [|p slots IH]; intros h; [by intros ?%elem_of_nil|].
  intros [->|Hin]%elem_of_cons Hne; unfold release_all; cbn [foldl].
  - rewrite decide_False by done. apply release_all_keeps_dead, dead_insert_same.
  - by apply IH.
Qed.

Lemma release_pops_keeps_dead (e q : nat) : forall ps h,
  dead h q -> dead (release_pops e ps h) q.
Proof.
  induction ps as [|P ps IH]; intros h Hd; [done|].
  unfold release_pops. cbn [foldl]. apply IH. by apply release_all_keeps_dead.
Qed.

Lemma release_pops_dead (e q : nat) : forall ps h P,
  P ∈ ps -> q ∈ orgs P -> q <> e -> dead (release_pops e ps h) q.
Proof.
  induction ps as [|P' ps IH]; intros h P; [by intros ?%elem_of_nil|].
  intros [->|Hin]%elem_of_cons Hq Hne; unfold release_pops; cbn [foldl].
  - apply release_pops_keeps_dead. by apply release_all_dead.
  - by eapply IH.
Qed.

Lemma cleared_not_occupied (st : MABE) (e : nat) (ps : list Population)
    (p : OrgPosition) :
  empty_org st = Some e -> pops st = map (cleared e) ps ->
  IsOccupied st p = false.
Proof.
  intros He Hp. unfold IsOccupied, OrgPtr. rewrite Hp.
  destruct (pop_ptr p) as [id|]; [|done].
  rewrite list_lookup_fmap. destruct (ps !! id) as [P|]; simpl; [|done].
  destruct (replicate (length (orgs P)) e !! pos p) as [q|] eqn:Hq; [|done].
  apply lookup_replicate in Hq as [-> _].
  rewrite (is_sentinel_spec st e e He). by rewrite bool_decide_eq_true_2.
Qed.

(** When no module listens to BeforeDeath, the destructor ends normally,
    whatever the state of the controller (so whatever [exit_now] is), and
    adds to the trace, in this order: BeforeExit; the deletion of the
    modules; for each population in turn, the death and release of each of
    its real organisms followed by the deletion of the population; and
    last the release of the sentinel, which is released nowhere before.
    Afterwards no position is occupied and neither the organisms of the
    populations nor the sentinel are alive. *)
Lemma teardown_without_BeforeDeath_listeners (st : MABE) (e : nat) :
  empty_org st = Some e ->
  exists st',
    MABE_destructor [] st = Done tt st'
    /\ trace st' = trace st ++ [BeforeExit]
                     ++ map ModuleDeleted (seq 0 (length (modules st)))
                     ++ teardown_events e 0 (pops st) ++ [Released e]
    /\ (Released e ∉ teardown_events e 0 (pops st))
    /\ (BeforeExit ∉ teardown_events e 0 (pops st))
    /\ (forall i P q, pops st !! i = Some P -> q ∈ orgs P -> q <> e ->
          exists l1 l2,
            teardown_events e 0 (pops st) = l1 ++ PopulationDeleted i :: l2
            /\ Released q ∈ l1)
    /\ (forall p, IsOccupied st' p = false)
    /\ (forall i P q, pops st !! i = Some P -> q ∈ orgs P -> ~ Live st' q)
    /\ ~ Live st' e.
Proof.
  intros He. eexists. split; [by apply MABE_destructor_run|]. norm_state.
  split; [done|].
  split; [|split; [|split; [|split; [|split]]]].
  - intros Hin. apply teardown_events_elem in Hin as [[j Hj]|(p & q & Hne & [H|H])];
      congruence.
  - intros Hin. apply teardown_events_elem in Hin as [[j Hj]|(p & q & Hne & [H|H])];
      congruence.
  - intros i P q HP Hq Hne.
    apply (teardown_events_order e q (pops st) 0 i P HP Hq Hne).
  - intros p. by eapply cleared_not_occupied.
  - intros i P q HP Hq [o Ho]. cbn [heap] in Ho.
    destruct (decide (q = e)) as [->|Hne].
    + exact (dead_insert_same _ e o Ho).
    + refine (dead_insert _ e q _ o Ho).
      eapply release_pops_dead; [|exact Hq|exact Hne].
      by eapply list_elem_of_lookup_2.
  - intros [o Ho]. cbn [heap] in Ho. exact (dead_insert_same _ e o Ho).
Qed.

Section DeletedListeners.

Variable listeners : list nat.
Variable m : nat.
Hypothesis Hm : m ∈ listeners.

Lemma module_deleted_later (st : MABE) (l : list Event) :
  module_deleted st m = true ->
  module_deleted (set_trace (trace st ++ l) st) m = true.
Proof.
  unfold module_deleted. rewrite !bool_decide_eq_true. cbn [trace set_trace].
  rewrite elem_of_app. tauto.
Qed.

Lemma call_listeners_deleted (st : MABE) :
  module_deleted st m = true -> call_listeners listeners st = Crash NullDeref st.
Proof using Hm.
  intros Hd. unfold call_listeners.
  destruct (forallb _ listeners) eqn:Hall; [|done].
  rewrite forallb_forall in Hall.
  assert (Hin : In m listeners) by (by apply list_elem_of_In).
  specialize (Hall m Hin). by rewrite Hd in Hall.
Qed.

Lemma ClearOrgAt_delivering_deleted (st : MABE) (p : OrgPosition) :
  module_deleted st m = true ->
  ClearOrgAt_delivering listeners p st
  = if IsOccupied st p
    then Crash NullDeref (set_trace (trace st ++ [BeforeDeath p (OrgPtr st p)]) st)
    else Done tt st.
Proof using Hm.
  intros Hd. unfold ClearOrgAt_delivering. rewrite bind_gets.
  destruct (IsOccupied st p); [|done].
  rewrite bind_gets, bind_Trigger. unfold bind.
  by rewrite call_listeners_deleted by by apply module_deleted_later.
Qed.

Lemma slots_loop_deleted (st : MABE) (pop : nat) :
  module_deleted st m = true ->
  forall n i,
  ((forall j, i <= j < i + n -> IsOccupied st (IteratorAt pop j) = false)
   /\ for_loop n i (fun i _ => ClearOrgAt_delivering listeners (IteratorAt pop i))
        tt st = Done tt st)
  \/ (exists j, IsOccupied st (IteratorAt pop j) = true
      /\ for_loop n i (fun i _ => ClearOrgAt_delivering listeners (IteratorAt pop i))
           tt st
         = Crash NullDeref
             (set_trace (trace st ++ [BeforeDeath (IteratorAt pop j)
                                        (OrgPtr st (IteratorAt pop j))]) st)).
Proof using Hm.
  intros Hd. induction n as [|n IH]; intros i.
  - left. split; [lia|done].
  - cbn [for_loop]. unfold bind at 1 2.
    rewrite (ClearOrgAt_delivering_deleted st (IteratorAt pop i) Hd).
    destruct (IsOccupied st (IteratorAt pop i)) eqn:Hocc.
    + right. by exists i.
    + destruct (IH (S i)) as [[Hnone Hrun]|(j & Hj & Hrun)].
      * left. split; [|done]. intros j Hj.
        destruct (decide (j = i)) as [->|]; [done|]. apply Hnone. lia.
      * right. by exists j.
Qed.

Lemma pops_loop_deleted : forall n i (st : MABE),
  i + n <= length (pops st) ->
  module_deleted st m = true ->
  ((forall j k, i <= j < i + n -> IsOccupied st (IteratorAt j k) = false)
   /\ for_loop n i (fun i _ => bind (ClearPop_delivering listeners i)
                                (fun _ => Trigger (PopulationDeleted i))) tt st
      = Done tt (set_trace (trace st ++ map PopulationDeleted (seq i n)) st))
  \/ (exists q k, IsOccupied st q = true
      /\ for_loop n i (fun i _ => bind (ClearPop_delivering listeners i)
                                   (fun _ => Trigger (PopulationDeleted i))) tt st
         = Crash NullDeref
             (set_trace (trace st ++ map PopulationDeleted (seq i k)
                           ++ [BeforeDeath q (OrgPtr st q)]) st)).
Proof using Hm.
  induction n as [|n IH]; intros i st Hlen Hd.
  - left. split; [lia|]. simpl. unfold ret, set_trace. rewrite app_nil_r.
    by destruct st.
  - destruct (lookup_lt_is_Some_2 (pops st) i ltac:(lia)) as [P HP].
    assert (Hsize : GetSize i st = Done (length (orgs P)) st).
    { unfold GetSize, bind, GetPop. by rewrite HP. }
    destruct (slots_loop_deleted st i Hd (length (orgs P)) 0)
      as [[Hnone Hs]|(j & Hj & Hs)].
    + assert (Hbody : bind (ClearPop_delivering listeners i)
                        (fun _ => Trigger (PopulationDeleted i)) st
                = Done tt (set_trace (trace st ++ [PopulationDeleted i]) st)).
      { unfold ClearPop_delivering. unfold bind at 1. mrun Hsize. by rewrite Hs. }
      destruct (IH (S i) (set_trace (trace st ++ [PopulationDeleted i]) st))
        as [[Hrest Hrun]|(q & k & Hq & Hrun)].
      * cbn [pops set_trace]. lia.
      * by apply module_deleted_later.
      * left. split.
        -- intros j k Hj. destruct (decide (j = i)) as [->|].
           ++ destruct (decide (k < length (orgs P))); [apply Hnone; lia|].
              unfold IsOccupied, OrgPtr, IteratorAt. cbn [pop_ptr pos].
              rewrite HP. by rewrite lookup_ge_None_2 by lia.
           ++ apply (Hrest j k). lia.
        -- cbn [for_loop]. mrun Hbody. rewrite Hrun. unfold set_trace.
           cbn [trace exit_now errors pops empty_org heap random modules].
           cbn [seq map]. by rewrite <- app_assoc.
      * right. exists q, (S k). split; [exact Hq|].
        cbn [for_loop]. mrun Hbody. rewrite Hrun. unfold set_trace.
        cbn [trace exit_now errors pops empty_org heap random modules].
        cbn [seq map]. by rewrite <- !app_assoc.
    + right. exists (IteratorAt i j), 0. split; [exact Hj|].
      cbn [for_loop]. unfold ClearPop_delivering. unfold bind at 1 2.
      mrun Hsize. by rewrite Hs.
Qed.

End DeletedListeners.

(** C5.  With a module that listens to BeforeDeath and a living organism
    left, the destructor does not reach the release of the sentinel: after
    BeforeExit it deletes every module, and the BeforeDeath of the first
    living organism it then comes to is a call through the pointer of a
    deleted module.  The run ends there, after the deletion of the
    populations before that organism's, with every slot, every organism
    and the sentinel as they were. *)
Theorem teardown_calls_the_handler_of_a_deleted_module
    (listeners : list nat) (st : MABE) (m : nat) (p : OrgPosition) :
  m ∈ listeners -> m < length (modules st) -> IsOccupied st p = true ->
  exists st' q k,
    MABE_destructor listeners st = Crash NullDeref st'
    /\ IsOccupied st q = true
    /\ trace st' = trace st ++ [BeforeExit]
                     ++ map ModuleDeleted (seq 0 (length (modules st)))
                     ++ map PopulationDeleted (seq 0 k)
                     ++ [BeforeDeath q (OrgPtr st q)]
    /\ pops st' = pops st /\ heap st' = heap st
    /\ empty_org st' = empty_org st.
Proof.
  intros Hm Hlt Hocc. unfold MABE_destructor.
  rewrite bind_Trigger, bind_gets. norm_state.
  mrun (modules_loop (length (modules st)) 0
          {| exit_now := exit_now st; errors := errors st; pops := pops st;
             empty_org := empty_org st; heap := heap st; random := random st;
             modules := modules st; trace := trace st ++ [BeforeExit] |}).
  rewrite bind_gets. norm_state.
  match goal with |- context [bind _ _ ?s] => set (st1 := s) end.
  assert (Hd : module_deleted st1 m = true).
  { unfold module_deleted, st1. cbn [trace]. apply bool_decide_eq_true.
    rewrite !elem_of_app. right. apply list_elem_of_fmap. exists m.
    split; [done|]. apply elem_of_seq. lia. }
  destruct (pops_loop_deleted listeners m Hm (length (pops st)) 0 st1
              ltac:(unfold st1; cbn [pops]; lia) Hd)
    as [[Hnone _]|(q & k & Hq & Hrun)].
  - exfalso. unfold IsOccupied, OrgPtr in Hocc.
    destruct p as [[id|] i]; cbn [pop_ptr pos] in Hocc; [|done].
    destruct (pops st !! id) as [P|] eqn:HP; [|done].
    pose proof (lookup_lt_Some _ _ _ HP) as Hid.
    specialize (Hnone id i ltac:(lia)).
    unfold IsOccupied, OrgPtr, IteratorAt, is_sentinel, st1 in Hnone.
    cbn [pop_ptr pos pops empty_org] in Hnone.
    rewrite HP in Hnone. unfold is_sentinel in Hocc. congruence.
  - exists (set_trace (trace st1 ++ map PopulationDeleted (seq 0 k)
                         ++ [BeforeDeath q (OrgPtr st1 q)]) st1), q, k.
    split; [unfold bind at 1; by rewrite Hrun|].
    split; [exact Hq|].
    split; [|done]. unfold st1. cbn [trace set_trace].
    by rewrite <- !app_assoc.
Qed.

(** *** Copying a population *)

Lemma GetPop_run (st : MABE) (pop : nat) (P : Population) :
  pops st !! pop = Some P -> GetPop pop st = Done P st.
Proof. intros H. unfold GetPop. by rewrite H. Qed.

Lemma GetSize_run (st : MABE) (pop : nat) (P : Population) :
  pops st !! pop = Some P -> GetSize pop st = Done (length (orgs P)) st.
Proof. intros H. unfold GetSize. by mrun (GetPop_run st pop P H). Qed.

Lemma forallb_replicate {A} (f : A -> bool) (x : A) (n : nat) :
  f x = true -> forallb f (replicate n x) = true.
Proof. intros H. induction n as [|n IH]; simpl; [done|]. by rewrite H, IH. Qed.

Lemma ResizePop_run_cleared (st : MABE) (pop new_size : nat) (P : Population)
    (e m : nat) :
  pops st !! pop = Some P -> orgs P = replicate m e -> empty_org st = Some e ->
  ResizePop pop new_size st
  = Done tt
      {| exit_now := exit_now st; errors := errors st;
         pops := <[pop := {| pop_name := pop_name P;
                             orgs := replicate new_size e |}]> (pops st);
         empty_org := empty_org st; heap := heap st;
         random := random st; modules := modules st;
         trace := trace st ++ [BeforePopResize pop new_size; OnPopResize pop m] |}.
Proof.
  intros HP Horgs He. unfold ResizePop. rewrite bind_Trigger.
  set (st1 := set_trace _ st).
  mrun (GetPop_run st1 pop P HP). rewrite Horgs, length_replicate.
  destruct (bool_decide (m <= new_size)) eqn:Hle.
  - apply bool_decide_eq_true in Hle.
    destruct (bool_decide (m = new_size)) eqn:Heq.
    + apply bool_decide_eq_true in Heq. subst new_size.
      rewrite bind_ret. unfold Trigger, modify, st1. norm_state.
      rewrite <- Horgs.
      assert ({| pop_name := pop_name P; orgs := orgs P |} = P) as -> by by destruct P.
      rewrite list_insert_id by done. by rewrite <- app_assoc.
    + apply bool_decide_eq_false in Heq.
      unfold bind at 1. unfold bind at 1.
      rewrite (GetEmpty_run st1 e He).
      unfold Trigger, modify, st1. norm_state.
      rewrite <- replicate_add.
      replace (m + (new_size - m)) with new_size by lia.
      by rewrite <- app_assoc.
  - apply bool_decide_eq_false in Hle.
    unfold bind at 1. rewrite bind_gets.
    rewrite drop_replicate, forallb_replicate.
    2:{ rewrite (is_sentinel_spec st1 e e He). by apply bool_decide_eq_true_2. }
    unfold Trigger, modify, st1. norm_state.
    rewrite take_replicate. replace (new_size `min` m) with new_size by lia.
    by rewrite <- app_assoc.
Qed.

Lemma EmptyPop_run (st : MABE) (pop new_size : nat) (P : Population) (e : nat) :
  pops st !! pop = Some P -> empty_org st = Some e ->
  EmptyPop pop new_size st
  = Done tt
      {| exit_now := exit_now st; errors := errors st;
         pops := <[pop := {| pop_name := pop_name P;
                             orgs := replicate new_size e |}]> (pops st);
         empty_org := empty_org st;
         heap := release_all e (orgs P) (heap st);
         random := random st; modules := modules st;
         trace := trace st ++ clear_events e pop 0 (orgs P)
                    ++ [BeforePopResize pop new_size;
                        OnPopResize pop (length (orgs P))] |}.
Proof.
  intros HP He. unfold EmptyPop.
  mrun (ClearPop_run e pop st P HP He).
  match goal with |- ResizePop _ _ ?s = _ => set (st1 := s) end.
  assert (HP1 : pops st1 !! pop = Some (cleared e P)).
  { unfold st1. cbn [pops]. apply list_lookup_insert_eq. by eapply lookup_lt_Some. }
  rewrite (ResizePop_run_cleared st1 pop new_size (cleared e P) e (length (orgs P))
             HP1 eq_refl He).
  unfold st1. norm_state. simpl pop_name.
  rewrite list_insert_insert_eq. by rewrite <- app_assoc.
Qed.

Lemma GetPopulation_run (st : MABE) (pop : nat) (P : Population) :
  pops st !! pop = Some P -> GetPopulation (Z.of_nat pop) st = Done pop st.
Proof.
  intros HP. unfold GetPopulation, vector_at.
  assert (pop < length (pops st)) by by eapply lookup_lt_Some.
  rewrite (proj2 (Z.ltb_lt _ _)) by lia.
  rewrite Nat2Z.id, HP. done.
Qed.

Lemma Trigger_OnInjectReady_run (st : MABE) (q : nat) (v : Organism) (pop : nat) :
  heap st !! q = Some (Some v) ->
  Trigger_OnInjectReady q pop st
  = Done tt (set_trace (trace st ++ [OnInjectReady q v pop]) st).
Proof. intros H. unfold Trigger_OnInjectReady, bind, Deref. by rewrite H. Qed.

Lemma InjectAt_run_empty (st : MABE) (org : Organism) (to_pop i : nat)
    (D : Population) (e : nat) :
  pops st !! to_pop = Some D -> orgs D !! i = Some e -> empty_org st = Some e ->
  InjectAt org (IteratorAt to_pop i) st
  = Done tt
      {| exit_now := exit_now st; errors := errors st;
         pops := <[to_pop := {| pop_name := pop_name D;
                                orgs := <[i := length (heap st)]> (orgs D) |}]>
                   (pops st);
         empty_org := empty_org st;
         heap := heap st ++ [Some org];
         random := random st; modules := modules st;
         trace := trace st
                    ++ [OnInjectReady (length (heap st)) org to_pop;
                        BeforePlacement (length (heap st)) (IteratorAt to_pop i)
                          no_position;
                        OnPlacement (IteratorAt to_pop i)] |}.
Proof.
  intros HD Hi He. unfold InjectAt, CloneOrganism.
  unfold bind at 1. unfold NewPtr at 1. cbn [IteratorAt pop_ptr].
  set (st1 := set_heap _ st).
  mrun (GetPopulation_run st1 to_pop D HD).
  assert (Hnew : heap st1 !! length (heap st) = Some (Some org)).
  { unfold st1. norm_state. by rewrite lookup_snoc_new. }
  mrun (Trigger_OnInjectReady_run st1 _ org to_pop Hnew).
  set (st2 := set_trace _ st1).
  assert (Hold : OrgPtr st2 (IteratorAt to_pop i) = Some e).
  { unfold OrgPtr, st2, st1. norm_state. simpl. by rewrite HD. }
  rewrite (AddOrgAt_run st2 _ _ no_position e Hold).
  rewrite (is_sentinel_spec st2 e e He), bool_decide_eq_true_2 by done.
  unfold st2, st1. norm_state. unfold set_slot. simpl.
  f_equal. f_equal.
  - apply list_eq. intros j. destruct (decide (to_pop = j)) as [<-|Hne].
    + rewrite list_lookup_alter_eq, HD. simpl.
      rewrite list_lookup_insert_eq by by eapply lookup_lt_Some. done.
    + rewrite list_lookup_alter_ne, list_lookup_insert_ne by done. done.
  - by rewrite <- !app_assoc.
Qed.

Section CopyLoop.
Variables (from_pop to_pop e : nat) (src : Population).
Hypothesis Hdiff : from_pop <> to_pop.

Let body : nat -> unit -> M unit :=
  fun (pos : nat) (_ : unit) =>
    (empty ← gets (fun st => IsEmpty st (IteratorAt from_pop pos));
     if (empty : bool) then ret tt
     else
       q ← SlotAt (IteratorAt from_pop pos);
       org ← Deref q;
       InjectAt org (IteratorAt to_pop pos))%mabe.

Lemma CopyPop_body (st : MABE) (i : nat) (D : Population) (p : nat) :
  pops st !! from_pop = Some src -> pops st !! to_pop = Some D ->
  empty_org st = Some e ->
  orgs src !! i = Some p -> orgs D !! i = Some e ->
  (p <> e -> Live st p) ->
  exists st' slot,
    body i tt st = Done tt st'
    /\ pops st' !! from_pop = Some src
    /\ pops st' !! to_pop
       = Some {| pop_name := pop_name D; orgs := <[i := slot]> (orgs D) |}
    /\ empty_org st' = Some e /\ errors st' = errors st
    /\ (exists ext, heap st' = heap st ++ ext)
    /\ copied e (heap st) (heap st') p (Some slot).
Proof using Hdiff.
  intros Hsrc HD He Hp Hi Hlive. unfold body. rewrite bind_gets.
  assert (Hptr : OrgPtr st (IteratorAt from_pop i) = Some p).
  { unfold OrgPtr. simpl. by rewrite Hsrc. }
  unfold IsEmpty. rewrite Hptr, (is_sentinel_spec st p e He).
  destruct (decide (p = e)) as [->|Hne].
  - rewrite bool_decide_eq_true_2 by done. exists st, e.
    split; [done|]. split; [done|]. split.
    { rewrite list_insert_id by done. rewrite HD. by destruct D. }
    split; [done|]. split; [done|]. split; [exists []; by rewrite app_nil_r|].
    unfold copied. by rewrite decide_True.
  - rewrite bool_decide_eq_false_2 by done.
    mrun (SlotAt_run st _ p Hptr).
    destruct (Hlive Hne) as [o Ho].
    assert (HDeref : Deref p st = Done o st) by (unfold Deref; by rewrite Ho).
    mrun HDeref.
    rewrite (InjectAt_run_empty st o to_pop i D e HD Hi He).
    eexists _, (length (heap st)). split; [reflexivity|]. norm_state.
    split; [by rewrite list_lookup_insert_ne|].
    split; [apply list_lookup_insert_eq; by eapply lookup_lt_Some|].
    split; [done|]. split; [done|]. split; [by eexists|].
    unfold copied. rewrite decide_False by done.
    exists (length (heap st)), o. split; [done|]. split; [done|]. split; [done|].
    apply lookup_snoc_new.
Qed.

Lemma CopyPop_loop (k : nat) : forall (i : nat) (st : MABE) (D : Population),
  pops st !! from_pop = Some src -> pops st !! to_pop = Some D ->
  empty_org st = Some e ->
  i + k = length (orgs src) -> length (orgs D) = length (orgs src) ->
  (forall j, i <= j -> j < length (orgs src) -> orgs D !! j = Some e) ->
  (forall j p, orgs src !! j = Some p -> p <> e -> Live st p) ->
  exists st' D',
    for_loop k i body tt st = Done tt st'
    /\ pops st' !! from_pop = Some src
    /\ pops st' !! to_pop = Some D'
    /\ pop_name D' = pop_name D
    /\ length (orgs D') = length (orgs src)
    /\ empty_org st' = Some e /\ errors st' = errors st
    /\ (exists ext, heap st' = heap st ++ ext)
    /\ (forall j, j < i -> orgs D' !! j = orgs D !! j)
    /\ (forall j p, i <= j -> orgs src !! j = Some p ->
          copied e (heap st) (heap st') p (orgs D' !! j)).
Proof using Hdiff.
  induction k as [|k IH]; intros i st D Hsrc HD He Hik Hlen Hempty Hlive.
  - exists st, D. simpl. repeat (split; [done|]).
    split; [exists []; by rewrite app_nil_r|]. split; [done|].
    intros j p Hj Hp. apply lookup_lt_Some in Hp. lia.
  - destruct (lookup_lt_is_Some_2 (orgs src) i) as [p Hp]; [lia|].
    destruct (CopyPop_body st i D p Hsrc HD He Hp (Hempty i (le_n _) ltac:(lia))
                (Hlive i p Hp))
      as (st1 & slot & Hrun & Hsrc1 & HD1 & He1 & Herr1 & [ext Hheap1] & Hcp).
    set (D1 := {| pop_name := pop_name D; orgs := <[i := slot]> (orgs D) |}) in *.
    destruct (IH (S i) st1 D1 Hsrc1 HD1 He1) as
      (st' & D' & Hrun' & Hsrc' & HD' & Hname' & Hlen' & He' & Herr' & [ext' Hheap']
       & Hlow & Hhigh).
    + lia.
    + unfold D1. simpl. by rewrite length_insert.
    + intros j Hj Hjl. unfold D1. simpl.
      rewrite list_lookup_insert_ne by lia. apply Hempty; lia.
    + intros j p' Hp' Hne'. destruct (Hlive j p' Hp' Hne') as [o Ho].
      exists o. rewrite Hheap1. by apply lookup_app_l_Some.
    + exists st', D'. cbn [for_loop]. mrun Hrun.
      split; [done|]. split; [done|]. split; [done|]. split; [done|].
      split; [done|]. split; [done|]. split; [congruence|].
      split; [exists (ext ++ ext'); by rewrite Hheap', Hheap1, app_assoc|].
      split.
      * intros j Hj. rewrite Hlow by lia. unfold D1. simpl.
        by rewrite list_lookup_insert_ne by lia.
      * intros j p' Hj Hp'. destruct (decide (j = i)) as [->|Hji].
        { assert (p' = p) as -> by congruence.
          rewrite Hlow by lia. unfold D1. simpl.
          rewrite list_lookup_insert_eq by lia.
          unfold copied in *. destruct (decide (p = e)); [done|].
          destruct Hcp as (q & o & Hq & Hge & Hpo & Hqo).
          exists q, o. repeat (split; [done|]).
          rewrite Hheap'. by apply lookup_app_l_Some. }
        { specialize (Hhigh j p' ltac:(lia) Hp').
          unfold copied in *. destruct (decide (p' = e)) as [|Hne']; [done|].
          destruct Hhigh as (q & o & Hq & Hge & Hpo & Hqo).
          exists q, o. split; [done|].
          split; [rewrite Hheap1, length_app in Hge; lia|]. split; [|done].
          destruct (Hlive j p' Hp' Hne') as [o0 Ho0].
          rewrite Hheap1 in Hpo. rewrite (lookup_app_l_Some _ _ _ _ Ho0) in Hpo.
          congruence. }
Qed.

End CopyLoop.

Lemma release_all_cons (e q : nat) (slots : list nat) (h : list (option Organism)) :
  release_all e (q :: slots) h
  = release_all e slots (if decide (q = e) then h else <[q := None]> h).
Proof. reflexivity. Qed.

Lemma release_all_other (e p : nat) : forall slots h,
  (forall q, q ∈ slots -> q <> e -> q <> p) ->
  release_all e slots h !! p = h !! p.
Proof.
  induction slots as [|q slots IH]; intros h Hq; [done|].
  rewrite release_all_cons.
  rewrite IH by (intros q' Hq'; apply Hq; by right).
  destruct (decide (q = e)); [done|].
  apply list_lookup_insert_ne. apply Hq; [by left|done].
Qed.

Lemma release_all_length (e : nat) : forall slots h,
  length (release_all e slots h) = length h.
Proof.
  induction slots as [|q slots IH]; intros h; [done|].
  rewrite release_all_cons, IH.
  destruct (decide (q = e)); [done|]. apply length_insert.
Qed.

(** C4 (amended).  For two distinct populations of a well-formed
    controller (the sentinel exists, the organisms of the source are
    alive, and no organism is owned by both populations), [CopyPop] ends
    normally, leaves the source as it was, and gives the destination the
    size of the source; a destination slot is empty exactly where the
    source slot is, and otherwise holds a new address, different from the
    sentinel and from every address of the source, that stores a copy of
    the source organism; the source organism is unchanged, and stays
    unchanged when the copy is overwritten. *)
Theorem CopyPop_copies_into_distinct_population (st : MABE)
    (from_pop to_pop : nat) (src dst : Population) (e : nat) :
  from_pop <> to_pop ->
  pops st !! from_pop = Some src ->
  pops st !! to_pop = Some dst ->
  empty_org st = Some e ->
  Live st e ->
  (forall p, p ∈ orgs src -> p <> e -> Live st p) ->
  (forall p, p ∈ orgs src -> p ∈ orgs dst -> p = e) ->
  exists st' dst',
    CopyPop from_pop to_pop st = Done tt st'
    /\ pops st' !! from_pop = Some src
    /\ pops st' !! to_pop = Some dst'
    /\ length (orgs dst') = length (orgs src)
    /\ forall j p, orgs src !! j = Some p ->
         (p = e -> orgs dst' !! j = Some e)
         /\ (p <> e ->
              exists q o,
                orgs dst' !! j = Some q
                /\ q <> e /\ (q ∉ orgs src)
                /\ heap st !! p = Some (Some o)
                /\ heap st' !! q = Some (Some o)
                /\ heap st' !! p = Some (Some o)
                /\ forall o', <[q := Some o']> (heap st') !! p = Some (Some o)).
Proof.
  intros Hdiff Hsrc Hdst He Hlive_e Hlive Hown.
  unfold CopyPop.
  mrun (GetSize_run st from_pop src Hsrc).
  mrun (EmptyPop_run st to_pop (length (orgs src)) dst e Hdst He).
  match goal with |- exists _ _, bind _ _ ?s = _ /\ _ => set (st1 := s) end.
  assert (Hsrc1 : pops st1 !! from_pop = Some src).
  { unfold st1. cbn [pops]. by rewrite list_lookup_insert_ne. }
  set (D1 := {| pop_name := pop_name dst;
                orgs := replicate (length (orgs src)) e |}).
  assert (HD1 : pops st1 !! to_pop = Some D1).
  { unfold st1. cbn [pops]. apply list_lookup_insert_eq. by eapply lookup_lt_Some. }
  assert (Hheap1 : forall p, p ∈ orgs src -> heap st1 !! p = heap st !! p).
  { intros p Hp. unfold st1. cbn [heap]. apply release_all_other.
    intros q Hq Hqe ->. by apply Hqe, Hown. }
  assert (Hlive1 : forall j p, orgs src !! j = Some p -> p <> e -> Live st1 p).
  { intros j p Hp Hne. apply list_elem_of_lookup_2 in Hp.
    destruct (Hlive p Hp Hne) as [o Ho]. exists o. by rewrite Hheap1. }
  mrun (GetSize_run st1 from_pop src Hsrc1).
  destruct (CopyPop_loop from_pop to_pop e src Hdiff (length (orgs src)) 0 st1 D1
              Hsrc1 HD1 He eq_refl)
    as (st' & D' & Hrun & Hsrc' & HD' & _ & Hlen' & _ & _ & [ext Hext] & _ & Hcp).
  { unfold D1. simpl. apply length_replicate. }
  { intros j _ Hj. unfold D1. simpl. by apply lookup_replicate_2. }
  { exact Hlive1. }
  exists st', D'. split; [exact Hrun|]. split; [done|]. split; [done|].
  split; [done|].
  intros j p Hp. specialize (Hcp j p (Nat.le_0_l _) Hp). unfold copied in Hcp.
  assert (Hin : p ∈ orgs src) by by eapply list_elem_of_lookup_2.
  split.
  - intros ->. by rewrite decide_True in Hcp.
  - intros Hne. rewrite decide_False in Hcp by done.
    destruct Hcp as (q & o & Hq & Hge & Hpo & Hqo).
    assert (Hlen1 : length (heap st1) = length (heap st)).
    { unfold st1. cbn [heap]. apply release_all_length. }
    assert (Hold : forall p', Live st p' -> p' <> q).
    { intros p' [o' Ho'] ->. apply lookup_lt_Some in Ho'. lia. }
    rewrite Hheap1 in Hpo by done.
    assert (Hp' : heap st' !! p = Some (Some o)).
    { rewrite Hext. apply lookup_app_l_Some. by rewrite Hheap1. }
    exists q, o. split; [done|]. split; [by apply not_eq_sym, Hold|].
    split.
    { intros Hqin. destruct (decide (q = e)) as [->|Hqe].
      - by apply (Hold e Hlive_e).
      - by apply (Hold q (Hlive q Hqin Hqe)). }
    split; [done|]. split; [done|]. split; [done|].
    intros o'. rewrite list_lookup_insert_ne; [done|].
    apply not_eq_sym, Hold. by exists o.
Qed.

(** *** Random positions *)

Section RandomPositions.
Variable GetUInt : nat -> nat -> nat * nat.
Variables (st : MABE) (pop : nat) (P : Population) (e : nat).
Hypothesis HP : pops st !! pop = Some P.
Hypothesis He : empty_org st = Some e.



Lemma valid_not_empty_occupied (p : OrgPosition) :
  IsValid st p = true -> IsEmpty st p = false -> IsOccupied st p = true.
Proof.
  intros [q Hq]%IsValid_OrgPtr. unfold IsEmpty, IsOccupied. rewrite Hq.
  by intros ->.
Qed.






End RandomPositions.


(** *** Birth *)

Lemma new_offspring_run (Mutate : Organism -> nat -> Organism * nat)
    (org : Organism) (do_mutations : bool) (st : MABE) :
  exists v r',
    is_offspring Mutate org do_mutations v
    /\ (if do_mutations then MakeOffspringOrganism Mutate org
        else CloneOrganism org) st
       = Done (length (heap st))
           {| exit_now := exit_now st; errors := errors st; pops := pops st;
              empty_org := empty_org st; heap := heap st ++ [Some v];
              random := r'; modules := modules st; trace := trace st |}.
Proof.
  destruct do_mutations; simpl.
  - unfold MakeOffspringOrganism, bind, gets. simpl.
    destruct (Mutate org (random st)) as [o r'] eqn:E.
    exists o, r'. split; [exists (random st); by rewrite E|]. done.
  - exists org, (random st). split; done.
Qed.


Lemma installed_run (st : MABE) (o : ptr) (pos ppos : OrgPosition) (old : ptr) :
  OrgPtr st pos = Some old ->
  AddOrgAt o pos ppos st = Done tt (installed o pos ppos old st).
Proof. apply AddOrgAt_run. Qed.

Lemma Live_installed (st : MABE) (q o old : ptr) (pos ppos : OrgPosition) :
  Live st q -> old <> q -> Live (installed o pos ppos old st) q.
Proof.
  intros [v Hv] Hne. exists v. cbn [installed heap].
  destruct (is_sentinel st old); [done|]. by rewrite list_lookup_insert_ne.
Qed.

Lemma Live_released (st : MABE) (q o : ptr) :
  Live st q -> o <> q -> Live (released o st) q.
Proof.
  intros [v Hv] Hne. exists v. cbn [released heap].
  by rewrite list_lookup_insert_ne.
Qed.

Lemma OrgPtr_installed (st : MABE) (q o old : ptr) (pos ppos : OrgPosition) :
  o <> q -> (forall p, OrgPtr st p <> Some q) ->
  forall p, OrgPtr (installed o pos ppos old st) p <> Some q.
Proof.
  intros Hne Hslots p.
  rewrite (OrgPtr_set_slot st (installed o pos ppos old st) pos p o eq_refl).
  destruct (decide (pos = p)); [|apply Hslots].
  destruct (OrgPtr st pos); simpl; congruence.
Qed.

Section Birth.
Variable PlaceBirth : MABE -> nat -> ptr -> OrgPosition -> OrgPosition.
Variable Mutate : Organism -> nat -> Organism * nat.
Variables (org : ptr) (ppos : OrgPosition) (target_pop : nat).
Variable do_mutations : bool.

Let body : nat -> Collection -> M Collection :=
  fun (i : nat) (birth_list : Collection) =>
    (parent ← Deref org;
    new_org ← (if do_mutations then MakeOffspringOrganism Mutate parent
               else CloneOrganism parent);
    v ← Deref new_org;
    Trigger (OnOffspringReady new_org v ppos target_pop);;
    pos ← gets (fun st => PlaceBirth st target_pop new_org ppos);
    valid ← gets (fun st => IsValid st pos);
    if (valid : bool) then
      AddOrgAt new_org pos ppos;;
      ret (Insert pos birth_list)
    else
      Delete new_org;;
      ret birth_list)%mabe.

Let ready := offspring_ready Mutate ppos target_pop do_mutations.
Let place := birth_pos PlaceBirth Mutate ppos target_pop do_mutations.
Let rounds := births PlaceBirth Mutate org ppos target_pop do_mutations.







End Birth.


(** X8.  The overload of [DoBirth] with a target position: for a valid
    target the offspring is placed there, whatever was there is released,
    and no error is reported. *)
Lemma DoBirth_at_places_at_the_target
    (Mutate : Organism -> nat -> Organism * nat)
    (org : Organism) (ppos target_pos : OrgPosition) (do_mutations : bool)
    (st : MABE) :
  IsValid st target_pos = true ->
  exists st' v id old,
    DoBirth_at Mutate org ppos target_pos do_mutations st
      = Done {[ target_pos ]} st'
    /\ is_offspring Mutate org do_mutations v
    /\ pop_ptr target_pos = Some id
    /\ OrgPtr st target_pos = Some old
    /\ trace st' = trace st
                     ++ [BeforeRepro ppos;
                         OnOffspringReady (length (heap st)) v ppos id;
                         BeforePlacement (length (heap st)) target_pos ppos]
                     ++ (if is_sentinel st old then [] else [Released old])
                     ++ [OnPlacement target_pos]
    /\ OrgPtr st' target_pos = Some (length (heap st))
    /\ errors st' = errors st.
Proof.
  intros Hvalid.
  destruct (proj1 (IsValid_OrgPtr st target_pos) Hvalid) as [old Hold].
  destruct (pop_ptr target_pos) as [id|] eqn:Hid;
    [|unfold OrgPtr in Hold; by rewrite Hid in Hold].
  unfold DoBirth_at. rewrite bind_Trigger.
  set (st0 := set_trace _ st).
  destruct (new_offspring_run Mutate org do_mutations st0) as (v & r' & Hv & Hnew).
  mrun Hnew.
  match goal with |- exists _ _ _ _, bind _ _ ?s = _ /\ _ => set (st1 := s) end.
  assert (HD : Deref (length (heap st0)) st1 = Done v st1).
  { unfold Deref, st1. cbn [heap]. by rewrite lookup_snoc_new. }
  mrun HD. rewrite Hid, bind_ret, bind_Trigger.
  set (st2 := set_trace _ st1).
  assert (Hold2 : OrgPtr st2 target_pos = Some old) by exact Hold.
  mrun (AddOrgAt_run st2 (length (heap st0)) target_pos ppos old Hold2).
  unfold ret. eexists _, v, id, old. split; [reflexivity|]. norm_state.
  split; [exact Hv|]. split; [done|]. split; [done|].
  split; [unfold st2, st1, st0; norm_state; by rewrite <- !app_assoc|].
  split; [|done].
  match goal with |- OrgPtr ?s _ = _ => set (st' := s) end.
  rewrite (OrgPtr_set_slot st2 st' target_pos target_pos (length (heap st0)) eq_refl).
  rewrite decide_True by done. by rewrite Hold2.
Qed.

(** *** Injection *)

Section Injection.
Variable PlaceInject : MABE -> nat -> nat -> OrgPosition.
Variables (pop : nat) (org : ptr).

Let body : nat -> Collection -> M Collection :=
  fun (i : nat) (placement_set : Collection) =>
    (original ← Deref org;
     inject_org ← CloneOrganism original;
     Trigger_OnInjectReady inject_org pop;;
     pos ← gets (fun st => PlaceInject st pop inject_org);
     valid ← gets (fun st => IsValid st pos);
     if (valid : bool) then
       AddOrgAt inject_org pos no_position;;
       ret (Insert pos placement_set)
     else
       Delete inject_org;;
       AddError ("Invalid position; failed to inject organism "
                   +:+ pretty i +:+ "!");;
       ret placement_set)%mabe.

Let ready := inject_ready pop.
Let place := inject_pos PlaceInject pop.
Let rounds := injections PlaceInject pop org.

(** One round of the loop, the original being alive. *)
Lemma Inject_round (i : nat) (acc : Collection) (st : MABE) (original : Organism) :
  heap st !! org = Some (Some original) ->
  body i acc st
  = match OrgPtr (ready original st) (place original st) with
    | Some old =>
        Done (Insert (place original st) acc)
          (installed (length (heap st)) (place original st) no_position old
             (ready original st))
    | None => Done acc (refused i (length (heap st)) (ready original st))
    end.
Proof using Type.
  intros Horiginal. unfold body.
  assert (HD : Deref org st = Done original st)
    by (unfold Deref; by rewrite Horiginal).
  mrun HD. unfold CloneOrganism. unfold bind at 1. unfold NewPtr at 1.
  set (st1 := set_heap _ st).
  assert (Hnew : heap st1 !! length (heap st) = Some (Some original)).
  { unfold st1. norm_state. by rewrite lookup_snoc_new. }
  mrun (Trigger_OnInjectReady_run st1 _ original pop Hnew). rewrite !bind_gets.
  change (set_trace _ st1) with (ready original st).
  change (PlaceInject (ready original st) pop (length (heap st)))
    with (place original st).
  destruct (IsValid (ready original st) (place original st)) eqn:Hvalid.
  - destruct (proj1 (IsValid_OrgPtr _ _) Hvalid) as [old Hold].
    rewrite Hold. by mrun (installed_run _ (length (heap st)) _ no_position old Hold).
  - destruct (OrgPtr (ready original st) (place original st)) as [old|] eqn:Hold.
    { assert (IsValid (ready original st) (place original st) = true)
        by (apply IsValid_OrgPtr; by rewrite Hold).
      congruence. }
    by rewrite bind_Delete, bind_AddError.
Qed.

(** One round of the loop, the original having been released. *)
Lemma Inject_round_dangling (i : nat) (acc : Collection) (st : MABE) :
  ~ Live st org -> body i acc st = Crash NullDeref st.
Proof using Type.
  intros Hdead. unfold body, bind, Deref.
  destruct (heap st !! org) as [[original|]|] eqn:H; [|done|done].
  destruct Hdead. by exists original.
Qed.

Lemma Inject_loop (n : nat) : forall (i : nat) (acc : Collection) (st : MABE),
  rounds n i st acc (for_loop n i body acc st).
Proof using Type.
  induction n as [|n IH]; intros i acc st; [constructor|].
  cbn [for_loop].
  destruct (heap st !! org) as [[original|]|] eqn:Horiginal.
  - unfold bind. rewrite (Inject_round i acc st original Horiginal).
    destruct (OrgPtr (ready original st) (place original st)) as [old|] eqn:Hold.
    + eapply injections_placed; [exact Horiginal|exact Hold|apply IH].
    + eapply injections_refused; [exact Horiginal| |apply IH].
      apply not_true_is_false. intros [? H]%IsValid_OrgPtr.
      unfold ready, place in Hold. congruence.
  - unfold bind. rewrite Inject_round_dangling.
    + apply injections_dangling. intros [v Hv]. congruence.
    + intros [v Hv]. congruence.
  - unfold bind. rewrite Inject_round_dangling.
    + apply injections_dangling. intros [v Hv]. congruence.
    + intros [v Hv]. congruence.
Qed.

(** What the rounds leave behind. *)
Lemma injections_facts (n i : nat) (st : MABE) (acc : Collection)
    (out : Outcome Collection) :
  rounds n i st acc out ->
  match out with
  | Done c st' =>
      exists evs msgs,
        trace st' = trace st ++ evs
        /\ errors st' = errors st ++ msgs
        /\ (forall p, p ∈ c <-> p ∈ acc \/ OnPlacement p ∈ evs)
        /\ (forall p, p ∈ c -> p ∈ acc \/ IsValid st p = true)
        /\ placements evs + length msgs = n
        /\ (forall p, IsValid st' p = IsValid st p)
  | Crash f st' => f = NullDeref /\ ~ Live st' org
  end.
Proof using Type.
  induction 1 as [i st acc
                 |n i st acc original old out Horiginal Hold _ IH
                 |n i st acc original out Horiginal Hinvalid _ IH
                 |n i st acc Hdead].
  - exists [], []. rewrite !app_nil_r. split; [done|]. split; [done|].
    split; [intros p; rewrite elem_of_nil; tauto|]. split; [tauto|done].
  - assert (Hvalid : IsValid (ready original st) (place original st) = true)
      by (apply IsValid_OrgPtr; unfold ready, place; by rewrite Hold).
    assert (Hkeep : forall p,
              IsValid (installed (length (heap st)) (place original st) no_position
                         old (ready original st)) p = IsValid st p).
    { intros p. change (IsValid st p) with (IsValid (ready original st) p).
      by apply (IsValid_set_slot (ready original st) _ (place original st) p
                  (length (heap st))). }
    destruct out as [c st'|f st']; [|exact IH].
    destruct IH as (evs & msgs & Htr & Herr & Hin & Hval & Hnone & Hv).
    eexists _, msgs. split.
    { rewrite Htr. cbn [installed inject_ready trace].
      rewrite <- !app_assoc. reflexivity. }
    split; [exact Herr|].
    split.
    { intros p. rewrite (Hin p). unfold Insert.
      rewrite elem_of_union, elem_of_singleton.
      rewrite !elem_of_app, !elem_of_cons, elem_of_nil.
      destruct (is_sentinel _ old); rewrite ?elem_of_cons, elem_of_nil;
        naive_solver. }
    split.
    { intros p Hp. destruct (Hval p Hp) as [Hp'|Hp'].
      - unfold Insert in Hp'.
        apply elem_of_union in Hp' as [->%elem_of_singleton|Hp']; [|by left].
        right. exact Hvalid.
      - right. by rewrite Hkeep in Hp'. }
    split; [|intros p; rewrite Hv; apply Hkeep].
    rewrite <- Hnone. unfold placements. by destruct (is_sentinel _ old).
  - destruct out as [c st'|f st']; [|exact IH].
    destruct IH as (evs & msgs & Htr & Herr & Hin & Hval & Hnone & Hv).
    eexists _, (_ :: msgs). split.
    { rewrite Htr. cbn [refused released set_errors inject_ready trace].
      rewrite <- !app_assoc. reflexivity. }
    split.
    { rewrite Herr. cbn [refused released set_errors inject_ready errors].
      rewrite <- app_assoc. reflexivity. }
    split.
    { intros p. rewrite (Hin p).
      rewrite !elem_of_app, !elem_of_cons, elem_of_nil. naive_solver. }
    split; [exact Hval|].
    split; [|exact Hv].
    rewrite <- Hnone. unfold placements. cbn. lia.
  - done.
Qed.

(** The rounds all go through when no slot holds the original. *)
Lemma injections_apart (n i : nat) (st : MABE) (acc : Collection)
    (out : Outcome Collection) :
  rounds n i st acc out ->
  Live st org -> (forall p, OrgPtr st p <> Some org) ->
  exists c st', out = Done c st'.
Proof using Type.
  induction 1 as [i st acc
                 |n i st acc original old out Horiginal Hold _ IH
                 |n i st acc original out Horiginal Hinvalid _ IH
                 |n i st acc Hdead]; intros Hlive Hslots.
  - eauto.
  - assert (Hlt : org < length (heap st)) by (by eapply lookup_lt_Some).
    apply IH.
    + apply Live_installed.
      * destruct Hlive as [v Hv]. exists v. cbn [inject_ready heap].
        by apply lookup_app_l_Some.
      * intros ->. by apply (Hslots (place original st)).
    + apply OrgPtr_installed; [lia|]. exact Hslots.
  - assert (Hlt : org < length (heap st)) by (by eapply lookup_lt_Some).
    apply IH.
    + unfold refused.
      change (Live (released (length (heap st)) (ready original st)) org).
      apply Live_released; [|lia].
      destruct Hlive as [v Hv]. exists v. cbn [inject_ready heap].
      by apply lookup_app_l_Some.
    + exact Hslots.
  - done.
Qed.

(** A single round goes through. *)
Lemma injections_single (n i : nat) (st : MABE) (acc : Collection)
    (out : Outcome Collection) :
  rounds n i st acc out -> n <= 1 -> Live st org -> exists c st', out = Done c st'.
Proof using Type.
  intros H Hn Hlive. destruct H as [i st acc
                 |n i st acc original old out Horiginal Hold Hrest
                 |n i st acc original out Horiginal Hinvalid Hrest
                 |n i st acc Hdead].
  - eauto.
  - assert (n = 0) as -> by lia. inversion Hrest; subst. eauto.
  - assert (n = 0) as -> by lia. inversion Hrest; subst. eauto.
  - done.
Qed.

End Injection.

(** X9.  The organism variant of [Inject] goes through its rounds as
    [injections] says.  A round reads the original and copies it,
    OnInjectReady fires for the copy, and its destination is the answer of
    [PlaceInject]: when that is valid the copy is installed there through
    [AddOrgAt] and the position is collected, otherwise the copy is
    released and an error is reported.  A round that finds the original
    released -- an earlier copy was installed over it -- ends the run in
    a fault.  The call returns when the original is alive and either at
    most one copy is asked for or no slot holds the original.  When it
    returns, the collection holds exactly the positions at which a copy
    was placed, all of them valid, and every copy was either placed or
    reported. *)
Lemma Inject_returns_the_placed_positions
    (PlaceInject : MABE -> nat -> nat -> OrgPosition)
    (pop : nat) (org : ptr) (copy_count : nat) (st : MABE) :
  injections PlaceInject pop org copy_count 0 st ∅
    (Inject PlaceInject pop org copy_count st)
  /\ (Live st org ->
      copy_count <= 1 \/ (forall p, OrgPtr st p <> Some org) ->
      exists placement_set st',
        Inject PlaceInject pop org copy_count st = Done placement_set st')
  /\ (forall placement_set st',
        Inject PlaceInject pop org copy_count st = Done placement_set st' ->
        exists evs msgs,
          trace st' = trace st ++ evs
          /\ errors st' = errors st ++ msgs
          /\ (forall p, p ∈ placement_set <-> OnPlacement p ∈ evs)
          /\ (forall p, p ∈ placement_set -> IsValid st p = true)
          /\ placements evs + length msgs = copy_count)
  /\ (forall f st',
        Inject PlaceInject pop org copy_count st = Crash f st' ->
        f = NullDeref /\ ~ Live st' org).
Proof.
  assert (Hrounds : injections PlaceInject pop org copy_count 0 st ∅
                      (Inject PlaceInject pop org copy_count st))
    by apply Inject_loop.
  pose proof (injections_facts _ _ _ _ _ _ _ _ Hrounds) as Hfacts.
  split; [exact Hrounds|]. split; [|split].
  - intros Hlive [Hone|Hslots].
    + by eapply injections_single.
    + by eapply injections_apart.
  - intros placement_set st' Hrun. rewrite Hrun in Hfacts.
    destruct Hfacts as (evs & msgs & Htr & Herr & Hin & Hval & Hcount & _).
    exists evs, msgs.
    split; [exact Htr|]. split; [exact Herr|].
    split; [intros p; rewrite (Hin p), elem_of_empty; tauto|].
    split; [|exact Hcount].
    intros p Hp. destruct (Hval p Hp) as [[]%elem_of_empty|Hp']. exact Hp'.
  - intros f st' Hrun. by rewrite Hrun in Hfacts.
Qed.

(** *** Injection by name *)

Lemma FindEval_from_none {A} (pred : A -> bool) (v : list A) : forall i,
  (forall x, x ∈ v -> pred x = false) -> FindEval_from pred v i = (-1)%Z.
Proof.
  induction v as [|x v IH]; intros i Hnone; [done|]. simpl.
  rewrite Hnone by by left. apply IH. intros y Hy. apply Hnone. by right.
Qed.

Lemma FindEval_none {A} (pred : A -> bool) (v : list A) :
  (forall x, x ∈ v -> pred x = false) -> FindEval pred v = (-1)%Z.
Proof. intros Hnone. unfold FindEval. by rewrite FindEval_from_none. Qed.

Lemma FindEval_from_range {A} (pred : A -> bool) (v : list A) : forall i,
  FindEval_from pred v i = (-1)%Z
  \/ (i <= FindEval_from pred v i < i + Z.of_nat (length v))%Z.
Proof.
  induction v as [|x v IH]; intros i; [by left|]. cbn [FindEval_from length].
  destruct (pred x); [right; lia|].
  destruct (IH (i + 1)%Z) as [->|H]; [by left|right; lia].
Qed.

(** Below 2^31 elements the cast to [int] changes nothing. *)
Lemma FindEval_small {A} (pred : A -> bool) (v : list A) :
  (Z.of_nat (length v) <= 2 ^ 31)%Z -> FindEval pred v = FindEval_from pred v 0.
Proof.
  intros Hlen. unfold FindEval, to_int.
  destruct (FindEval_from_range pred v 0) as [->|H]; [done|].
  rewrite Z.mod_small by lia. lia.
Qed.

Lemma GetPopID_unknown (st : MABE) (name : string) :
  (forall P, P ∈ pops st -> pop_name P <> name) -> GetPopID st name = (-1)%Z.
Proof.
  intros Hnone. apply FindEval_none. intros P HP.
  apply String.eqb_neq. by apply Hnone.
Qed.

(** When no population has the name, [InjectByName] records the error and
    goes on to read [pops] at index [(size_t) -1]. *)
Lemma InjectByName_unknown_population
    (PlaceInject : MABE -> nat -> nat -> OrgPosition)
    (Make : string -> nat -> Organism * nat)
    (pop_name type_name : string) (copy_count : nat) (st : MABE) :
  GetPopID st pop_name = (-1)%Z ->
  (Z.of_nat (length (pops st)) < 2 ^ 64)%Z ->
  InjectByName PlaceInject Make pop_name type_name copy_count st
  = Crash (OutOfBounds (2 ^ 64 - 1))
      (set_errors
         (errors st ++
            ["Invalid population name used in inject: "
               +:+ "org_type= '" +:+ type_name +:+ "'; "
               +:+ "pop_name= '" +:+ pop_name +:+ "'; "
               +:+ "copy_count=" +:+ pretty copy_count]) st).
Proof.
  intros Hid Hlen. unfold InjectByName. rewrite bind_gets, Hid.
  change ((-1 =? -1)%Z) with true. cbv iota. rewrite bind_AddError.
  apply bind_Crash. unfold GetPopulation, vector_at.
  change (to_size_t (-1)) with (2 ^ 64 - 1)%Z. cbn [pops set_errors].
  rewrite (proj2 (Z.ltb_ge _ _)) by lia. done.
Qed.

(** *** The small runs *)

Section SmallRuns.
Import Scenario.
#[local] Open Scope string_scope.

(** C1.  In a run whose placement strategy turns the organism away,
    [Inject] by type name releases the instance and reports the error, yet
    returns a collection that holds the invalid position: its loop inserts
    what [InjectInstance] returns without asking whether it is valid.  The
    organism variant, on the same run, returns the empty collection (and
    in general only placed positions,
    [Inject_returns_the_placed_positions]). *)
Theorem Inject_by_type_returns_an_invalid_position :
  IsValid small_run no_position = false
  /\ Inject_type place_nowhere make_blank 0 "Bits" 1 small_run
     = Done {[ no_position ]}
         {| exit_now := false;
            errors := ["Invalid position; failed to inject organism!"];
            pops := [ {| pop_name := "main"; orgs := [0; 1] |} ];
            empty_org := Some 0;
            heap := [Some empty_organism; Some bits_organism; None];
            random := 1;
            modules := ["EmptyOrg"; "Bits"];
            trace := [OnInjectReady 2 {| manager := "Bits"; var_map := [] |} 0;
                      Released 2] |}
  /\ Inject place_nowhere 0 1 1 small_run
     = Done ∅
         {| exit_now := false;
            errors := ["Invalid position; failed to inject organism 0!"];
            pops := [ {| pop_name := "main"; orgs := [0; 1] |} ];
            empty_org := Some 0;
            heap := [Some empty_organism; Some bits_organism; None];
            random := 0;
            modules := ["EmptyOrg"; "Bits"];
            trace := [OnInjectReady 2 bits_organism 0; Released 2] |}.
Proof. split; [reflexivity|]. split; vm_compute; reflexivity. Qed.

(** C9.  When no population has the name, [InjectByName] records the
    error and then goes on to [GetPopulation(pop_id)] with [pop_id = -1],
    that is to [pops[18446744073709551615]], outside the vector: the run
    ends there ([InjectByName_unknown_population] is the general
    statement). *)
Theorem InjectByName_unknown_name_reads_out_of_bounds :
  GetPopID small_run "nowhere" = (-1)%Z
  /\ InjectByName place_nowhere make_blank "nowhere" "Bits" 1 small_run
     = Crash (OutOfBounds 18446744073709551615)
         {| exit_now := false;
            errors := ["Invalid population name used in inject: org_type= 'Bits'; pop_name= 'nowhere'; copy_count=1"];
            pops := [ {| pop_name := "main"; orgs := [0; 1] |} ];
            empty_org := Some 0;
            heap := [Some empty_organism; Some bits_organism];
            random := 0;
            modules := ["EmptyOrg"; "Bits"];
            trace := [] |}.
Proof. split; vm_compute; reflexivity. Qed.


(** An offspring installed over its parent releases the parent: the
    round of the next offspring reads a released organism.  One offspring
    alone is placed. *)
Lemma DoBirth_second_offspring_reads_the_released_parent :
  OrgPtr small_run (IteratorAt 0 1) = Some 1
  /\ DoBirth birth_onto_parent mutate_none 1 (IteratorAt 0 1) 0 1 false small_run
     = Done {[ IteratorAt 0 1 ]}
         {| exit_now := false;
            errors := [];
            pops := [ {| pop_name := "main"; orgs := [0; 2] |} ];
            empty_org := Some 0;
            heap := [Some empty_organism; None; Some bits_organism];
            random := 0;
            modules := ["EmptyOrg"; "Bits"];
            trace := [BeforeRepro (IteratorAt 0 1);
                      OnOffspringReady 2 bits_organism (IteratorAt 0 1) 0;
                      BeforePlacement 2 (IteratorAt 0 1) (IteratorAt 0 1);
                      Released 1;
                      OnPlacement (IteratorAt 0 1)] |}
  /\ DoBirth birth_onto_parent mutate_none 1 (IteratorAt 0 1) 0 2 false small_run
     = Crash NullDeref
         {| exit_now := false;
            errors := [];
            pops := [ {| pop_name := "main"; orgs := [0; 2] |} ];
            empty_org := Some 0;
            heap := [Some empty_organism; None; Some bits_organism];
            random := 0;
            modules := ["EmptyOrg"; "Bits"];
            trace := [BeforeRepro (IteratorAt 0 1);
                      OnOffspringReady 2 bits_organism (IteratorAt 0 1) 0;
                      BeforePlacement 2 (IteratorAt 0 1) (IteratorAt 0 1);
                      Released 1;
                      OnPlacement (IteratorAt 0 1)] |}.
Proof. split; [|split]; vm_compute; reflexivity. Qed.

(** X9 at work: a copy installed over the original releases it, and the
    round of the next copy reads a released organism; a copy placed
    elsewhere leaves the original to be copied again. *)
Lemma Inject_second_copy_reads_the_released_original :
  OrgPtr small_run (IteratorAt 0 1) = Some 1
  /\ Inject place_second 0 1 2 small_run
     = Crash NullDeref
         {| exit_now := false;
            errors := [];
            pops := [ {| pop_name := "main"; orgs := [0; 2] |} ];
            empty_org := Some 0;
            heap := [Some empty_organism; None; Some bits_organism];
            random := 0;
            modules := ["EmptyOrg"; "Bits"];
            trace := [OnInjectReady 2 bits_organism 0;
                      BeforePlacement 2 (IteratorAt 0 1) no_position;
                      Released 1;
                      OnPlacement (IteratorAt 0 1)] |}
  /\ Inject place_first 0 1 2 small_run
     = Done {[ IteratorAt 0 0 ]}
         {| exit_now := false;
            errors := [];
            pops := [ {| pop_name := "main"; orgs := [3; 1] |} ];
            empty_org := Some 0;
            heap := [Some empty_organism; Some bits_organism; None;
                     Some bits_organism];
            random := 0;
            modules := ["EmptyOrg"; "Bits"];
            trace := [OnInjectReady 2 bits_organism 0;
                      BeforePlacement 2 (IteratorAt 0 0) no_position;
                      OnPlacement (IteratorAt 0 0);
                      OnInjectReady 3 bits_organism 0;
                      BeforePlacement 3 (IteratorAt 0 0) no_position;
                      Released 2;
                      OnPlacement (IteratorAt 0 0)] |}.
Proof. split; [|split]; vm_compute; reflexivity. Qed.

(** C4, as stated, fails when the source is the destination: slot 1 of
    the population is occupied before the call and empty after it. *)
Lemma CopyPop_onto_itself_empties_the_population :
  IsOccupied small_run (IteratorAt 0 1) = true
  /\ exists st',
       CopyPop 0 0 small_run = Done tt st'
       /\ pops st' = [ {| pop_name := "main"; orgs := [0; 0] |} ]
       /\ IsOccupied st' (IteratorAt 0 1) = false.
Proof.
  split; [reflexivity|]. eexists. split; [vm_compute; reflexivity|].
  split; reflexivity.
Qed.

(** C3 at work: in the run of two populations, moving slot 0 of "main"
    onto its occupied slot 2. *)
Lemma MoveOrg_witness :
  exists st',
    MoveOrg (IteratorAt 0 0) (IteratorAt 0 2) two_pop_run = Done tt st'
    /\ OrgPtr st' (IteratorAt 0 0) = empty_org st'
    /\ OrgPtr st' (IteratorAt 0 2) = Some 1
    /\ trace st' = [BeforeDeath (IteratorAt 0 2) (Some 2); Released 2;
                    BeforeSwap (IteratorAt 0 0) (IteratorAt 0 2);
                    OnSwap (IteratorAt 0 0) (IteratorAt 0 2)].
Proof.
  destruct (MoveOrg_clears_target_then_swaps two_pop_run
              (IteratorAt 0 0) (IteratorAt 0 2) 0 eq_refl eq_refl eq_refl)
    as [_ (st' & Hrun & Hfrom & He & _ & Hto & Hdeath & _)].
  exists st'. split; [exact Hrun|]. split; [by rewrite Hfrom, He|].
  split; [apply Hto; discriminate|].
  apply (Hdeath 2); [reflexivity|discriminate].
Defined.

(** C5 at work: the teardown of the small run, whose module "Bits"
    listens to BeforeDeath, stops at the death of the organism in slot 1;
    the organism and the sentinel are never released. *)
Lemma teardown_witness :
  1 ∈ [1] /\ 1 < length (modules small_run)
  /\ IsOccupied small_run (IteratorAt 0 1) = true
  /\ exists st',
       MABE_destructor [1] small_run = Crash NullDeref st'
       /\ trace st' = [BeforeExit; ModuleDeleted 0; ModuleDeleted 1;
                       BeforeDeath (IteratorAt 0 1) (Some 1)]
       /\ Live st' 1 /\ Live st' 0.
Proof.
  assert (H1 : 1 ∈ [1]) by constructor.
  assert (H2 : 1 < length (modules small_run)) by (simpl; lia).
  assert (H3 : IsOccupied small_run (IteratorAt 0 1) = true) by reflexivity.
  split; [exact H1|]. split; [exact H2|]. split; [exact H3|].
  destruct (teardown_calls_the_handler_of_a_deleted_module
              [1] small_run 1 (IteratorAt 0 1) H1 H2 H3)
    as (st' & q & k & Hrun & _ & _ & _ & Hheap & _).
  exists st'. split; [exact Hrun|].
  assert (Hc : MABE_destructor [1] small_run
               = Crash NullDeref
                   (set_trace [BeforeExit; ModuleDeleted 0; ModuleDeleted 1;
                               BeforeDeath (IteratorAt 0 1) (Some 1)] small_run))
    by (vm_compute; reflexivity).
  rewrite Hc in Hrun. injection Hrun as <-.
  split; [reflexivity|].
  split; eexists; reflexivity.
Defined.

(** The small run with no listener of BeforeDeath is torn down to the
    end. *)
Lemma teardown_of_the_small_run :
  exists st',
    MABE_destructor [] small_run = Done tt st'
    /\ trace st' = [BeforeExit; ModuleDeleted 0; ModuleDeleted 1;
                    BeforeDeath (IteratorAt 0 1) (Some 1); Released 1;
                    PopulationDeleted 0; Released 0].
Proof.
  destruct (teardown_without_BeforeDeath_listeners small_run 0 eq_refl)
    as (st' & Hrun & Htr & _).
  exists st'. split; [exact Hrun|exact Htr].
Qed.

(** C4 (amended) at work: copying "main" into "next". *)
Lemma CopyPop_witness :
  exists st' dst',
    CopyPop 0 1 two_pop_run = Done tt st'
    /\ pops st' !! 1 = Some dst'
    /\ length (orgs dst') = 3
    /\ orgs dst' !! 1 = Some 0
    /\ exists q, orgs dst' !! 0 = Some q
                 /\ heap st' !! q = Some (Some bits_organism)
                 /\ q <> 1.
Proof.
  destruct (CopyPop_copies_into_distinct_population two_pop_run 0 1
              {| pop_name := "main"; orgs := [1; 0; 2] |}
              {| pop_name := "next"; orgs := [3] |} 0)
    as (st' & dst' & Hrun & _ & Hdst & Hlen & Hslots).
  - discriminate.
  - reflexivity.
  - reflexivity.
  - reflexivity.
  - by exists empty_organism.
  - intros p Hp Hne. simpl in Hp.
    apply elem_of_cons in Hp as [->|Hp]; [by eexists|].
    apply elem_of_cons in Hp as [->|Hp]; [done|].
    apply elem_of_cons in Hp as [->|Hp]; [by eexists|].
    by apply elem_of_nil in Hp.
  - intros p Hp Hq. simpl in Hq. apply elem_of_cons in Hq as [->|Hq].
    + simpl in Hp. repeat (apply elem_of_cons in Hp as [Hp|Hp]; [discriminate|]).
      by apply elem_of_nil in Hp.
    + by apply elem_of_nil in Hq.
  - exists st', dst'. split; [exact Hrun|]. split; [exact Hdst|].
    split; [exact Hlen|].
    split; [by apply (Hslots 1 0)|].
    destruct (Hslots 0 1 eq_refl) as [_ Hocc].
    destruct (Hocc ltac:(discriminate))
      as (q & o & Hq & _ & Hnotin & Ho & Hqo & _).
    exists q. split; [exact Hq|]. split.
    + rewrite Hqo. simpl in Ho. congruence.
    + intros ->. apply Hnotin. simpl. by left.
Defined.






End SmallRuns.

(* ===================================================================== *)
(** * Facts: whole populations, names and collections                  *)
(* ===================================================================== *)

Section Lookups.
#[local] Open Scope string_scope.
#[local] Open Scope list_scope.

Lemma FindEval_from_first {A} (pred : A -> bool) (pre : list A) (x : A) (post : list A) :
  forall i,
  (forall y, y ∈ pre -> pred y = false) -> pred x = true ->
  FindEval_from pred (pre ++ x :: post) i = (i + Z.of_nat (length pre))%Z.
Proof.
  induction pre as [|y pre IH]; intros i Hpre Hx; cbn.
  - rewrite Hx. lia.
  - rewrite (Hpre y) by left. rewrite IH; [lia| |done].
    intros z Hz. apply Hpre. by right.
Qed.

Lemma first_match {A} (pred : A -> bool) (v : list A) :
  (forall x, x ∈ v -> pred x = false) \/
  exists pre x post,
    v = pre ++ x :: post /\ (forall y, y ∈ pre -> pred y = false) /\ pred x = true.
Proof.
  induction v as [|x v IH].
  - left. intros y H. by apply elem_of_nil in H.
  - destruct (pred x) eqn:Hx.
    + right. exists [], x, v. split; [done|]. split; [|done].
      intros y H. by apply elem_of_nil in H.
    + destruct IH as [IH|(pre & y & post & -> & Hpre & Hy)].
      * left. intros y [->|H]%elem_of_cons; [done|by apply IH].
      * right. exists (x :: pre), y, post. split; [done|]. split; [|done].
        intros z [->|H]%elem_of_cons; [done|by apply Hpre].
Qed.

Lemma to_size_t_small (z : Z) : (0 <= z < 2 ^ 64)%Z -> to_size_t z = z.
Proof. intros H. unfold to_size_t. by apply Z.mod_small. Qed.

(** X10.  With fewer than 2^31 populations: a parameter linked by
    [LinkPop] that is set to the name of a population raises no error and
    reads back as that name; set to an unknown name, it holds -1, the
    error names the population, and reading it back indexes [pops] at
    [(size_t) -1]. *)
Theorem LinkPop_reads_back_the_name_it_was_set_to (st : MABE) (name : string) :
  (Z.of_nat (length (pops st)) < 2 ^ 31)%Z ->
  ((exists P, P ∈ pops st /\ pop_name P = name) ->
     snd (LinkPop_set st name) = None /\
     LinkPop_get (fst (LinkPop_set st name)) st = Done name st) /\
  ((forall P, P ∈ pops st -> pop_name P <> name) ->
     fst (LinkPop_set st name) = (-1)%Z /\
     snd (LinkPop_set st name)
       = Some ("Trying to access population '" +:+ name +:+ "'; does not exist.") /\
     LinkPop_get (fst (LinkPop_set st name)) st = Crash (OutOfBounds (2 ^ 64 - 1)) st).
Proof.
  intros Hlen. unfold LinkPop_set, LinkPop_get, GetPopID.
  rewrite !FindEval_small by lia. cbn [fst snd].
  set (pred := fun P => String.eqb (pop_name P) name).
  destruct (first_match pred (pops st)) as [Hnone|(pre & P & post & Hv & Hpre & HP)].
  - split.
    + intros (P & HP & Hname). specialize (Hnone P HP). unfold pred in Hnone.
      apply String.eqb_neq in Hnone. done.
    + intros _. rewrite FindEval_from_none by done.
      change ((-1 =? -1)%Z) with true. split; [done|]. split; [done|].
      apply bind_Crash. unfold GetPopulation, vector_at.
      change (to_size_t (-1)) with (2 ^ 64 - 1)%Z.
      by rewrite (proj2 (Z.ltb_ge _ _)) by lia.
  - rewrite Hv, FindEval_from_first by done. rewrite Z.add_0_l.
    assert (Hlook : pops st !! length pre = Some P) by (by rewrite Hv, list_lookup_middle).
    assert (Hname : pop_name P = name) by (by apply String.eqb_eq).
    split.
    + intros _. destruct (Z.eqb_spec (Z.of_nat (length pre)) (-1)) as [?|_]; [lia|].
      split; [done|].
      rewrite to_size_t_small.
      2:{ apply lookup_lt_Some in Hlook. lia. }
      mrun (GetPopulation_run st (length pre) P Hlook).
      mrun (GetPop_run st (length pre) P Hlook). by rewrite Hname.
    + intros Hnone. exfalso. apply (Hnone P); [|done].
      apply elem_of_app. right. left.
Qed.

(** X11.  With fewer than 2^31 modules: reading a [LinkModule] parameter
    that was set to a name is [GetModule] of that name; [GetModule] of a
    registered name returns that module and the setter raises no error;
    for a name that is not registered, [GetModuleID] is -1 and
    [GetModule] indexes [modules] at [(size_t) -1], and so does [Inject]
    by a type name that is not registered. *)
Theorem GetModule_finds_a_registered_name_or_reads_out_of_bounds
    (PlaceInject : MABE -> nat -> nat -> OrgPosition)
    (Make : string -> nat -> Organism * nat)
    (st : MABE) (mod_name : string) :
  (Z.of_nat (length (modules st)) < 2 ^ 31)%Z ->
  LinkModule_get (fst (LinkModule_set st mod_name)) st = GetModule mod_name st /\
  (mod_name ∈ modules st ->
     GetModule mod_name st = Done mod_name st /\
     snd (LinkModule_set st mod_name) = None) /\
  (mod_name ∉ modules st ->
     GetModuleID st mod_name = (-1)%Z /\
     GetModule mod_name st = Crash (OutOfBounds (2 ^ 64 - 1)) st /\
     forall pop copy_count,
       Inject_type PlaceInject Make pop mod_name copy_count st
       = Crash (OutOfBounds (2 ^ 64 - 1)) st).
Proof.
  intros Hlen. split; [done|].
  unfold LinkModule_set, GetModule, GetModuleID.
  rewrite !FindEval_small by lia. cbn [fst snd].
  set (pred := fun m => String.eqb m mod_name).
  destruct (first_match pred (modules st)) as [Hnone|(pre & m & post & Hv & Hpre & Hm)].
  - split.
    + intros Hin. specialize (Hnone _ Hin). unfold pred in Hnone.
      by rewrite String.eqb_refl in Hnone.
    + intros _. rewrite FindEval_from_none by done. split; [done|].
      change (to_size_t (-1)) with (2 ^ 64 - 1)%Z. unfold vector_at.
      rewrite (proj2 (Z.ltb_ge _ _)) by lia. split; [done|].
      intros pop copy_count. unfold Inject_type. apply bind_Crash.
      unfold GetModule, GetModuleID. rewrite FindEval_small by lia. fold pred.
      rewrite FindEval_from_none by done.
      change (to_size_t (-1)) with (2 ^ 64 - 1)%Z. unfold vector_at.
      by rewrite (proj2 (Z.ltb_ge _ _)) by lia.
  - assert (Hname : m = mod_name) by (by apply String.eqb_eq).
    assert (Hlook : modules st !! length pre = Some m)
      by (by rewrite Hv, list_lookup_middle).
    split.
    + intros _. rewrite Hv, FindEval_from_first by done. rewrite Z.add_0_l.
      rewrite <- Hv. rewrite to_size_t_small.
      2:{ apply lookup_lt_Some in Hlook. lia. }
      unfold vector_at. rewrite (proj2 (Z.ltb_lt _ _)).
      2:{ apply lookup_lt_Some in Hlook. lia. }
      rewrite Nat2Z.id, Hlook, Hname. split; [done|].
      by destruct (Z.eqb_spec (Z.of_nat (length pre)) (-1)) as [?|_]; [lia|].
    + intros Hnot. exfalso. apply Hnot. rewrite Hv, <- Hname.
      apply elem_of_app. right. left.
Qed.

End Lookups.

Section Populations.
#[local] Open Scope string_scope.
#[local] Open Scope list_scope.

Lemma FindEval_snoc {A} (pred : A -> bool) (v : list A) (x : A) :
  (Z.of_nat (length v) < 2 ^ 31)%Z ->
  FindEval pred (v ++ [x])
  = if decide (FindEval pred v = (-1)%Z)
    then (if pred x then Z.of_nat (length v) else (-1)%Z)
    else FindEval pred v.
Proof.
  intros Hlen. rewrite !FindEval_small by (rewrite ?length_app; cbn; lia).
  destruct (first_match pred v) as [Hnone|(pre & y & post & -> & Hpre & Hy)].
  - rewrite (FindEval_from_none pred v 0 Hnone). rewrite decide_True by done.
    destruct (pred x) eqn:Hx.
    + by rewrite FindEval_from_first.
    + apply FindEval_from_none. intros z [Hz|Hz]%elem_of_app; [by apply Hnone|].
      apply list_elem_of_singleton in Hz. by subst.
  - rewrite <- app_assoc. cbn [app]. rewrite !FindEval_from_first by done.
    rewrite decide_False by lia. done.
Qed.

(** X12.  [AddPopulation] to fewer than 2^31 populations, with no slots
    or with the sentinel in place:
    the new population goes behind the others, which stay where they are;
    it has the name and the size asked for, and every slot of it is
    empty.  [GetPopID] finds it by its name unless an older population
    has that name already, and finds every other name as before. *)
Theorem AddPopulation_is_found_by_name_unless_the_name_is_taken
    (st : MABE) (name : string) (pop_size : nat) :
  (Z.of_nat (length (pops st)) < 2 ^ 31)%Z ->
  pop_size = 0 \/ is_Some (empty_org st) ->
  exists st' P,
    AddPopulation name pop_size st = Done (length (pops st)) st' /\
    GetNumPopulations st' = S (GetNumPopulations st) /\
    (forall i Q, pops st !! i = Some Q -> pops st' !! i = Some Q) /\
    pops st' !! length (pops st) = Some P /\
    pop_name P = name /\ length (orgs P) = pop_size /\
    (forall i, i < pop_size ->
       IsEmpty st' (IteratorAt (length (pops st)) i) = true) /\
    (forall n, GetPopID st' n
               = if decide (GetPopID st n = (-1)%Z)
                 then (if decide (n = name) then Z.of_nat (length (pops st))
                       else (-1)%Z)
                 else GetPopID st n).
Proof.
  intros Hmany Hsize. unfold AddPopulation. rewrite bind_gets.
  assert (exists P, NewPopulation name (to_int (Z.of_nat (length (pops st)))) pop_size st
                    = Done P st /\
                    pop_name P = name /\ length (orgs P) = pop_size /\
                    forall i, i < pop_size -> exists e,
                      orgs P !! i = Some e /\ empty_org st = Some e)
    as (P & HP & Hname & Hlen & Hslots).
  { unfold NewPopulation. destruct pop_size as [|k].
    - eexists. split; [done|]. split; [done|]. split; [done|]. intros i Hi. lia.
    - destruct Hsize as [?|[e He]]; [done|].
      mrun (GetEmpty_run st e He). eexists. split; [done|]. split; [done|].
      split; [cbn [orgs]; by rewrite length_replicate|].
      intros i Hi. exists e. split; [|done]. cbn [orgs].
      by apply lookup_replicate_2. }
  mrun HP. rewrite bind_gets, bind_modify. unfold ret.
  eexists _, P. split; [done|]. unfold GetNumPopulations. norm_state.
  split; [rewrite length_app; cbn; lia|].
  split; [intros i Q HQ; by apply lookup_app_l_Some|].
  split; [by rewrite lookup_snoc_new|].
  split; [done|]. split; [done|]. split.
  - intros i Hi. destruct (Hslots i Hi) as (e & He1 & He2).
    unfold IsEmpty, OrgPtr. norm_state. cbn [IteratorAt pop_ptr pos].
    rewrite lookup_snoc_new, He1. unfold is_sentinel. norm_state.
    by apply bool_decide_eq_true_2.
  - intros n. unfold GetPopID. norm_state. rewrite FindEval_snoc by done.
    destruct (decide _); [|done]. rewrite Hname.
    destruct (String.eqb_spec name n) as [->|Hne].
    + by rewrite decide_True.
    + by rewrite decide_False.
Qed.

End Populations.

Section Collections.
#[local] Open Scope string_scope.
#[local] Open Scope list_scope.

Variable view_slices : string -> list string.

Lemma GetPopID_found (st : MABE) (name : string) :
  (Z.of_nat (length (pops st)) < 2 ^ 31)%Z ->
  GetPopID st name <> (-1)%Z ->
  exists id P, GetPopID st name = Z.of_nat id /\ pops st !! id = Some P
               /\ pop_name P = name.
Proof.
  intros Hlen. unfold GetPopID. rewrite FindEval_small by lia.
  set (pred := fun P => String.eqb (pop_name P) name).
  destruct (first_match pred (pops st)) as [Hnone|(pre & P & post & Hv & Hpre & HP)].
  - by rewrite FindEval_from_none.
  - intros _. rewrite Hv, FindEval_from_first by done. rewrite Z.add_0_l.
    exists (length pre), P. split; [done|]. split; [by rewrite list_lookup_middle|].
    by apply String.eqb_eq.
Qed.

Lemma GetPopID_set_errors (st : MABE) (es : list string) (name : string) :
  GetPopID (set_errors es st) name = GetPopID st name.
Proof. done. Qed.

Lemma ToCollection_body_unknown (name : string) (out : Collection) (st : MABE) :
  GetPopID st name = (-1)%Z ->
  ToCollection_body name out st
  = Done out (set_errors (errors st ++ ["Unknown population: " +:+ name]) st).
Proof.
  intros Hid. unfold ToCollection_body. rewrite bind_gets, Hid.
  change ((-1 =? -1)%Z) with true. cbv iota. by rewrite bind_AddError.
Qed.

Lemma ToCollection_body_known (name : string) (out : Collection) (st : MABE)
    (id : nat) (P : Population) :
  (Z.of_nat (length (pops st)) < 2 ^ 31)%Z ->
  GetPopID st name = Z.of_nat id -> pops st !! id = Some P ->
  ToCollection_body name out st
  = Done (list_to_set (IteratorAt id <$> seq 0 (length (orgs P))) ∪ out) st.
Proof.
  intros Hlen Hid HP. unfold ToCollection_body. rewrite bind_gets, Hid.
  destruct (Z.eqb_spec (Z.of_nat id) (-1)) as [?|_]; [lia|].
  rewrite to_size_t_small by (apply lookup_lt_Some in HP; lia).
  mrun (GetPopulation_run st id P HP).
  unfold Insert_pop. by mrun (GetSize_run st id P HP).
Qed.

Lemma ToCollection_loop (names : list string) : forall (out : Collection) (st : MABE),
  (Z.of_nat (length (pops st)) < 2 ^ 31)%Z ->
  exists c : Collection,
    for_each names ToCollection_body out st
    = Done c (set_errors
                (errors st ++
                   ((fun name => "Unknown population: " +:+ name) <$>
                      filter (fun name => GetPopID st name = (-1)%Z) names)) st)
    /\ forall p, p ∈ c <->
         p ∈ out \/ (IsValid st p = true /\
                     exists name id, name ∈ names /\ pop_ptr p = Some id
                                     /\ GetPopID st name = Z.of_nat id).
Proof.
  induction names as [|name names IH]; intros out st Hlen.
  - exists out. cbn [for_each filter fmap list_fmap]. split.
    + unfold ret. rewrite app_nil_r. by destruct st.
    + intros p. split; [by left|]. intros [?|(_ & n & id & Hn & _)]; [done|].
      by apply elem_of_nil in Hn.
  - cbn [for_each].
    destruct (decide (GetPopID st name = (-1)%Z)) as [Hid|Hid].
    + mrun (ToCollection_body_unknown name out st Hid).
      destruct (IH out (set_errors (errors st ++ ["Unknown population: " +:+ name]) st))
        as (c & Hrun & Hc); [done|].
      exists c. split.
      * rewrite Hrun. rewrite filter_cons, decide_True by done.
        cbn [fmap list_fmap]. norm_state. by rewrite <- app_assoc.
      * intros p. rewrite Hc.
        split; (intros [?|(Hv & n & id & Hn & Hp & Hg)]; [by left|right]).
        -- split; [done|]. exists n, id. split; [by right|done].
        -- split; [done|]. exists n, id. split; [|done].
           apply elem_of_cons in Hn as [->|Hn]; [|done].
           rewrite Hid in Hg. lia.
    + destruct (GetPopID_found st name Hlen Hid) as (id & P & Hg & HP & Hname).
      mrun (ToCollection_body_known name out st id P Hlen Hg HP).
      destruct (IH (list_to_set (IteratorAt id <$> seq 0 (length (orgs P))) ∪ out) st)
        as (c & Hrun & Hc); [done|].
      exists c. split.
      * rewrite Hrun. by rewrite filter_cons, decide_False by done.
      * intros p. rewrite Hc. rewrite elem_of_union, elem_of_list_to_set.
        rewrite list_elem_of_fmap. setoid_rewrite elem_of_seq.
        split.
        -- intros [[(i & -> & Hi)|?]|(Hv & n & id' & Hn & Hp & Hg')].
           ++ right. split.
              ** unfold IsValid. cbn. rewrite HP. apply bool_decide_eq_true_2. lia.
              ** exists name, id. split; [left|done].
           ++ by left.
           ++ right. split; [done|]. exists n, id'. split; [by right|done].
        -- intros [?|(Hv & n & id' & Hn & Hp & Hg')]; [left; by right|].
           apply elem_of_cons in Hn as [->|Hn].
           ++ left. left. rewrite Hg in Hg'. apply Nat2Z.inj in Hg' as <-.
              exists (pos p). split.
              ** destruct p as [pp i]. cbn in *. by subst.
              ** unfold IsValid in Hv. rewrite Hp, HP in Hv.
                 apply bool_decide_eq_true in Hv. lia.
           ++ right. split; [done|]. exists n, id'. done.
Qed.

(** X13.  With fewer than 2^31 populations, [ToCollection] returns for
    every list of names: the collection holds exactly the valid positions
    of the populations that the names of the list find, and one error is
    reported for every name that finds none, in the order of the list;
    nothing else of the state changes. *)
Theorem ToCollection_collects_known_populations_and_reports_the_rest
    (load_str : string) (st : MABE) :
  (Z.of_nat (length (pops st)) < 2 ^ 31)%Z ->
  exists c : Collection,
    ToCollection view_slices load_str st
    = Done c (set_errors
                (errors st ++
                   ((fun name => "Unknown population: " +:+ name) <$>
                      filter (fun name => GetPopID st name = (-1)%Z)
                             (view_slices load_str))) st)
    /\ forall p, p ∈ c <->
         IsValid st p = true /\
         exists name id, name ∈ view_slices load_str /\ pop_ptr p = Some id
                         /\ GetPopID st name = Z.of_nat id.
Proof.
  intros Hlen.
  destruct (ToCollection_loop (view_slices load_str) ∅ st Hlen) as (c & Hrun & Hc).
  exists c. split; [exact Hrun|]. intros p. rewrite Hc. set_solver.
Qed.

End Collections.

Section Moving.
#[local] Open Scope list_scope.

Lemma ResizePop_run_grow (st : MABE) (pop new_size : nat) (P : Population) (e : nat) :
  pops st !! pop = Some P -> empty_org st = Some e ->
  length (orgs P) <= new_size ->
  ResizePop pop new_size st
  = Done tt
      {| exit_now := exit_now st; errors := errors st;
         pops := <[pop := {| pop_name := pop_name P;
                             orgs := orgs P ++ replicate (new_size - length (orgs P)) e |}]>
                   (pops st);
         empty_org := empty_org st; heap := heap st;
         random := random st; modules := modules st;
         trace := trace st ++ [BeforePopResize pop new_size;
                               OnPopResize pop (length (orgs P))] |}.
Proof.
  intros HP He Hle. unfold ResizePop. rewrite bind_Trigger.
  set (st1 := set_trace _ st).
  mrun (GetPop_run st1 pop P HP).
  rewrite bool_decide_eq_true_2 by done.
  destruct (bool_decide (length (orgs P) = new_size)) eqn:Heq.
  - apply bool_decide_eq_true in Heq. subst new_size.
    rewrite bind_ret. unfold Trigger, modify, st1. norm_state.
    rewrite Nat.sub_diag. cbn [replicate]. rewrite app_nil_r.
    assert ({| pop_name := pop_name P; orgs := orgs P |} = P) as -> by by destruct P.
    rewrite list_insert_id by done. by rewrite <- app_assoc.
  - unfold bind at 1. unfold bind at 1.
    rewrite (GetEmpty_run st1 e He).
    unfold Trigger, modify, st1. norm_state. by rewrite <- app_assoc.
Qed.

Lemma release_all_replicate (e : nat) (n : nat) (h : list (option Organism)) :
  release_all e (replicate n e) h = h.
Proof.
  unfold release_all. induction n as [|n IH]; [done|].
  cbn [replicate foldl]. by rewrite decide_True.
Qed.

Lemma clear_events_replicate (e pop : nat) (n : nat) : forall i,
  clear_events e pop i (replicate n e) = [].
Proof.
  induction n as [|n IH]; intros i; [done|].
  cbn [replicate clear_events]. rewrite decide_True by done. apply IH.
Qed.

Lemma MoveOrgs_body_empty (from_pop to_pop it_to i : nat) (st : MABE) (e : nat) :
  empty_org st = Some e ->
  OrgPtr st (IteratorAt from_pop i) = Some e ->
  MoveOrgs_body from_pop to_pop it_to i st = Done tt st.
Proof.
  intros He Hfrom. unfold MoveOrgs_body. rewrite bind_gets. unfold IsOccupied.
  rewrite Hfrom, (is_sentinel_spec st e e He).
  by rewrite bool_decide_eq_true_2.
Qed.

Lemma MoveOrgs_body_occupied (from_pop to_pop it_to i : nat) (st : MABE) (q e : nat) :
  empty_org st = Some e -> q <> e ->
  OrgPtr st (IteratorAt from_pop i) = Some q ->
  OrgPtr st (IteratorAt to_pop (it_to + i)) = Some e ->
  MoveOrgs_body from_pop to_pop it_to i st
  = Done tt
      {| exit_now := exit_now st; errors := errors st;
         pops := set_slot (IteratorAt to_pop (it_to + i)) q
                   (set_slot (IteratorAt from_pop i) e (pops st));
         empty_org := empty_org st; heap := heap st;
         random := random st; modules := modules st;
         trace := trace st ++ [BeforeSwap (IteratorAt from_pop i)
                                          (IteratorAt to_pop (it_to + i));
                               OnSwap (IteratorAt from_pop i)
                                      (IteratorAt to_pop (it_to + i))] |}.
Proof.
  intros He Hqe Hfrom Hto. unfold MoveOrgs_body. rewrite bind_gets. unfold IsOccupied at 1.
  rewrite Hfrom, (is_sentinel_spec st q e He).
  rewrite bool_decide_eq_false_2 by done. cbn [negb].
  unfold MoveOrg.
  assert (Hocc : IsOccupied st (IteratorAt to_pop (it_to + i)) = false).
  { unfold IsOccupied. rewrite Hto, (is_sentinel_spec st e e He).
    by rewrite bool_decide_eq_true_2. }
  mrun (ClearOrgAt_empty st _ Hocc).
  apply (SwapOrgs_run st _ _ q e Hfrom Hto).
Qed.

Lemma MoveOrgs_loop (e from_pop to_pop it_to : nat) :
  forall (rest : list nat) (i : nat) (st : MABE) (F T : Population),
  from_pop <> to_pop -> empty_org st = Some e ->
  pops st !! from_pop = Some F -> pops st !! to_pop = Some T ->
  drop i (orgs F) = rest ->
  (forall j, j < length rest -> orgs T !! (it_to + i + j) = Some e) ->
  exists st',
    for_loop (length rest) i (fun i _ => MoveOrgs_body from_pop to_pop it_to i) tt st
    = Done tt st'
    /\ pops st' !! from_pop
       = Some {| pop_name := pop_name F;
                 orgs := take i (orgs F) ++ replicate (length rest) e |}
    /\ pops st' !! to_pop
       = Some {| pop_name := pop_name T;
                 orgs := take (it_to + i) (orgs T) ++ rest
                           ++ drop (it_to + i + length rest) (orgs T) |}
    /\ (forall k, k <> from_pop -> k <> to_pop -> pops st' !! k = pops st !! k)
    /\ empty_org st' = empty_org st /\ heap st' = heap st
    /\ errors st' = errors st
    /\ trace st' = trace st ++ move_events e from_pop to_pop it_to i rest.
Proof.
  induction rest as [|q rest IH]; intros i st F T Hne He HF HT Hdrop Hfree.
  - exists st. cbn [for_loop length replicate move_events app]. split; [done|].
    rewrite !app_nil_r. rewrite Nat.add_0_r.
    rewrite take_ge.
    2:{ apply (f_equal length) in Hdrop. rewrite length_drop in Hdrop.
        simpl in Hdrop. lia. }
    rewrite take_drop.
    split; [by destruct F|]. split; [by destruct T|]. done.
  - assert (Hq : orgs F !! i = Some q).
    { pose proof (lookup_drop (orgs F) i 0) as H.
      rewrite Hdrop, Nat.add_0_r in H. by simpl in H. }
    assert (Hrest : drop (S i) (orgs F) = rest).
    { replace (S i) with (i + 1) by lia. by rewrite <- drop_drop, Hdrop. }
    assert (Hfrom : OrgPtr st (IteratorAt from_pop i) = Some q).
    { unfold OrgPtr. simpl. by rewrite HF. }
    assert (Hslot : orgs T !! (it_to + i) = Some e).
    { specialize (Hfree 0 ltac:(cbn; lia)). by rewrite Nat.add_0_r in Hfree. }
    assert (Hto : OrgPtr st (IteratorAt to_pop (it_to + i)) = Some e).
    { unfold OrgPtr. simpl. by rewrite HT. }
    cbn [for_loop length].
    destruct (decide (q = e)) as [->|Hqe].
    + mrun (MoveOrgs_body_empty from_pop to_pop it_to i st e He Hfrom).
      destruct (IH (S i) st F T Hne He HF HT Hrest) as (st' & Hrun & H1 & H2 & H3 & H4).
      { intros j Hj. specialize (Hfree (S j) ltac:(cbn; lia)).
        by replace (it_to + S i + j) with (it_to + i + S j) by lia. }
      exists st'. split; [exact Hrun|].
      cbn [move_events replicate]. rewrite decide_True by done.
      split.
      { rewrite H1. by rewrite (take_S_r _ _ _ Hq), <- app_assoc. }
      split; [|done].
      rewrite H2. f_equal. f_equal.
      replace (it_to + S i) with (S (it_to + i)) by lia.
      rewrite (take_S_r _ _ _ Hslot), <- app_assoc. cbn [app length].
      by replace (it_to + i + S (length rest)) with (S (it_to + i) + length rest) by lia.
    + mrun (MoveOrgs_body_occupied from_pop to_pop it_to i st q e He Hqe Hfrom Hto).
      match goal with |- exists _, for_loop _ _ _ _ ?s = _ /\ _ => set (st1 := s) end.
      pose (F1 := {| pop_name := pop_name F; orgs := <[i := e]> (orgs F) |}).
      pose (T1 := {| pop_name := pop_name T; orgs := <[it_to + i := q]> (orgs T) |}).
      assert (HF1 : pops st1 !! from_pop = Some F1).
      { unfold st1. cbn [pops]. unfold set_slot. simpl.
        rewrite list_lookup_alter_ne by done.
        by rewrite list_lookup_alter_eq, HF. }
      assert (HT1 : pops st1 !! to_pop = Some T1).
      { unfold st1. cbn [pops]. unfold set_slot. simpl.
        rewrite list_lookup_alter_eq. rewrite list_lookup_alter_ne by done.
        by rewrite HT. }
      assert (Hother : forall k, k <> from_pop -> k <> to_pop ->
                                 pops st1 !! k = pops st !! k).
      { intros k Hk1 Hk2. unfold st1. cbn [pops]. unfold set_slot. simpl.
        by rewrite !list_lookup_alter_ne by done. }
      destruct (IH (S i) st1 F1 T1 Hne He HF1 HT1) as (st' & Hrun & H1 & H2 & H3 & H4 & H5 & H6 & H7).
      { unfold F1. simpl orgs. by rewrite drop_insert_lt by lia. }
      { intros j Hj. unfold T1. simpl orgs.
        rewrite list_lookup_insert_ne by lia.
        specialize (Hfree (S j) ltac:(cbn; lia)).
        by replace (it_to + S i + j) with (it_to + i + S j) by lia. }
      exists st'. split; [exact Hrun|].
      cbn [move_events replicate]. rewrite decide_False by done.
      split.
      { rewrite H1. unfold F1. simpl pop_name. simpl orgs. f_equal. f_equal.
        erewrite take_S_r.
        2:{ apply list_lookup_insert_eq. by eapply lookup_lt_Some. }
        rewrite take_insert_ge by lia. by rewrite <- app_assoc. }
      split.
      { rewrite H2. unfold T1. simpl pop_name. simpl orgs. f_equal. f_equal.
        replace (it_to + S i) with (S (it_to + i)) by lia.
        erewrite take_S_r.
        2:{ apply list_lookup_insert_eq. by eapply lookup_lt_Some. }
        rewrite take_insert_ge by lia. rewrite <- app_assoc. cbn [app length].
        rewrite drop_insert_lt by lia.
        by replace (it_to + i + S (length rest)) with (S (it_to + i) + length rest)
          by lia. }
      split; [intros k Hk1 Hk2; rewrite H3 by done; by apply Hother|].
      split; [done|]. split; [done|]. split; [done|].
      rewrite H7. unfold st1. norm_state. by rewrite <- app_assoc.
Qed.

(** X14.  [MoveOrgs] between two different populations, with the sentinel
    in place: the slots of the source arrive in their order, empty ones
    too, behind the slots of the destination, or in place of them when
    [reset_to] is set, in which case the organisms that were there are
    released; the source is left with no slot, the other populations are
    not touched, no error is reported, and the signals fire in the order
    given. *)
Theorem MoveOrgs_moves_the_organisms_and_empties_the_source
    (st : MABE) (from_pop to_pop : nat) (reset_to : bool)
    (F T : Population) (e : nat) :
  from_pop <> to_pop ->
  pops st !! from_pop = Some F -> pops st !! to_pop = Some T ->
  empty_org st = Some e ->
  exists st',
    MoveOrgs from_pop to_pop reset_to st = Done tt st'
    /\ pops st' !! from_pop = Some {| pop_name := pop_name F; orgs := [] |}
    /\ pops st' !! to_pop
       = Some {| pop_name := pop_name T;
                 orgs := (if reset_to then [] else orgs T) ++ orgs F |}
    /\ (forall k, k <> from_pop -> k <> to_pop -> pops st' !! k = pops st !! k)
    /\ heap st' = (if reset_to then release_all e (orgs T) (heap st) else heap st)
    /\ errors st' = errors st
    /\ trace st'
       = trace st
           ++ (if reset_to
               then clear_events e to_pop 0 (orgs T)
                      ++ [BeforePopResize to_pop (length (orgs F));
                          OnPopResize to_pop (length (orgs T))]
               else [BeforePopResize to_pop (length (orgs T) + length (orgs F));
                     OnPopResize to_pop (length (orgs T))])
           ++ move_events e from_pop to_pop
                (if reset_to then 0 else length (orgs T)) 0 (orgs F)
           ++ [BeforePopResize from_pop 0; OnPopResize from_pop (length (orgs F))].
Proof.
  intros Hne HF HT He. unfold MoveOrgs.
  mrun (GetSize_run st to_pop T HT). mrun (GetSize_run st from_pop F HF).
  set (it_to := if reset_to then 0 else length (orgs T)).
  set (base := if reset_to then [] else orgs T).
  pose (T1 := {| pop_name := pop_name T;
                 orgs := base ++ replicate (length (orgs F)) e |}).
  assert (exists st1,
            (if reset_to then EmptyPop to_pop (length (orgs F))
             else ResizePop to_pop (length (orgs T) + length (orgs F))) st = Done tt st1
            /\ pops st1 = <[to_pop := T1]> (pops st)
            /\ empty_org st1 = Some e
            /\ heap st1 = (if reset_to then release_all e (orgs T) (heap st) else heap st)
            /\ errors st1 = errors st
            /\ trace st1
               = trace st
                   ++ (if reset_to
                       then clear_events e to_pop 0 (orgs T)
                              ++ [BeforePopResize to_pop (length (orgs F));
                                  OnPopResize to_pop (length (orgs T))]
                       else [BeforePopResize to_pop (length (orgs T) + length (orgs F));
                             OnPopResize to_pop (length (orgs T))]))
    as (st1 & Hprep & Hpops1 & He1 & Hheap1 & Herr1 & Htr1).
  { unfold T1, base. destruct reset_to.
    - rewrite (EmptyPop_run st to_pop _ T e HT He). eexists. split; [done|].
      norm_state. done.
    - rewrite (ResizePop_run_grow st to_pop _ T e HT He) by lia. eexists. split; [done|].
      norm_state.
      by replace (length (orgs T) + length (orgs F) - length (orgs T))
        with (length (orgs F)) by lia. }
  mrun Hprep.
  assert (HF1 : pops st1 !! from_pop = Some F)
    by (by rewrite Hpops1, list_lookup_insert_ne).
  assert (HT1 : pops st1 !! to_pop = Some T1).
  { rewrite Hpops1. apply list_lookup_insert_eq. by eapply lookup_lt_Some. }
  mrun (GetSize_run st1 from_pop F HF1).
  assert (Hit : length base = it_to) by (unfold base, it_to; by destruct reset_to).
  destruct (MoveOrgs_loop e from_pop to_pop it_to (orgs F) 0 st1 F T1 Hne He1 HF1 HT1)
    as (st2 & Hloop & HF2 & HT2 & Hother2 & He2 & Hheap2 & Herr2 & Htr2).
  { apply drop_0. }
  { intros j Hj. unfold T1. cbn [orgs]. rewrite Nat.add_0_r.
    rewrite lookup_app_r by lia. apply lookup_replicate_2. lia. }
  mrun Hloop. rewrite take_0 in HF2. cbn [app] in HF2.
  rewrite (EmptyPop_run st2 from_pop 0 _ e HF2) by (by rewrite He2).
  eexists. split; [done|]. norm_state. cbn [orgs pop_name replicate].
  split.
  { apply list_lookup_insert_eq. by eapply lookup_lt_Some. }
  split.
  { rewrite list_lookup_insert_ne by done. rewrite HT2. unfold T1. cbn [orgs pop_name].
    f_equal. f_equal. rewrite Nat.add_0_r.
    rewrite <- Hit, take_app_length.
    rewrite drop_ge by (rewrite length_app, length_replicate; lia).
    by rewrite app_nil_r. }
  split.
  { intros k Hk1 Hk2. rewrite list_lookup_insert_ne by done.
    rewrite Hother2 by done. rewrite Hpops1. by rewrite list_lookup_insert_ne. }
  split.
  { rewrite release_all_replicate. by rewrite Hheap2. }
  split; [by rewrite Herr2|].
  rewrite clear_events_replicate. cbn [app]. rewrite length_replicate.
  rewrite Htr2, Htr1. by rewrite <- !app_assoc.
Qed.

End Moving.

Section Clearing.
#[local] Open Scope list_scope.

(** X15.  [ClearPop], with the sentinel in place: the population keeps
    its size and every slot of it is empty afterwards; every organism it
    held is released, each after its [BeforeDeath]; the other populations
    are not touched; and clearing once more changes nothing. *)
Theorem ClearPop_kills_every_occupant_and_is_idempotent
    (st : MABE) (pop : nat) (P : Population) (e : nat) :
  pops st !! pop = Some P -> empty_org st = Some e ->
  exists st',
    ClearPop pop st = Done tt st'
    /\ pops st' !! pop = Some (cleared e P)
    /\ (forall i, i < length (orgs P) -> IsEmpty st' (IteratorAt pop i) = true)
    /\ (forall k, k <> pop -> pops st' !! k = pops st !! k)
    /\ (forall q, q ∈ orgs P -> q <> e -> dead (heap st') q)
    /\ trace st' = trace st ++ clear_events e pop 0 (orgs P)
    /\ ClearPop pop st' = Done tt st'.
Proof.
  intros HP He. rewrite (ClearPop_run e pop st P HP He).
  eexists. split; [done|].
  match goal with |- pops ?s !! _ = _ /\ _ => set (st' := s) end.
  assert (HP' : pops st' !! pop = Some (cleared e P)).
  { unfold st'. norm_state. apply list_lookup_insert_eq. by eapply lookup_lt_Some. }
  split; [done|]. split.
  { intros i Hi. unfold IsEmpty, OrgPtr. cbn [IteratorAt pop_ptr pos]. rewrite HP'.
    unfold cleared. cbn [orgs]. rewrite lookup_replicate_2 by done.
    unfold is_sentinel, st'. norm_state. by apply bool_decide_eq_true_2. }
  split.
  { intros k Hk. unfold st'. norm_state. by rewrite list_lookup_insert_ne. }
  split.
  { intros q Hq Hne. unfold st'. norm_state. by apply release_all_dead. }
  split; [done|].
  rewrite (ClearPop_run e pop st' (cleared e P) HP' He).
  change (orgs (cleared e P)) with (replicate (length (orgs P)) e).
  rewrite release_all_replicate, clear_events_replicate, app_nil_r.
  assert (cleared e (cleared e P) = cleared e P) as ->.
  { unfold cleared. cbn [orgs pop_name]. by rewrite length_replicate. }
  rewrite list_insert_id by done. done.
Qed.

(** X16.  [EmptyPop], with the sentinel in place: the population ends
    with [new_size] empty slots; every organism it held is released
    before the resize signals fire, so that [BeforePopResize] carries the
    new size and [OnPopResize] the old one after the last death. *)
Theorem EmptyPop_clears_before_it_resizes
    (st : MABE) (pop new_size : nat) (P : Population) (e : nat) :
  pops st !! pop = Some P -> empty_org st = Some e ->
  exists st',
    EmptyPop pop new_size st = Done tt st'
    /\ pops st' !! pop = Some {| pop_name := pop_name P; orgs := replicate new_size e |}
    /\ (forall k, k <> pop -> pops st' !! k = pops st !! k)
    /\ (forall q, q ∈ orgs P -> q <> e -> dead (heap st') q)
    /\ trace st' = trace st ++ clear_events e pop 0 (orgs P)
                     ++ [BeforePopResize pop new_size;
                         OnPopResize pop (length (orgs P))].
Proof.
  intros HP He. rewrite (EmptyPop_run st pop new_size P e HP He).
  eexists. split; [done|]. norm_state.
  split; [apply list_lookup_insert_eq; by eapply lookup_lt_Some|].
  split; [intros k Hk; by rewrite list_lookup_insert_ne|].
  split; [|done]. intros q Hq Hne. by apply release_all_dead.
Qed.

End Clearing.

Section InjectingInstances.
#[local] Open Scope string_scope.
#[local] Open Scope list_scope.
Variable PlaceInject : MABE -> nat -> nat -> OrgPosition.

(** X17.  [InjectInstance] of a live instance fires [OnInjectReady] and
    returns the position that [PlaceInject] chose.  When the position is
    valid the instance is installed there and the organism that was
    there, unless it is the sentinel, is released, with no error; when it
    is not valid, the populations are as before, the instance is
    released and one error is reported. *)
Theorem InjectInstance_installs_or_releases_the_instance
    (st : MABE) (pop : nat) (org_ptr : nat) (v : Organism) :
  heap st !! org_ptr = Some (Some v) ->
  let ready := set_trace (trace st ++ [OnInjectReady org_ptr v pop]) st in
  let pos := PlaceInject ready pop org_ptr in
  exists st',
    InjectInstance PlaceInject pop org_ptr st = Done pos st'
    /\ (IsValid st pos = true ->
          OrgPtr st' pos = Some org_ptr
          /\ errors st' = errors st
          /\ exists old, OrgPtr st pos = Some old
               /\ heap st' = (if is_sentinel st old then heap st
                              else <[old := None]> (heap st))
               /\ trace st' = trace ready
                                ++ [BeforePlacement org_ptr pos no_position]
                                ++ (if is_sentinel st old then [] else [Released old])
                                ++ [OnPlacement pos])
    /\ (IsValid st pos = false ->
          pops st' = pops st
          /\ heap st' !! org_ptr = Some None
          /\ errors st' = errors st ++ ["Invalid position; failed to inject organism!"]
          /\ trace st' = trace ready ++ [Released org_ptr]).
Proof.
  intros Hv. cbn zeta. unfold InjectInstance.
  mrun (Trigger_OnInjectReady_run st org_ptr v pop Hv).
  set (ready := set_trace _ st). rewrite !bind_gets.
  set (pos := PlaceInject ready pop org_ptr).
  change (IsValid ready pos) with (IsValid st pos).
  destruct (IsValid st pos) eqn:Hpos; cbv beta iota.
  - destruct (proj1 (IsValid_OrgPtr st pos) Hpos) as [old Hold].
    assert (Hold' : OrgPtr ready pos = Some old) by exact Hold.
    mrun (AddOrgAt_run ready org_ptr pos no_position old Hold'). unfold ret.
    eexists. split; [done|]. split; [|done]. intros _.
    split.
    { match goal with |- OrgPtr ?s _ = _ => set (st' := s) end.
      rewrite (OrgPtr_set_slot ready st' pos pos org_ptr eq_refl).
      rewrite decide_True by done. by rewrite Hold'. }
    norm_state. split; [done|]. exists old. split; [done|].
    change (is_sentinel ready old) with (is_sentinel st old).
    split; done.
  - assert (Hfail : (Delete org_ptr;;
                     AddError "Invalid position; failed to inject organism!")%mabe ready
                    = Done tt (set_errors (errors ready ++
                                 ["Invalid position; failed to inject organism!"])
                                (set_trace (trace ready ++ [Released org_ptr])
                                   (set_heap (<[org_ptr := None]> (heap ready)) ready))))
      by reflexivity.
    mrun Hfail. unfold ret.
    eexists. split; [done|]. split; [done|]. intros _. norm_state.
    split; [done|]. split; [|done].
    apply list_lookup_insert_eq. by eapply lookup_lt_Some.
Qed.

End InjectingInstances.

Section CoreRuns.
Import Scenario.
#[local] Open Scope string_scope.
#[local] Open Scope list_scope.

Ltac pick_member H :=
  repeat (apply elem_of_cons in H as [->|H]; [try discriminate|]);
  try (by apply elem_of_nil in H).

(** X10 at work: "next" reads back, "absent" does not. *)
Lemma LinkPop_witness :
  LinkPop_get (fst (LinkPop_set two_pop_run "next")) two_pop_run
  = Done "next" two_pop_run
  /\ LinkPop_get (fst (LinkPop_set two_pop_run "absent")) two_pop_run
     = Crash (OutOfBounds (2 ^ 64 - 1)) two_pop_run.
Proof.
  destruct (LinkPop_reads_back_the_name_it_was_set_to two_pop_run "next" eq_refl)
    as [Hfound _].
  destruct (LinkPop_reads_back_the_name_it_was_set_to two_pop_run "absent" eq_refl)
    as [_ Hnone].
  split.
  - apply Hfound. exists {| pop_name := "next"; orgs := [3] |}.
    split; [|reflexivity]. right. left.
  - apply Hnone. intros P HP. unfold two_pop_run in HP. cbn [pops] in HP.
    pick_member HP.
Defined.

(** X11 at work: the module "Bits" is found, "Absent" is not. *)
Lemma GetModule_witness :
  GetModule "Bits" small_run = Done "Bits" small_run
  /\ GetModule "Absent" small_run = Crash (OutOfBounds (2 ^ 64 - 1)) small_run
  /\ Inject_type place_nowhere make_blank 0 "Absent" 1 small_run
     = Crash (OutOfBounds (2 ^ 64 - 1)) small_run.
Proof.
  destruct (GetModule_finds_a_registered_name_or_reads_out_of_bounds
              place_nowhere make_blank small_run "Bits" eq_refl) as (_ & Hfound & _).
  destruct (GetModule_finds_a_registered_name_or_reads_out_of_bounds
              place_nowhere make_blank small_run "Absent" eq_refl) as (_ & _ & Hnone).
  split; [apply Hfound; right; left|].
  destruct Hnone as (_ & Hget & Hinject).
  - intros H. unfold small_run in H. cbn [modules] in H.
    repeat (apply elem_of_cons in H as [E|H]; [discriminate E|]).
    by apply elem_of_nil in H.
  - split; [exact Hget|apply Hinject].
Defined.

(** X12 at work: a population "next" of two slots is added to the small
    run. *)
Lemma AddPopulation_witness :
  exists st',
    AddPopulation "next" 2 small_run = Done 1 st'
    /\ GetNumPopulations st' = 2
    /\ GetPopID st' "next" = 1%Z /\ GetPopID st' "main" = 0%Z
    /\ IsEmpty st' (IteratorAt 1 1) = true.
Proof.
  destruct (AddPopulation_is_found_by_name_unless_the_name_is_taken small_run "next" 2)
    as (st' & P & Hrun & Hnum & _ & _ & _ & _ & Hempty & Hid).
  - reflexivity.
  - right. by eexists.
  - exists st'. split; [exact Hrun|]. split; [exact Hnum|].
    split; [rewrite Hid; reflexivity|]. split; [rewrite Hid; reflexivity|].
    apply (Hempty 1). lia.
Defined.

(** X13 at work: "main,absent" in the small run. *)
Lemma ToCollection_witness :
  exists c st',
    ToCollection split_commas "main,absent" small_run = Done c st'
    /\ errors st' = ["Unknown population: absent"]
    /\ IteratorAt 0 1 ∈ c.
Proof.
  destruct (ToCollection_collects_known_populations_and_reports_the_rest
              split_commas "main,absent" small_run eq_refl) as (c & Hrun & Hc).
  eexists c, _. split; [exact Hrun|]. split; [reflexivity|].
  apply Hc. split; [reflexivity|]. exists "main", 0.
  split; [left|]. by split.
Defined.

(** X14 at work: "main" is moved behind the organism of "next". *)
Lemma MoveOrgs_witness :
  exists st',
    MoveOrgs 0 1 false two_pop_run = Done tt st'
    /\ pops st' !! 0 = Some {| pop_name := "main"; orgs := [] |}
    /\ pops st' !! 1 = Some {| pop_name := "next"; orgs := [3; 1; 0; 2] |}
    /\ heap st' = heap two_pop_run.
Proof.
  destruct (MoveOrgs_moves_the_organisms_and_empties_the_source two_pop_run 0 1 false
              {| pop_name := "main"; orgs := [1; 0; 2] |}
              {| pop_name := "next"; orgs := [3] |} 0)
    as (st' & Hrun & Hfrom & Hto & _ & Hheap & _); [lia|reflexivity..|].
  exists st'. split; [exact Hrun|]. split; [exact Hfrom|]. split; [exact Hto|exact Hheap].
Defined.

(** X15 at work: clearing "main" of the run of two populations. *)
Lemma ClearPop_witness :
  exists st',
    ClearPop 0 two_pop_run = Done tt st'
    /\ pops st' !! 0 = Some {| pop_name := "main"; orgs := [0; 0; 0] |}
    /\ pops st' !! 1 = Some {| pop_name := "next"; orgs := [3] |}
    /\ dead (heap st') 1 /\ dead (heap st') 2
    /\ ClearPop 0 st' = Done tt st'.
Proof.
  destruct (ClearPop_kills_every_occupant_and_is_idempotent two_pop_run 0
              {| pop_name := "main"; orgs := [1; 0; 2] |} 0 eq_refl eq_refl)
    as (st' & Hrun & Hpop & _ & Hrest & Hdead & _ & Hagain).
  exists st'. split; [exact Hrun|]. split; [exact Hpop|].
  split; [by rewrite Hrest|].
  split; [apply Hdead; [left|discriminate]|].
  split; [apply Hdead; [right; right; left|discriminate]|exact Hagain].
Defined.

(** X16 at work: emptying "main" to two slots. *)
Lemma EmptyPop_witness :
  exists st',
    EmptyPop 0 2 two_pop_run = Done tt st'
    /\ pops st' !! 0 = Some {| pop_name := "main"; orgs := [0; 0] |}
    /\ trace st' = [BeforeDeath (IteratorAt 0 0) (Some 1); Released 1;
                    BeforeDeath (IteratorAt 0 2) (Some 2); Released 2;
                    BeforePopResize 0 2; OnPopResize 0 3].
Proof.
  destruct (EmptyPop_clears_before_it_resizes two_pop_run 0 2
              {| pop_name := "main"; orgs := [1; 0; 2] |} 0 eq_refl eq_refl)
    as (st' & Hrun & Hpop & _ & _ & Htrace).
  exists st'. split; [exact Hrun|]. split; [exact Hpop|exact Htrace].
Defined.

(** X17 at work: the pending organism is installed in slot 0 of "main",
    and released when the placement turns it away. *)
Lemma InjectInstance_witness :
  (exists st',
     InjectInstance place_first 0 2 pending_run = Done (IteratorAt 0 0) st'
     /\ OrgPtr st' (IteratorAt 0 0) = Some 2 /\ errors st' = [])
  /\ (exists st',
        InjectInstance place_nowhere 0 2 pending_run = Done no_position st'
        /\ heap st' !! 2 = Some None
        /\ errors st' = ["Invalid position; failed to inject organism!"]).
Proof.
  split.
  - destruct (InjectInstance_installs_or_releases_the_instance place_first pending_run
                0 2 ints_organism eq_refl) as (st' & Hrun & Hvalid & _).
    exists st'. split; [exact Hrun|].
    destruct Hvalid as (Hptr & Herr & _); [reflexivity|]. by split.
  - destruct (InjectInstance_installs_or_releases_the_instance place_nowhere pending_run
                0 2 ints_organism eq_refl) as (st' & Hrun & _ & Hinvalid).
    exists st'. split; [exact Hrun|].
    destruct Hinvalid as (_ & Hheap & Herr & _); [reflexivity|]. by split.
Defined.

(** X8 at work: an offspring of the organism of the small run is born
    into the empty slot 0. *)
Lemma DoBirth_at_witness :
  exists st',
    DoBirth_at mutate_none bits_organism (IteratorAt 0 1) (IteratorAt 0 0) false small_run
    = Done {[ IteratorAt 0 0 ]} st'
    /\ OrgPtr st' (IteratorAt 0 0) = Some 2 /\ errors st' = [].
Proof.
  destruct (DoBirth_at_places_at_the_target mutate_none bits_organism
              (IteratorAt 0 1) (IteratorAt 0 0) false small_run eq_refl)
    as (st' & v & id & old & Hrun & _ & _ & _ & _ & Hptr & Herr).
  exists st'. split; [exact Hrun|]. by split.
Defined.

End CoreRuns.

(* ===================================================================== *)
(** * Facts: the command line                                          *)
(* ===================================================================== *)

Section CommandLineFacts.
Import CommandLine.
#[local] Open Scope string_scope.
#[local] Open Scope list_scope.

Lemma collect_options_plain (opts rest : list string) :
  Forall plain opts ->
  collect_options (opts ++ rest) = opts ++ collect_options rest.
Proof.
  induction 1 as [|a opts Ha _ IH]; [done|].
  cbn [app collect_options]. rewrite bool_decide_eq_true_2 by exact Ha.
  by rewrite IH.
Qed.

Lemma collect_options_stop (rest : list string) :
  head rest = None \/ (exists a, head rest = Some a /\ front a = "-"%char) ->
  collect_options rest = [].
Proof.
  destruct rest as [|a rest]; [done|]. intros [H|(b & H & Hb)]; [done|].
  injection H as <-. cbn. rewrite bool_decide_eq_false_2; [done|]. by intros ?.
Qed.

Lemma run_args a input st : args (run a input st) = args st.
Proof.
  destruct a; cbn; try done.
  - repeat case_match; done.
  - destruct input; done.
Qed.

Lemma run_arg_set a input st : arg_set (run a input st) = arg_set st.
Proof.
  destruct a; cbn; try done.
  - repeat case_match; done.
  - destruct input; done.
Qed.

Lemma ProcessArgs_scan_total (fuel : nat) : forall pos st,
  length (args st) <= fuel + pos ->
  exists st', ProcessArgs_scan (S fuel) pos st = Some st'.
Proof.
  induction fuel as [|fuel IH]; intros pos st Hlen.
  - cbn. destruct (args st !! pos) eqn:E; [|by eexists].
    apply lookup_lt_Some in E. lia.
  - cbn [ProcessArgs_scan].
    destruct (args st !! pos) as [arg|] eqn:E; [|by eexists].
    destruct (find_arg arg (arg_set st)) as [cur|]; [|by eexists].
    apply IH. rewrite run_args. lia.
Qed.

Lemma ProcessArgs_total (st : MABE) : exists st', ProcessArgs st = Some st'.
Proof.
  unfold ProcessArgs.
  destruct (ProcessArgs_scan_total (length (args st)) 1
              (set_arg_set (arg_set st ++ registered) st)) as [st' Hst'];
    [cbn; lia|].
  cbn [args set_arg_set] in *. rewrite Hst'. by eexists.
Qed.

Lemma ProcessArgs_scan_end (fuel pos : nat) (st : MABE) :
  length (args st) <= pos -> ProcessArgs_scan (S fuel) pos st = Some st.
Proof. intros H. cbn. by rewrite lookup_ge_None_2. Qed.

Lemma ProcessArgs_scan_unknown (fuel : nat) (st : MABE) (pre : list string) (a : string)
    (rest : list string) :
  args st = pre ++ a :: rest ->
  find_arg a (arg_set st) = None ->
  ProcessArgs_scan (S fuel) (length pre) st = Some (set_show_help true st).
Proof.
  intros Hargs Hfind. cbn.
  rewrite Hargs, list_lookup_middle by done. by rewrite Hfind.
Qed.

Lemma ProcessArgs_scan_option (fuel : nat) (st : MABE) (pre : list string) (opt : string)
    (cur : ArgInfo) (opts rest : list string) :
  args st = pre ++ opt :: opts ++ rest ->
  find_arg opt (arg_set st) = Some cur ->
  Forall plain opts ->
  collect_options rest = [] ->
  ProcessArgs_scan (S fuel) (length pre) st =
  ProcessArgs_scan fuel (length pre + length opts + 1) (run (action cur) opts st).
Proof.
  intros Hargs Hfind Hopts Hrest. cbn [ProcessArgs_scan].
  rewrite Hargs at 1. rewrite list_lookup_middle by done. rewrite Hfind.
  replace (drop (length pre + 1) (args st)) with (opts ++ rest).
  - by rewrite collect_options_plain, Hrest, app_nil_r.
  - rewrite Hargs, (cons_middle opt), app_assoc.
    rewrite drop_app_length'; [done|]. rewrite length_app. cbn. lia.
Qed.

Lemma find_arg_None (a : string) (set : list ArgInfo) :
  find_arg a set = None <->
  forall o, o ∈ set -> a <> name o /\ a <> flag o.
Proof.
  induction set as [|cur set IH]; cbn.
  - split; [|done]. intros _ o Ho. by apply elem_of_nil in Ho.
  - destruct (String.eqb_spec a (name cur)) as [->|Hn]; cbn.
    + split; [done|]. intros H. destruct (H cur) as [? _]; [left|done].
    + destruct (String.eqb_spec a (flag cur)) as [->|Hf]; cbn.
      * split; [done|]. intros H. destruct (H cur) as [_ ?]; [left|done].
      * rewrite IH. split.
        -- intros H o [->|Ho]%elem_of_cons; [done|by apply H].
        -- intros H o Ho. apply H. by right.
Qed.

Lemma find_arg_dash (opt : string) (cur : ArgInfo) :
  find_arg opt registered = Some cur -> front opt = "-"%char.
Proof.
  unfold registered. cbn [find_arg name flag].
  repeat (match goal with
          | |- context [String.eqb opt ?s] =>
              destruct (String.eqb_spec opt s) as [->|_]; [done|]
          end; cbn [orb]).
  done.
Qed.

Lemma collect_options_groups (groups : list (string * list string)) :
  well_formed groups ->
  collect_options (concat (map (fun g => fst g :: snd g) groups)) = [].
Proof.
  intros Hwf. destruct Hwf as [|[opt opts] gs [[cur Hcur] _] _]; [done|].
  cbn. apply find_arg_dash in Hcur. by rewrite bool_decide_eq_false_2 by (by intros ?).
Qed.

Lemma run_group_args st g : args (run_group st g) = args st.
Proof. unfold run_group. case_match; [apply run_args|done]. Qed.

Lemma run_group_arg_set st g : arg_set (run_group st g) = arg_set st.
Proof. unfold run_group. case_match; [apply run_arg_set|done]. Qed.

Lemma run_groups_args groups : forall st,
  args (foldl run_group st groups) = args st.
Proof.
  induction groups as [|g groups IH]; intros st; [done|].
  cbn [foldl]. by rewrite IH, run_group_args.
Qed.

Lemma run_groups_arg_set groups : forall st,
  arg_set (foldl run_group st groups) = arg_set st.
Proof.
  induction groups as [|g groups IH]; intros st; [done|].
  cbn [foldl]. by rewrite IH, run_group_arg_set.
Qed.

Lemma groups_length (groups : list (string * list string)) :
  length groups <= length (concat (map (fun g => fst g :: snd g) groups)).
Proof.
  induction groups as [|g groups IH]; [cbn; lia|].
  cbn [map concat length app]. rewrite length_app. lia.
Qed.

Lemma ProcessArgs_scan_groups (groups : list (string * list string)) :
  forall (fuel : nat) (st : MABE) (pre tail : list string),
  well_formed groups ->
  arg_set st = registered ->
  args st = pre ++ concat (map (fun g => fst g :: snd g) groups) ++ tail ->
  collect_options tail = [] ->
  ProcessArgs_scan (length groups + S fuel) (length pre) st =
  ProcessArgs_scan (S fuel)
    (length (pre ++ concat (map (fun g => fst g :: snd g) groups)))
    (foldl run_group st groups).
Proof.
  induction groups as [|[opt opts] groups IH]; intros fuel st pre tail Hwf Hset Hargs Htail.
  - cbn [map concat length foldl]. by rewrite app_nil_r.
  - pose proof (Forall_inv Hwf) as [[cur Hcur] Hopts]. cbn [fst snd] in Hcur, Hopts.
    apply Forall_inv_tail in Hwf.
    cbn [map concat fst snd app] in Hargs. rewrite <- app_assoc in Hargs.
    cbn [length Nat.add].
    rewrite (ProcessArgs_scan_option _ st pre opt cur opts _ Hargs);
      [|by rewrite Hset|done|].
    2:{ destruct groups as [|[o os] groups]; [done|].
        pose proof (Forall_inv Hwf) as [[c Hc] _]. cbn [fst] in Hc.
        apply find_arg_dash in Hc. cbn [map concat fst snd app collect_options].
        by rewrite bool_decide_eq_false_2 by (by intros ?). }
    cbn [foldl]. unfold run_group at 2. cbn [fst snd]. rewrite Hset, Hcur.
    replace (length pre + length opts + 1) with (length (pre ++ opt :: opts))
      by (rewrite length_app; cbn; lia).
    rewrite (IH fuel _ (pre ++ opt :: opts) tail);
      [|done|by rewrite run_arg_set|by rewrite run_args, Hargs, <- !app_assoc|done].
    cbn [map concat fst snd app]. by rewrite <- !app_assoc.
Qed.

Lemma ProcessArgs_runs_the_options_in_order_aux (prog : string)
    (groups : list (string * list string)) :
  well_formed groups ->
  ProcessArgs (MABE_new (command_line prog groups)) =
  Some (help_if_asked
          (foldl run_group
                 (set_arg_set registered (MABE_new (command_line prog groups)))
                 groups)).
Proof.
  intros Hwf. unfold ProcessArgs.
  cbn [arg_set MABE_new app args set_arg_set].
  set (st := set_arg_set registered (MABE_new (command_line prog groups))).
  pose proof (groups_length groups) as Hlen.
  replace (S (length (command_line prog groups)))
    with (length groups + S (S (length (command_line prog groups) - length groups - 1)))
    by (unfold command_line; cbn [length]; lia).
  change 1 with (length [prog]).
  rewrite (ProcessArgs_scan_groups groups _ st [prog] [] Hwf); [|done|..|done].
  - rewrite ProcessArgs_scan_end; [done|]. by rewrite run_groups_args.
  - by rewrite app_nil_r.
Qed.

(** X18.  On a command line made of registered options, each followed by
    arguments that do not start with a dash, [ProcessArgs] returns, and
    it has acted on the options in the order of the command line, each on
    exactly the arguments between it and the next option; help is shown
    at the end if one of them asked for it. *)
Theorem ProcessArgs_runs_the_options_in_order (prog : string)
    (groups : list (string * list string)) :
  well_formed groups ->
  ProcessArgs (MABE_new (command_line prog groups)) =
  Some (help_if_asked
          (foldl run_group
                 (set_arg_set registered (MABE_new (command_line prog groups)))
                 groups)).
Proof. apply ProcessArgs_runs_the_options_in_order_aux. Qed.

(** X19.  An argument that is no registered option, and that follows the
    program name at once or starts with a dash, ends the scan: the
    options before it have been acted on, help is shown and the run is to
    exit, and nothing that follows the argument is read. *)
Theorem ProcessArgs_unknown_argument_asks_for_help_and_exits (prog : string)
    (groups : list (string * list string)) (a : string) (rest : list string) :
  well_formed groups ->
  find_arg a registered = None ->
  groups = [] \/ front a = "-"%char ->
  ProcessArgs (MABE_new (command_line prog groups ++ a :: rest)) =
  Some (ShowHelp (set_show_help true
          (foldl run_group
                 (set_arg_set registered
                    (MABE_new (command_line prog groups ++ a :: rest)))
                 groups))).
Proof.
  intros Hwf Ha Hdash. unfold ProcessArgs.
  cbn [arg_set MABE_new app args set_arg_set].
  set (argv := command_line prog groups ++ a :: rest).
  set (st := set_arg_set registered (MABE_new argv)).
  destruct (decide (groups = [])) as [->|Hne].
  { cbn [foldl]. change 1 with (length [prog]).
    by rewrite (ProcessArgs_scan_unknown _ _ _ a rest). }
  destruct Hdash as [?|Hd]; [done|].
  pose proof (groups_length groups) as Hlen.
  replace (S (length argv))
    with (length groups + S (S (length argv) - length groups - 1))
    by (unfold argv, command_line; cbn [length app]; rewrite length_app; lia).
  change 1 with (length [prog]).
  rewrite (ProcessArgs_scan_groups groups _ st [prog] (a :: rest) Hwf); [|done|done|].
  - rewrite (ProcessArgs_scan_unknown _ _ _ a rest).
    + done.
    + by rewrite run_groups_args.
    + by rewrite run_groups_arg_set.
  - cbn. by rewrite bool_decide_eq_false_2 by (by intros ?).
Qed.

Lemma substring_all (s : string) : String.substring 0 (String.length s) s = s.
Proof. induction s as [|c s IH]; [done|]. cbn. by rewrite IH. Qed.

Lemma substr_app (s t : string) : substr (s +:+ t) (String.length s) = t.
Proof.
  unfold substr. induction s as [|c s IH]; cbn.
  - rewrite Nat.sub_0_r. apply substring_all.
  - exact IH.
Qed.

Lemma length_app_string (s t : string) :
  String.length (s +:+ t) = String.length s + String.length t.
Proof. induction s as [|c s IH]; [done|]. simpl. by rewrite IH. Qed.

Lemma split_at (s : string) : forall n, n <= String.length s ->
  s = String.substring 0 n s +:+ substr s n /\ String.length (String.substring 0 n s) = n.
Proof.
  unfold substr. induction s as [|c s IH]; intros [|n] Hn; cbn in *; try lia.
  - done.
  - split; [|done]. f_equal. by rewrite substring_all.
  - destruct (IH n ltac:(lia)) as [IH1 IH2]. split; [|by rewrite IH2].
    change (String c s = String c (String.substring 0 n s +:+
                                   String.substring n (String.length s - n) s)).
    by rewrite <- IH1.
Qed.

(** The test of the [--generate] lambda: the name is longer than four
    characters and ends in ".gen". *)
Lemma gen_suffix_spec (in0 : string) :
  bool_decide (4 < String.length in0)
  && String.eqb (substr in0 (String.length in0 - 4)) ".gen" = true <->
  exists stem, stem <> "" /\ in0 = stem +:+ ".gen".
Proof.
  rewrite andb_true_iff, bool_decide_eq_true, String.eqb_eq. split.
  - intros [Hlen Hsuf].
    destruct (split_at in0 (String.length in0 - 4) ltac:(lia)) as [Heq Hl].
    exists (String.substring 0 (String.length in0 - 4) in0). split.
    + intros E. rewrite E in Hl. cbn in Hl. lia.
    + by rewrite Hsuf in Heq.
  - intros (stem & Hne & ->). rewrite length_app_string. cbn [String.length].
    replace (String.length stem + 4 - 4) with (String.length stem) by lia.
    split; [|apply substr_app]. destruct stem; [done|cbn; lia].
Qed.

(** X20.  [--generate] with one file name: a name that ends in [.gen]
    after at least one other character is refused, with an error, and
    ends the run; any other name becomes the file to generate, with no
    error. *)
Theorem ProcessArgs_generate_refuses_gen_files (prog opt in0 : string) :
  opt = "-g" \/ opt = "--generate" ->
  plain in0 ->
  exists st',
    ProcessArgs (MABE_new [prog; opt; in0]) = Some st' /\
    ((exists stem, stem <> "" /\ in0 = stem +:+ ".gen") ->
       exit_now st' = true /\ gen_filename st' = "" /\
       errors st' = ["Error: generated file " +:+ in0 +:+
                     " not allowed to be *.gen; typically should end in *.mabe."]) /\
    (~ (exists stem, stem <> "" /\ in0 = stem +:+ ".gen") ->
       exit_now st' = false /\ gen_filename st' = in0 /\ errors st' = []).
Proof.
  intros Hopt Hplain.
  pose proof (ProcessArgs_runs_the_options_in_order_aux prog [(opt, [in0])]) as H.
  change (command_line prog [(opt, [in0])]) with [prog; opt; in0] in H.
  rewrite H; clear H.
  2:{ apply Forall_cons. split; [|done]. cbn [fst snd]. split.
      - destruct Hopt as [-> | ->]; by eexists.
      - by apply Forall_cons. }
  eexists. split; [done|].
  assert (find_arg opt registered =
          Some {| name := "--generate"; flag := "-g"; args_doc := "[filename]    ";
                  desc := "Generate a new output file"; action := set_generate |})
    as Hfind by (destruct Hopt as [-> | ->]; done).
  cbn [foldl]. unfold run_group. cbn [fst snd arg_set set_arg_set]. rewrite Hfind.
  cbn [action run length nth]. rewrite bool_decide_eq_false_2 by (by intros ?).
  pose proof (gen_suffix_spec in0) as Hspec.
  destruct (bool_decide (4 < String.length in0)
            && String.eqb (substr in0 (String.length in0 - 4)) ".gen").
  - split; [done|]. intros Hn. destruct Hn. by apply Hspec.
  - split; [|done]. intros Hs. apply Hspec in Hs. done.
Qed.

Lemma default_last_cons {A} (d x : A) (l : list A) :
  default d (last (x :: l)) = default x (last l).
Proof.
  destruct l as [|a l]; [done|].
  change (last (x :: a :: l)) with (last (a :: l)).
  destruct (last (a :: l)) eqn:E; [done|]. by apply last_None in E.
Qed.

Lemma run_files_and_settings (groups : list (string * list string)) : forall st,
  arg_set st = registered ->
  Forall (fun g => fst g ∈ ["-f"; "--filename"; "-s"; "--set"]) groups ->
  let st' := foldl run_group st groups in
  config_filenames st' =
    default (config_filenames st)
      (last (map snd (filter (fun g => fst g ∈ ["-f"; "--filename"]) groups))) /\
  config_settings st' =
    config_settings st ++
    concat (map (fun g => snd g ++ [";"])
                (filter (fun g => fst g ∈ ["-s"; "--set"]) groups)) /\
  exit_now st' = exit_now st /\ show_help st' = show_help st /\
  gen_filename st' = gen_filename st /\ errors st' = errors st.
Proof.
  induction groups as [|[opt opts] groups IH]; intros st Hset Hall; cbn zeta.
  - cbn. by rewrite app_nil_r.
  - pose proof (Forall_inv Hall) as Hopt. cbn [fst] in Hopt.
    apply Forall_inv_tail in Hall.
    cbn [foldl].
    destruct (IH (run_group st (opt, opts))) as (IH1 & IH2 & IH3 & IH4 & IH5 & IH6);
      [by rewrite run_group_arg_set|done|].
    rewrite IH1, IH2, IH3, IH4, IH5, IH6. clear IH IH1 IH2 IH3 IH4 IH5 IH6.
    unfold run_group. cbn [fst snd]. rewrite Hset.
    rewrite !filter_cons. cbn [fst].
    repeat (apply elem_of_cons in Hopt as [->|Hopt]); [..|by apply elem_of_nil in Hopt].
    + rewrite decide_True by set_solver. rewrite decide_False by set_solver.
      cbn [map snd]. by rewrite default_last_cons.
    + rewrite decide_True by set_solver. rewrite decide_False by set_solver.
      cbn [map snd]. by rewrite default_last_cons.
    + rewrite decide_False by set_solver. rewrite decide_True by set_solver.
      cbn. by rewrite <- !app_assoc.
    + rewrite decide_False by set_solver. rewrite decide_True by set_solver.
      cbn. by rewrite <- !app_assoc.
Qed.

(** X21.  On a command line of [--filename] and [--set] options: the
    files to load are those of the last [--filename], an earlier one
    being forgotten, while the settings of every [--set] are kept in
    their order, each lot closed by a semicolon; the run goes on and no
    help is shown. *)
Theorem ProcessArgs_filenames_replace_and_settings_accumulate (prog : string)
    (groups : list (string * list string)) :
  Forall (fun g => fst g ∈ ["-f"; "--filename"; "-s"; "--set"] /\ Forall plain (snd g))
         groups ->
  exists st',
    ProcessArgs (MABE_new (command_line prog groups)) = Some st' /\
    config_filenames st' =
      default [] (last (map snd (filter (fun g => fst g ∈ ["-f"; "--filename"]) groups))) /\
    config_settings st' =
      concat (map (fun g => snd g ++ [";"])
                  (filter (fun g => fst g ∈ ["-s"; "--set"]) groups)) /\
    exit_now st' = false /\ show_help st' = false.
Proof.
  intros Hall.
  rewrite ProcessArgs_runs_the_options_in_order_aux.
  2:{ eapply Forall_impl; [exact Hall|]. intros [opt opts] [Hopt Hplain]. split; [|done].
      cbn [fst] in *.
      repeat (apply elem_of_cons in Hopt as [->|Hopt]); [..|by apply elem_of_nil in Hopt];
        by eexists. }
  eexists. split; [done|].
  destruct (run_files_and_settings groups
              (set_arg_set registered (MABE_new (command_line prog groups))))
    as (H1 & H2 & H3 & H4 & _); [done|by eapply Forall_impl; [exact Hall|]; intros ? []|].
  unfold help_if_asked. rewrite H4. cbn [show_help set_arg_set MABE_new].
  by rewrite H1, H2, H3.
Qed.

(** *** Setup *)

Section SetupFacts.
Context (Load LoadStatements : list string -> bool * list string)
        (module_errors : list string).

#[local] Abbreviation Setup := (Setup Load LoadStatements module_errors).

Lemma run_keeps_exit (a : Action) (input : list string) (st : MABE) :
  exit_now st = true \/ show_help st = true ->
  exit_now (run a input st) = true \/ show_help (run a input st) = true.
Proof.
  intros H. destruct a; cbn; try done.
  - repeat case_match; cbn; first [done | by left].
  - right. by destruct input.
  - by left.
  - by left.
Qed.

Lemma run_groups_keep_exit (groups : list (string * list string)) : forall st,
  exit_now st = true \/ show_help st = true ->
  exit_now (foldl run_group st groups) = true
  \/ show_help (foldl run_group st groups) = true.
Proof.
  induction groups as [|g groups IH]; intros st H; [done|].
  cbn [foldl]. apply IH. unfold run_group. case_match; [|done].
  by apply run_keeps_exit.
Qed.

Lemma run_groups_exit (groups : list (string * list string)) : forall st g,
  arg_set st = registered ->
  g ∈ groups ->
  fst g ∈ ["-h"; "--help"; "-m"; "--modules"; "-v"; "--version"] ->
  exit_now (foldl run_group st groups) = true
  \/ show_help (foldl run_group st groups) = true.
Proof.
  induction groups as [|g' groups IH]; intros st g Hset Hin Hopt;
    [by apply elem_of_nil in Hin|].
  cbn [foldl]. apply elem_of_cons in Hin as [<-|Hin].
  - apply run_groups_keep_exit. unfold run_group. rewrite Hset.
    repeat (apply elem_of_cons in Hopt as [->|Hopt]);
      [..|by apply elem_of_nil in Hopt]; cbn; try (by left).
    + right. by destruct (snd g).
    + right. by destruct (snd g).
  - eapply IH; [by rewrite run_group_arg_set|done..].
Qed.

(** X22.  When [--help], [--modules] or [--version], or the flag of one of
    them, is among the options of a command line, [Setup] returns false
    with the run set to exit, and it has loaded no configuration file and
    no setting, written no file and set no module up, whatever else the
    command line asks for. *)
Theorem Setup_loads_nothing_after_help_version_or_module_list (prog : string)
    (groups : list (string * list string)) (g : string * list string) :
  well_formed groups ->
  g ∈ groups ->
  fst g ∈ ["-h"; "--help"; "-m"; "--modules"; "-v"; "--version"] ->
  exists st',
    Setup (MABE_new (command_line prog groups)) = Some (false, st', [])
    /\ exit_now st' = true.
Proof.
  intros Hwf Hin Hopt. unfold CommandLine.Setup.
  rewrite ProcessArgs_runs_the_options_in_order_aux by done.
  set (st1 := foldl run_group _ groups).
  assert (Hexit : exit_now (help_if_asked st1) = true).
  { unfold help_if_asked.
    destruct (run_groups_exit groups
                (set_arg_set registered (MABE_new (command_line prog groups))) g)
      as [H|H]; try done; fold st1 in H.
    - by destruct (show_help st1).
    - by rewrite H. }
  rewrite Hexit. by eexists.
Qed.

Lemma Setup_after_the_command_line (st st1 : MABE) :
  ProcessArgs st = Some st1 -> exit_now st1 = false ->
  let lf := loaded Load (config_filenames st1) in
  let ls := loaded LoadStatements (config_settings st1) in
  let steps := load_step config_Load (config_filenames st1)
                 ++ load_step config_LoadStatements (config_settings st1) in
  let st2 := set_exit_now (fst lf || fst ls)
               (set_errors (errors st1 ++ snd lf ++ snd ls) st1) in
  Setup st
  = if bool_decide (gen_filename st1 <> "")
    then Some (false, set_exit_now true st2, steps ++ [config_Write (gen_filename st1)])
    else if fst lf || fst ls then Some (false, st2, steps)
         else Some (bool_decide (errors st1 ++ snd lf ++ snd ls ++ module_errors = []),
                    set_errors (errors st1 ++ snd lf ++ snd ls ++ module_errors) st2,
                    steps ++ [trait_man_Unlock; Setup_Modules; Setup_Traits;
                              UpdateSignals; error_man_Activate]).
Proof.
  intros Hargs Hexit. cbn zeta. unfold CommandLine.Setup. rewrite Hargs, Hexit.
  unfold loaded, load_step, ran.
  destruct st1 as [v sh ht ex er ag ar cf cs gf hs]. cbn in Hexit. subst ex.
  cbn [config_filenames config_settings gen_filename exit_now errors].
  destruct (Load cf) as [e1 l1] eqn:EL. destruct (LoadStatements cs) as [e2 l2] eqn:ES.
  unfold set_exit_now, set_errors.
  destruct e1, e2;
    repeat (case_bool_decide;
            cbn [fst snd config_filenames config_settings gen_filename exit_now errors
                 orb app verbose show_help help_topic arg_set args help_signals];
            rewrite ?EL, ?ES;
            cbn [fst snd config_filenames config_settings gen_filename exit_now errors
                 orb app verbose show_help help_topic arg_set args help_signals]);
    rewrite ?app_nil_r, <- ?app_assoc; try done; try congruence.
  all: exfalso;
    repeat match goal with
           | H : context [(_ ++ _) ++ _] |- _ => rewrite <- app_assoc in H
           | H : context [_ ++ []] |- _ => rewrite app_nil_r in H
           end; cbn [app] in *; congruence.
Qed.

(** X23.  [--generate] with a file name that is accepted makes [Setup]
    write the configuration to that file and stop there: it returns
    false, the run is set to exit, no module is set up and no error is
    reported. *)
Theorem Setup_generate_writes_the_file_and_stops (prog opt in0 : string) :
  opt = "-g" \/ opt = "--generate" ->
  plain in0 -> in0 <> "" ->
  ~ (exists stem, stem <> "" /\ in0 = stem +:+ ".gen") ->
  exists st',
    Setup (MABE_new [prog; opt; in0]) = Some (false, st', [config_Write in0])
    /\ exit_now st' = true /\ errors st' = [].
Proof.
  intros Hopt Hplain Hne Hgen.
  pose proof (ProcessArgs_runs_the_options_in_order_aux prog [(opt, [in0])]) as H.
  change (command_line prog [(opt, [in0])]) with [prog; opt; in0] in H.
  assert (well_formed [(opt, [in0])]) as Hwf.
  { apply Forall_cons. split; [|done]. cbn [fst snd]. split.
    - destruct Hopt as [-> | ->]; by eexists.
    - by apply Forall_cons. }
  specialize (H Hwf).
  assert (find_arg opt registered =
          Some {| name := "--generate"; flag := "-g"; args_doc := "[filename]    ";
                  desc := "Generate a new output file"; action := set_generate |})
    as Hfind by (destruct Hopt as [-> | ->]; done).
  cbn [foldl] in H. unfold run_group in H. cbn [fst snd arg_set set_arg_set] in H.
  rewrite Hfind in H. cbn [action run length nth] in H.
  rewrite bool_decide_eq_false_2 in H by (by intros ?).
  pose proof (gen_suffix_spec in0) as Hspec.
  destruct (bool_decide (4 < String.length in0)
            && String.eqb (substr in0 (String.length in0 - 4)) ".gen").
  { destruct Hgen. by apply Hspec. }
  rewrite (Setup_after_the_command_line _ _ H) by done.
  cbn. rewrite bool_decide_eq_true_2 by done. by eexists.
Qed.

(** X24.  On a command line of [--filename] and [--set] options, with
    configuration text that does not call EXIT: [Setup] loads the files
    of the last [--filename], if there are any, then the settings, if
    there are any, then sets the modules and the traits up; it returns
    true exactly when none of these steps reported an error, and the run
    is not set to exit. *)
Theorem Setup_succeeds_exactly_without_errors (prog : string)
    (groups : list (string * list string)) :
  Forall (fun g => fst g ∈ ["-f"; "--filename"; "-s"; "--set"] /\ Forall plain (snd g))
         groups ->
  let lf := loaded Load (last_filenames groups) in
  let ls := loaded LoadStatements (all_settings groups) in
  fst lf = false -> fst ls = false ->
  exists st',
    Setup (MABE_new (command_line prog groups))
    = Some (bool_decide (snd lf ++ snd ls ++ module_errors = []), st',
            load_step config_Load (last_filenames groups)
              ++ load_step config_LoadStatements (all_settings groups)
              ++ [trait_man_Unlock; Setup_Modules; Setup_Traits;
                  UpdateSignals; error_man_Activate])
    /\ errors st' = snd lf ++ snd ls ++ module_errors
    /\ exit_now st' = false.
Proof.
  intros Hall lf ls Hlf Hls.
  assert (well_formed groups) as Hwf.
  { eapply Forall_impl; [exact Hall|]. intros [opt opts] [Hopt Hplain]. split; [|done].
    cbn [fst] in *.
    repeat (apply elem_of_cons in Hopt as [->|Hopt]); [..|by apply elem_of_nil in Hopt];
      by eexists. }
  pose proof (ProcessArgs_runs_the_options_in_order_aux prog groups Hwf) as H.
  destruct (run_files_and_settings groups
              (set_arg_set registered (MABE_new (command_line prog groups))))
    as (H1 & H2 & H3 & H4 & Hg & He);
    [done|by eapply Forall_impl; [exact Hall|]; intros ? []|].
  set (st1 := foldl run_group _ groups) in *.
  assert (help_if_asked st1 = st1) as Hh by (unfold help_if_asked; by rewrite H4).
  rewrite Hh in H.
  cbn [config_filenames config_settings exit_now show_help gen_filename errors
       set_arg_set MABE_new app] in H1, H2, H3, Hg, He.
  rewrite (Setup_after_the_command_line _ _ H) by done.
  rewrite Hg, He, H1, H2. fold (last_filenames groups) (all_settings groups).
  fold lf ls. rewrite Hlf, Hls. cbn [orb app]. rewrite bool_decide_eq_false_2 by (by intros ?).
  eexists. split; [by rewrite <- app_assoc|]. done.
Qed.

End SetupFacts.

End CommandLineFacts.

Section CommandLineRuns.
Import CommandLine CommandLineScenario.
#[local] Open Scope string_scope.
#[local] Open Scope list_scope.

Lemma well_formed_cons (opt : string) (opts : list string)
    (groups : list (string * list string)) :
  is_Some (find_arg opt registered) -> Forall plain opts -> well_formed groups ->
  well_formed ((opt, opts) :: groups).
Proof. intros H1 H2 H3. by apply Forall_cons. Qed.

(** X18 at work: [mabe -f a.mabe b.mabe -+]. *)
Lemma ProcessArgs_witness :
  exists st',
    ProcessArgs (MABE_new (command_line "mabe" [("-f", ["a.mabe"; "b.mabe"]); ("-+", [])]))
    = Some st'
    /\ config_filenames st' = ["a.mabe"; "b.mabe"] /\ verbose st' = true
    /\ exit_now st' = false.
Proof.
  rewrite (ProcessArgs_runs_the_options_in_order "mabe"
             [("-f", ["a.mabe"; "b.mabe"]); ("-+", [])]).
  - by eexists.
  - apply well_formed_cons; [by eexists|by repeat constructor|].
    apply well_formed_cons; [by eexists|by constructor|by constructor].
Defined.

(** X19 at work: [mabe -+ --bogus -f a.mabe]: the file after the unknown
    argument is not read. *)
Lemma ProcessArgs_unknown_witness :
  exists st',
    ProcessArgs (MABE_new (command_line "mabe" [("-+", [])] ++ "--bogus" :: ["-f"; "a.mabe"]))
    = Some st'
    /\ show_help st' = true /\ exit_now st' = true /\ help_signals st' = 1
    /\ verbose st' = true /\ config_filenames st' = [].
Proof.
  rewrite (ProcessArgs_unknown_argument_asks_for_help_and_exits "mabe"
             [("-+", [])] "--bogus" ["-f"; "a.mabe"]).
  - by eexists.
  - apply well_formed_cons; [by eexists|by constructor|by constructor].
  - reflexivity.
  - by right.
Defined.

(** X20 at work: [mabe -g out.gen] is refused. *)
Lemma ProcessArgs_generate_witness :
  exists st',
    ProcessArgs (MABE_new ["mabe"; "-g"; "out.gen"]) = Some st'
    /\ exit_now st' = true /\ gen_filename st' = ""
    /\ errors st' = ["Error: generated file out.gen not allowed to be *.gen; typically should end in *.mabe."].
Proof.
  destruct (ProcessArgs_generate_refuses_gen_files "mabe" "-g" "out.gen")
    as (st' & Hrun & Hgen & _); [by left|discriminate|].
  exists st'. split; [exact Hrun|]. apply Hgen. by exists "out".
Defined.

(** X21 at work: [mabe -f a -s x=1 -f b c --set y=2]. *)
Lemma ProcessArgs_files_and_settings_witness :
  exists st',
    ProcessArgs (MABE_new (command_line "mabe"
                   [("-f", ["a"]); ("-s", ["x=1"]); ("-f", ["b"; "c"]); ("--set", ["y=2"])]))
    = Some st'
    /\ config_filenames st' = ["b"; "c"]
    /\ config_settings st' = ["x=1"; ";"; "y=2"; ";"].
Proof.
  destruct (ProcessArgs_filenames_replace_and_settings_accumulate "mabe"
              [("-f", ["a"]); ("-s", ["x=1"]); ("-f", ["b"; "c"]); ("--set", ["y=2"])])
    as (st' & Hrun & Hf & Hs & _).
  - repeat (apply Forall_cons; split; [split; [set_solver|by repeat constructor]|]).
    constructor.
  - exists st'. split; [exact Hrun|]. split; [exact Hf|exact Hs].
Defined.

(** X22 at work: [mabe -f a.mabe --help]: the file is not loaded. *)
Lemma Setup_help_witness :
  exists st',
    Setup loads_with_error loads_with_error []
      (MABE_new (command_line "mabe" [("-f", ["a.mabe"]); ("--help", [])]))
    = Some (false, st', [])
    /\ exit_now st' = true.
Proof.
  apply (Setup_loads_nothing_after_help_version_or_module_list
           loads_with_error loads_with_error [] "mabe"
           [("-f", ["a.mabe"]); ("--help", [])] ("--help", [])).
  - apply well_formed_cons; [by eexists|by repeat constructor|].
    apply well_formed_cons; [by eexists|by constructor|by constructor].
  - set_solver.
  - set_solver.
Defined.

(** X23 at work: [mabe --generate out.mabe]. *)
Lemma Setup_generate_witness :
  exists st',
    Setup loads_quietly loads_quietly [] (MABE_new ["mabe"; "--generate"; "out.mabe"])
    = Some (false, st', [config_Write "out.mabe"])
    /\ exit_now st' = true /\ errors st' = [].
Proof.
  apply (Setup_generate_writes_the_file_and_stops
           loads_quietly loads_quietly [] "mabe" "--generate" "out.mabe").
  - by right.
  - discriminate.
  - discriminate.
  - intros (stem & _ & H).
    assert (String.length "out.mabe" = String.length (stem +:+ ".gen")) as Hl
      by (by rewrite <- H).
    rewrite length_app_string in Hl. cbn in Hl.
    assert (String.length stem = 4) as H4 by lia.
    destruct stem as [|a [|b [|c [|d [|]]]]]; try discriminate.
Defined.

(** X24 at work: [mabe -f a.mabe -s x=1], once with files that load
    quietly and once with settings that report an error. *)
Lemma Setup_witness :
  (exists st',
     Setup loads_quietly loads_quietly []
       (MABE_new (command_line "mabe" [("-f", ["a.mabe"]); ("-s", ["x=1"])]))
     = Some (true, st',
             [config_Load ["a.mabe"]; config_LoadStatements ["x=1"; ";"];
              trait_man_Unlock; Setup_Modules; Setup_Traits; UpdateSignals;
              error_man_Activate]))
  /\ (exists st',
        Setup loads_quietly loads_with_error []
          (MABE_new (command_line "mabe" [("-f", ["a.mabe"]); ("-s", ["x=1"])]))
        = Some (false, st',
                [config_Load ["a.mabe"]; config_LoadStatements ["x=1"; ";"];
                 trait_man_Unlock; Setup_Modules; Setup_Traits; UpdateSignals;
                 error_man_Activate])
        /\ errors st' = ["Unknown setting."]).
Proof.
  assert (Forall (fun g : string * list string =>
                    fst g ∈ ["-f"; "--filename"; "-s"; "--set"] /\ Forall plain (snd g))
                 [("-f", ["a.mabe"]); ("-s", ["x=1"])]) as Hall.
  { repeat (apply Forall_cons; split; [split; [set_solver|by repeat constructor]|]).
    constructor. }
  split.
  - destruct (Setup_succeeds_exactly_without_errors loads_quietly loads_quietly []
                "mabe" _ Hall eq_refl eq_refl) as (st' & Hrun & _).
    exists st'. exact Hrun.
  - destruct (Setup_succeeds_exactly_without_errors loads_quietly loads_with_error []
                "mabe" _ Hall eq_refl eq_refl) as (st' & Hrun & He & _).
    exists st'. split; [exact Hrun|exact He].
Defined.

End CommandLineRuns.

(* ===================================================================== *)
(** * Facts: the update loop                                           *)
(* ===================================================================== *)

Section UpdateLoopFacts.
Import SignalBus UpdateLoop.
#[local] Open Scope list_scope.

Context (SIG_BeforeUpdate SIG_OnUpdate : nat) (overridden : nat -> nat -> bool)
        (start_exits : bool) (update_exits : Z -> bool).

#[local] Abbreviation call := (call overridden).
#[local] Abbreviation Trigger := (Trigger overridden).
#[local] Abbreviation Update_body :=
  (Update_body SIG_BeforeUpdate SIG_OnUpdate overridden update_exits).
#[local] Abbreviation Update_loop :=
  (Update_loop SIG_BeforeUpdate SIG_OnUpdate overridden update_exits).
#[local] Abbreviation Update :=
  (Update SIG_BeforeUpdate SIG_OnUpdate overridden start_exits update_exits).

(** *** What a trigger leaves alone *)

Lemma deliveries_app s m l1 l2 :
  deliveries s m (l1 ++ l2) = deliveries s m l1 ++ deliveries s m l2.
Proof.
  induction l1 as [|n l1 IH]; [done|]. destruct n; cbn; [|done|done].
  destruct (bool_decide _); cbn; by rewrite IH.
Qed.

Lemma script_calls_app l1 l2 :
  script_calls (l1 ++ l2) = script_calls l1 ++ script_calls l2.
Proof. induction l1 as [|n l1 IH]; [done|]. destruct n; cbn; by rewrite IH. Qed.

Lemma call_frame s arg w m :
  update (call s arg w m) = update w /\ exit_now (call s arg w m) = exit_now w
  /\ sig_ptrs (base (call s arg w m)) = sig_ptrs (base w)
  /\ log (call s arg w m) = log w ++ [Delivered s m arg]
  /\ length (modules (base (call s arg w m))) = length (modules (base w))
  /\ (rescan_signals (base w) = true -> rescan_signals (base (call s arg w m)) = true)
  /\ (overridden m s = false -> rescan_signals (base (call s arg w m)) = true).
Proof.
  unfold UpdateLoop.call. destruct (overridden m s); cbn; [done|].
  unfold set_flag. by rewrite length_alter.
Qed.

Lemma Trigger_frame_list s arg (l : list nat) : forall w,
  let w' := foldl (call s arg) w l in
  update w' = update w /\ exit_now w' = exit_now w
  /\ sig_ptrs (base w') = sig_ptrs (base w)
  /\ log w' = log w ++ map (fun m => Delivered s m arg) l
  /\ length (modules (base w')) = length (modules (base w))
  /\ (rescan_signals (base w) = true -> rescan_signals (base w') = true).
Proof.
  induction l as [|m l IH]; intros w; cbn zeta; cbn [foldl map].
  - by rewrite app_nil_r.
  - destruct (call_frame s arg w m) as (H1 & H2 & H3 & H4 & H5 & H6 & _).
    destruct (IH (call s arg w m)) as (I1 & I2 & I3 & I4 & I5 & I6).
    rewrite I1, I2, I3, I4, I5, H1, H2, H3, H4, H5.
    rewrite <- app_assoc. repeat split; try done. intros Hr. by apply I6, H6.
Qed.

Lemma Trigger_frame s arg w :
  update (Trigger s arg w) = update w /\ exit_now (Trigger s arg w) = exit_now w
  /\ sig_ptrs (base (Trigger s arg w)) = sig_ptrs (base w)
  /\ log (Trigger s arg w) = log w ++ map (fun m => Delivered s m arg) (listeners w s)
  /\ length (modules (base (Trigger s arg w))) = length (modules (base w))
  /\ (rescan_signals (base w) = true -> rescan_signals (base (Trigger s arg w)) = true).
Proof. apply Trigger_frame_list. Qed.

Lemma script_calls_deliveries s arg (l : list nat) :
  script_calls (map (fun m => Delivered s m arg) l) = [].
Proof. induction l as [|m l IH]; [done|]. exact IH. Qed.

(** *** The counter and the exit flag *)

Lemma Update_body_counts (w : MABE) :
  update (Update_body w) = ((update w + 1) mod 2 ^ 64)%Z
  /\ exit_now (Update_body w)
     = exit_now w || update_exits ((update w + 1) mod 2 ^ 64)%Z
  /\ script_calls (log (Update_body w))
     = script_calls (log w) ++ [UpdateEvents ((update w + 1) mod 2 ^ 64)%Z].
Proof.
  unfold UpdateLoop.Update_body.
  set (w0 := if rescan_signals (base w) then set_base (UpdateSignals (base w)) w else w).
  assert (H0 : update w0 = update w /\ exit_now w0 = exit_now w /\ log w0 = log w)
    by (unfold w0; by destruct (rescan_signals (base w))).
  destruct H0 as (U0 & E0 & L0).
  destruct (Trigger_frame SIG_BeforeUpdate (update w0) w0) as (U1 & E1 & _ & L1 & _).
  set (w1 := Trigger SIG_BeforeUpdate (update w0) w0) in *.
  set (w2 := set_update ((update w1 + 1) mod 2 ^ 64) w1).
  destruct (Trigger_frame SIG_OnUpdate (update w2) w2) as (U3 & E3 & _ & L3 & _).
  set (w3 := Trigger SIG_OnUpdate (update w2) w2) in *.
  cbn [update exit_now log set_exit_now note].
  rewrite U3, E3, L3. cbn [update exit_now log set_update w2].
  rewrite U1, E1, L1, U0, E0, L0.
  split; [done|]. split; [done|].
  rewrite !script_calls_app, !script_calls_deliveries, !app_nil_r. done.
Qed.

Lemma Update_loop_exited (n : nat) (w : MABE) :
  exit_now w = true -> Update_loop n w = w.
Proof. intros H. destruct n; [done|]. cbn. by rewrite H. Qed.

Lemma Update_loop_add (a : nat) : forall (b : nat) (w : MABE),
  Update_loop (a + b) w = Update_loop b (Update_loop a w).
Proof.
  induction a as [|a IH]; intros b w; [done|]. cbn [Nat.add UpdateLoop.Update_loop].
  destruct (exit_now w) eqn:E; [by rewrite Update_loop_exited|]. apply IH.
Qed.

Lemma Update_loop_runs (n : nat) : forall (w : MABE),
  exit_now w = false -> (0 <= update w)%Z -> (update w + Z.of_nat n < 2 ^ 64)%Z ->
  (forall k, k < n -> update_exits (update w + Z.of_nat k + 1) = false) ->
  update (Update_loop n w) = (update w + Z.of_nat n)%Z
  /\ exit_now (Update_loop n w) = false
  /\ script_calls (log (Update_loop n w))
     = script_calls (log w)
         ++ map (fun k => UpdateEvents (update w + Z.of_nat k + 1)) (seq 0 n).
Proof.
  induction n as [|n IH]; intros w Hexit Hpos Hmax Hno.
  - cbn. rewrite app_nil_r. split; [lia|done].
  - cbn [UpdateLoop.Update_loop]. rewrite Hexit.
    destruct (Update_body_counts w) as (HU & HE & HL).
    rewrite Z.mod_small in HU, HE, HL by lia.
    destruct (IH (Update_body w)) as (IU & IE & IL).
    + rewrite HE, Hexit. cbn [orb]. rewrite <- (Hno 0) by lia. f_equal. lia.
    + lia.
    + lia.
    + intros k Hk. rewrite HU. rewrite <- (Hno (S k)) by lia. f_equal. lia.
    + rewrite IU, IE, IL, HL, HU. split; [lia|]. split; [done|].
      rewrite <- app_assoc. f_equal. cbn [seq map app].
      f_equal; [f_equal; lia|].
      rewrite <- seq_shift, map_map. apply map_ext. intros k. f_equal. lia.
Qed.

(** X25.  While the configuration script does not ask to exit, and the
    update counter stays below 2^64, [Update] runs all the updates asked
    for: the counter goes up by their number, the start events are
    triggered once, and only when the counter was 0, and the script is
    told of every new update number in turn. *)
Theorem Update_runs_every_update_while_nothing_asks_to_exit
    (num_updates : nat) (w : MABE) :
  exit_now w = false -> (0 <= update w)%Z ->
  (update w + Z.of_nat num_updates < 2 ^ 64)%Z ->
  (update w = 0%Z -> start_exits = false) ->
  (forall k, k < num_updates -> update_exits (update w + Z.of_nat k + 1) = false) ->
  let w' := Update num_updates w in
  update w' = (update w + Z.of_nat num_updates)%Z
  /\ exit_now w' = false
  /\ script_calls (log w')
     = script_calls (log w)
         ++ (if (update w =? 0)%Z then [StartEvents] else [])
         ++ map (fun k => UpdateEvents (update w + Z.of_nat k + 1)) (seq 0 num_updates).
Proof.
  intros Hexit Hpos Hmax Hstart Hno. cbn zeta. unfold UpdateLoop.Update.
  destruct (Z.eqb_spec (update w) 0) as [H0|H0].
  - set (w0 := set_exit_now _ _).
    destruct (Update_loop_runs num_updates w0) as (HU & HE & HL); try done.
    + unfold w0. cbn. by rewrite Hexit, Hstart.
    + rewrite HU, HE, HL. unfold w0. cbn [update log set_exit_now note].
      split; [done|]. split; [done|]. by rewrite script_calls_app, <- app_assoc.
  - destruct (Update_loop_runs num_updates w) as (HU & HE & HL); done.
Qed.

(** X26.  When the script asks to exit at an update, [Update] completes
    that update, in which the counter has gone up and the script has been
    told, and runs none of those still asked for; every later call of
    [Update] does nothing. *)
Theorem Update_finishes_the_update_in_which_exit_is_asked_for
    (num_updates k : nat) (w : MABE) :
  exit_now w = false -> (0 <= update w)%Z ->
  (update w + Z.of_nat k + 1 < 2 ^ 64)%Z ->
  (update w = 0%Z -> start_exits = false) ->
  k < num_updates ->
  (forall j, j < k -> update_exits (update w + Z.of_nat j + 1) = false) ->
  update_exits (update w + Z.of_nat k + 1) = true ->
  let w' := Update num_updates w in
  update w' = (update w + Z.of_nat k + 1)%Z
  /\ exit_now w' = true
  /\ script_calls (log w')
     = script_calls (log w)
         ++ (if (update w =? 0)%Z then [StartEvents] else [])
         ++ map (fun j => UpdateEvents (update w + Z.of_nat j + 1)) (seq 0 (S k))
  /\ forall more, Update more w' = w'.
Proof.
  intros Hexit Hpos Hmax Hstart Hk Hno Hyes. cbn zeta.
  assert (Hloop : forall w0, exit_now w0 = false -> update w0 = update w ->
            let w' := Update_loop num_updates w0 in
            update w' = (update w + Z.of_nat k + 1)%Z /\ exit_now w' = true
            /\ script_calls (log w')
               = script_calls (log w0)
                   ++ map (fun j => UpdateEvents (update w + Z.of_nat j + 1))
                          (seq 0 (S k))).
  { intros w0 He0 Hu0. cbn zeta.
    replace num_updates with (k + (1 + (num_updates - k - 1))) by lia.
    rewrite !Update_loop_add.
    destruct (Update_loop_runs k w0) as (HU & HE & HL); try done; try lia.
    { intros j Hj. rewrite Hu0. by apply Hno. }
    set (w1 := Update_loop k w0) in *.
    cbn [UpdateLoop.Update_loop]. rewrite HE.
    destruct (Update_body_counts w1) as (BU & BE & BL).
    rewrite Z.mod_small in BU, BE, BL by lia.
    rewrite HU, Hu0 in BU, BE, BL. rewrite HE, Hyes in BE. cbn [orb] in BE.
    rewrite Update_loop_exited by done.
    rewrite BU, BE, BL, HL. split; [done|]. split; [done|].
    rewrite <- app_assoc. f_equal. rewrite seq_S, map_app. cbn [Nat.add map].
    rewrite Hu0. done. }
  unfold UpdateLoop.Update.
  assert (Hdone : forall w', update w' = (update w + Z.of_nat k + 1)%Z ->
                             exit_now w' = true -> forall more, Update more w' = w').
  { intros w' Hu He more. unfold UpdateLoop.Update.
    destruct (Z.eqb_spec (update w') 0) as [?|_]; [lia|].
    by apply Update_loop_exited. }
  destruct (Z.eqb_spec (update w) 0) as [H0|H0].
  - set (w0 := set_exit_now _ _).
    destruct (Hloop w0) as (HU & HE & HL).
    + unfold w0. cbn. by rewrite Hexit, Hstart.
    + done.
    + split; [done|]. split; [done|]. split; [|by apply Hdone].
      rewrite HL. unfold w0. cbn [log set_exit_now note].
      by rewrite script_calls_app, <- app_assoc.
  - destruct (Hloop w) as (HU & HE & HL); try done.
    split; [done|]. split; [done|]. split; [done|by apply Hdone].
Qed.

(** *** Flags and listeners *)

Lemma has_signal_at_set_flag (ms : list ModuleBase) (m' s' m s : nat) :
  has_signal_at (set_flag m' s' false ms) m s
  = has_signal_at ms m s && negb (bool_decide (m = m' /\ s = s')).
Proof.
  unfold has_signal_at, set_flag.
  destruct (decide (m = m')) as [->|Hm].
  - rewrite list_lookup_alter_eq. destruct (ms !! m') as [md|]; cbn; [|done].
    destruct (decide (s = s')) as [->|Hs].
    + rewrite bool_decide_eq_true_2 by done. cbn. rewrite andb_false_r.
      destruct (decide (s' < length (has_signal md))).
      * by rewrite list_lookup_insert_eq.
      * rewrite list_insert_ge by lia. by rewrite lookup_ge_None_2 by lia.
    + rewrite bool_decide_eq_false_2 by (intros [_ ?]; done). cbn.
      rewrite andb_true_r. by rewrite list_lookup_insert_ne.
  - rewrite list_lookup_alter_ne by done.
    rewrite bool_decide_eq_false_2 by (intros [? _]; done). cbn.
    by rewrite andb_true_r.
Qed.

Lemma call_flag (s' : nat) (arg : Z) (w : MABE) (m' m s : nat) :
  has_signal_at (modules (base (call s' arg w m'))) m s
  = has_signal_at (modules (base w)) m s
    && negb (negb (overridden m' s') && bool_decide (m = m' /\ s = s')).
Proof.
  unfold UpdateLoop.call. destruct (overridden m' s'); cbn.
  - by rewrite andb_true_r.
  - apply has_signal_at_set_flag.
Qed.

Lemma calls_flag (s' : nat) (arg : Z) (l : list nat) (m s : nat) : forall w,
  has_signal_at (modules (base (foldl (call s' arg) w l))) m s
  = has_signal_at (modules (base w)) m s
    && negb (negb (overridden m s') && bool_decide (s = s') && bool_decide (m ∈ l)).
Proof.
  induction l as [|m' l IH]; intros w; cbn [foldl].
  - rewrite (bool_decide_eq_false_2 (m ∈ [])) by (by intros ?%elem_of_nil).
    by rewrite andb_false_r, andb_true_r.
  - rewrite IH, call_flag. rewrite <- andb_assoc. f_equal.
    destruct (decide (m = m')) as [->|Hm].
    + rewrite (bool_decide_eq_true_2 (m' ∈ m' :: l)) by left.
      destruct (decide (s = s')) as [->|Hs].
      * rewrite !bool_decide_eq_true_2 by done.
        destruct (overridden m' s'); cbn; [|done].
        by destruct (bool_decide (m' ∈ l)).
      * rewrite !bool_decide_eq_false_2 by (try intros [_ ?]; done).
        by rewrite !andb_false_r.
    + rewrite (bool_decide_eq_false_2 (m = m' /\ s = s')) by (intros [? _]; done).
      rewrite andb_false_r. cbn [negb andb].
      do 2 f_equal. apply bool_decide_ext. rewrite elem_of_cons.
      split; [by right|intros [?|?]; done].
Qed.

Lemma calls_rescan (s' : nat) (arg : Z) (l : list nat) (m : nat) : forall w,
  m ∈ l -> overridden m s' = false ->
  rescan_signals (base (foldl (call s' arg) w l)) = true.
Proof.
  induction l as [|m' l IH]; intros w Hin Hover; [by apply elem_of_nil in Hin|].
  cbn [foldl]. apply elem_of_cons in Hin as [->|Hin]; [|by apply IH].
  destruct (call_frame s' arg w m') as (_ & _ & _ & _ & _ & _ & H).
  destruct (Trigger_frame_list s' arg l (call s' arg w m')) as (_ & _ & _ & _ & _ & H').
  apply H'. by apply H.
Qed.

Lemma Trigger_flag (s' : nat) (arg : Z) (w : MABE) (m s : nat) :
  has_signal_at (modules (base (Trigger s' arg w))) m s
  = has_signal_at (modules (base w)) m s
    && negb (negb (overridden m s') && bool_decide (s = s')
             && bool_decide (m ∈ listeners w s')).
Proof. apply calls_flag. Qed.

Lemma Trigger_rescan (s' : nat) (arg : Z) (w : MABE) (m : nat) :
  m ∈ listeners w s' -> overridden m s' = false ->
  rescan_signals (base (Trigger s' arg w)) = true.
Proof. apply calls_rescan. Qed.

Lemma deliveries_other_signal (s s' : nat) (m : nat) (arg : Z) (l : list nat) :
  s' <> s -> deliveries s m (map (fun m' => Delivered s' m' arg) l) = [].
Proof.
  intros Hs. induction l as [|m' l IH]; [done|]. cbn.
  by rewrite bool_decide_eq_false_2 by (intros [? _]; done).
Qed.

Lemma deliveries_not_listening (s s' : nat) (m : nat) (arg : Z) (l : list nat) :
  m ∉ l -> deliveries s m (map (fun m' => Delivered s' m' arg) l) = [].
Proof.
  induction l as [|m' l IH]; intros Hm; [done|]. cbn.
  rewrite bool_decide_eq_false_2.
  - apply IH. intros ?. apply Hm. by right.
  - intros [_ ->]. apply Hm. left.
Qed.

Lemma deliveries_listening_once (s : nat) (m : nat) (arg : Z) (l : list nat) :
  NoDup l -> m ∈ l -> deliveries s m (map (fun m' => Delivered s m' arg) l) = [arg].
Proof.
  induction 1 as [|m' l Hnot Hnd IH]; intros Hm; [by apply elem_of_nil in Hm|]. cbn.
  apply elem_of_cons in Hm as [->|Hm].
  - rewrite bool_decide_eq_true_2 by done. f_equal.
    by apply deliveries_not_listening.
  - rewrite bool_decide_eq_false_2; [by apply IH|]. intros [_ ->]. done.
Qed.

Lemma subscribers_NoDup (ms : list ModuleBase) (s : nat) : NoDup (subscribers ms s).
Proof. unfold subscribers. apply NoDup_filter, NoDup_seq. Qed.

Lemma subscribers_elem (ms : list ModuleBase) (s m : nat) :
  m ∈ subscribers ms s <-> has_signal_at ms m s = true.
Proof.
  unfold subscribers. rewrite list_elem_of_filter, elem_of_seq. split; [by intros []|].
  intros H. split; [done|]. split; [lia|]. cbn.
  unfold has_signal_at in H. destruct (ms !! m) eqn:E; [|done].
  by eapply lookup_lt_Some.
Qed.

Lemma bd_and_true (P Q : Prop) `{Decision P, Decision Q} :
  P -> bool_decide (P /\ Q) = bool_decide Q.
Proof. intros HP. apply bool_decide_ext. split; [by intros [_ ?]|by split]. Qed.

Lemma bd_and_false (P Q : Prop) `{Decision P, Decision Q} :
  ~ P -> bool_decide (P /\ Q) = false.
Proof. intros HP. apply bool_decide_eq_false_2. by intros [? _]. Qed.

Lemma rescanned_frame (w : MABE) :
  modules (base (rescanned w)) = modules (base w)
  /\ length (sig_ptrs (base (rescanned w))) = length (sig_ptrs (base w))
  /\ update (rescanned w) = update w /\ exit_now (rescanned w) = exit_now w
  /\ log (rescanned w) = log w.
Proof.
  unfold rescanned. destruct (rescan_signals (base w)); [|done].
  cbn [base set_base update exit_now log].
  rewrite UpdateSignals_sig_ptrs. by rewrite length_map, length_seq.
Qed.

Lemma rescanned_listeners (w : MABE) (s : nat) :
  rescan_signals (base w) = true -> s < length (sig_ptrs (base w)) ->
  listeners (rescanned w) s = subscribers (modules (base w)) s.
Proof.
  intros Hr Hs. unfold rescanned, listeners. rewrite Hr. cbn [base set_base].
  rewrite UpdateSignals_sig_ptrs, list_lookup_fmap.
  by rewrite lookup_seq_lt.
Qed.

Lemma rescanned_same (w : MABE) :
  rescan_signals (base w) = false -> rescanned w = w.
Proof. intros Hr. unfold rescanned. by rewrite Hr. Qed.

Ltac flip_coins :=
  repeat match goal with
         | |- context [overridden ?a ?b] => destruct (overridden a b)
         | |- context [bool_decide ?P] => destruct (bool_decide P)
         end; done.

(** What one update does to one module and one of the two signals. *)
Lemma Update_body_module (w : MABE) (m s : nat) :
  SIG_BeforeUpdate <> SIG_OnUpdate ->
  let w0 := rescanned w in
  let u' := ((update w + 1) mod 2 ^ 64)%Z in
  sig_ptrs (base (Update_body w)) = sig_ptrs (base w0)
  /\ log (Update_body w)
     = log w ++ map (fun m' => Delivered SIG_BeforeUpdate m' (update w))
                    (listeners w0 SIG_BeforeUpdate)
             ++ map (fun m' => Delivered SIG_OnUpdate m' u')
                    (listeners w0 SIG_OnUpdate)
             ++ [UpdateEvents u']
  /\ has_signal_at (modules (base (Update_body w))) m s
     = has_signal_at (modules (base w)) m s
       && negb (negb (overridden m s)
                && (bool_decide (s = SIG_BeforeUpdate /\ m ∈ listeners w0 SIG_BeforeUpdate)
                    || bool_decide (s = SIG_OnUpdate /\ m ∈ listeners w0 SIG_OnUpdate)))
  /\ (overridden m s = false ->
      (s = SIG_BeforeUpdate /\ m ∈ listeners w0 SIG_BeforeUpdate) \/
      (s = SIG_OnUpdate /\ m ∈ listeners w0 SIG_OnUpdate) ->
      rescan_signals (base (Update_body w)) = true).
Proof.
  intros Hdiff. cbn zeta. unfold UpdateLoop.Update_body. fold (rescanned w).
  destruct (rescanned_frame w) as (M0 & _ & U0 & E0 & L0).
  set (w0 := rescanned w) in *.
  destruct (Trigger_frame SIG_BeforeUpdate (update w0) w0) as (U1 & E1 & S1 & L1 & _ & R1).
  pose proof (Trigger_flag SIG_BeforeUpdate (update w0) w0 m s) as F1.
  pose proof (Trigger_rescan SIG_BeforeUpdate (update w0) w0 m) as C1.
  set (w1 := Trigger SIG_BeforeUpdate (update w0) w0) in *.
  set (w2 := set_update ((update w1 + 1) mod 2 ^ 64) w1).
  assert (S2 : listeners w2 SIG_OnUpdate = listeners w0 SIG_OnUpdate)
    by (unfold listeners, w2; cbn; by rewrite S1).
  destruct (Trigger_frame SIG_OnUpdate (update w2) w2) as (U3 & E3 & S3 & L3 & _ & R3).
  pose proof (Trigger_flag SIG_OnUpdate (update w2) w2 m s) as F3.
  pose proof (Trigger_rescan SIG_OnUpdate (update w2) w2 m) as C3.
  set (w3 := Trigger SIG_OnUpdate (update w2) w2) in *.
  cbn [base log set_exit_now note update].
  split; [by rewrite S3; unfold w2; cbn; rewrite S1|].
  split.
  { rewrite U3, L3, S2. unfold w2. cbn [log update set_update].
    rewrite L1, U1, U0, L0. by rewrite <- !app_assoc. }
  split.
  { rewrite F3, S2. unfold w2. cbn [base set_update]. rewrite F1, M0.
    rewrite <- andb_assoc. f_equal.
    destruct (decide (s = SIG_BeforeUpdate)) as [->|HB].
    - rewrite (bool_decide_eq_true_2 (SIG_BeforeUpdate = SIG_BeforeUpdate)) by done.
      rewrite (bool_decide_eq_false_2 (SIG_BeforeUpdate = SIG_OnUpdate)) by done.
      rewrite (bd_and_true (SIG_BeforeUpdate = SIG_BeforeUpdate)) by done.
      rewrite (bd_and_false (SIG_BeforeUpdate = SIG_OnUpdate)) by done.
      flip_coins.
    - rewrite (bool_decide_eq_false_2 (s = SIG_BeforeUpdate)) by done.
      rewrite (bd_and_false (s = SIG_BeforeUpdate)) by done.
      destruct (decide (s = SIG_OnUpdate)) as [->|HO].
      + rewrite (bool_decide_eq_true_2 (SIG_OnUpdate = SIG_OnUpdate)) by done.
        rewrite (bd_and_true (SIG_OnUpdate = SIG_OnUpdate)) by done.
        flip_coins.
      + rewrite (bool_decide_eq_false_2 (s = SIG_OnUpdate)) by done.
        rewrite (bd_and_false (s = SIG_OnUpdate)) by done.
        flip_coins. }
  intros Hov [[-> Hin]|[-> Hin]].
  - apply R3. unfold w2. cbn [base set_update]. by apply C1.
  - apply C3; [by rewrite S2|done].
Qed.

(** *** A module that does not listen *)

Lemma rescanned_not_listening (w : MABE) (m s : nat) :
  quiet w m s -> m ∉ listeners (rescanned w) s.
Proof.
  intros [Hoff Hor]. destruct (rescan_signals (base w)) eqn:Hr.
  - destruct (decide (s < length (sig_ptrs (base w)))) as [Hs|Hs].
    + rewrite rescanned_listeners by done. rewrite subscribers_elem. by rewrite Hoff.
    + unfold listeners. rewrite lookup_ge_None_2.
      * cbn. by intros ?%elem_of_nil.
      * destruct (rescanned_frame w) as (_ & -> & _). lia.
  - rewrite rescanned_same by done. by destruct Hor.
Qed.

Lemma Update_body_quiet (w : MABE) (m s : nat) :
  SIG_BeforeUpdate <> SIG_OnUpdate ->
  (s = SIG_BeforeUpdate \/ s = SIG_OnUpdate) ->
  quiet w m s ->
  deliveries s m (log (Update_body w)) = deliveries s m (log w)
  /\ quiet (Update_body w) m s.
Proof.
  intros Hdiff Hs Hq.
  pose proof (rescanned_not_listening w m s Hq) as Hnot.
  destruct (Update_body_module w m s Hdiff) as (HS & HL & HF & _).
  split.
  - rewrite HL, !deliveries_app. cbn [deliveries]. rewrite app_nil_r.
    destruct Hs as [-> | ->].
    + rewrite (deliveries_not_listening _ _ _ _ _ Hnot).
      rewrite deliveries_other_signal by done. by rewrite !app_nil_r.
    + rewrite (deliveries_not_listening _ SIG_OnUpdate _ _ _ Hnot).
      rewrite deliveries_other_signal by done. by rewrite !app_nil_r.
  - split.
    + rewrite HF. destruct Hq as [-> _]. done.
    + right. unfold listeners. rewrite HS. exact Hnot.
Qed.

Lemma Update_loop_quiet (n : nat) (m s : nat) : forall w,
  SIG_BeforeUpdate <> SIG_OnUpdate ->
  (s = SIG_BeforeUpdate \/ s = SIG_OnUpdate) ->
  quiet w m s ->
  deliveries s m (log (Update_loop n w)) = deliveries s m (log w)
  /\ quiet (Update_loop n w) m s.
Proof.
  induction n as [|n IH]; intros w Hdiff Hs Hq; [done|].
  cbn [UpdateLoop.Update_loop]. destruct (exit_now w); [done|].
  destruct (Update_body_quiet w m s Hdiff Hs Hq) as [HL Hq'].
  destruct (IH (Update_body w) Hdiff Hs Hq') as [IL Iq].
  by rewrite IL, HL.
Qed.

Lemma Update_quiet (n : nat) (m s : nat) (w : MABE) :
  SIG_BeforeUpdate <> SIG_OnUpdate ->
  (s = SIG_BeforeUpdate \/ s = SIG_OnUpdate) ->
  quiet w m s ->
  deliveries s m (log (Update n w)) = deliveries s m (log w)
  /\ quiet (Update n w) m s.
Proof.
  intros Hdiff Hs Hq. unfold UpdateLoop.Update.
  destruct (update w =? 0)%Z; [|by apply Update_loop_quiet].
  set (w0 := set_exit_now _ _).
  destruct (Update_loop_quiet n m s w0 Hdiff Hs) as [HL Hq']; [exact Hq|].
  rewrite HL. split; [|done]. unfold w0. cbn [log set_exit_now note].
  rewrite deliveries_app. cbn. by rewrite app_nil_r.
Qed.

(** X27.  After [Deactivate], a module hears nothing of the updates that
    follow: neither its [BeforeUpdate] nor its [OnUpdate] handler is
    called in any of them, however the listeners stood before, and its
    flag for the signal is still off at the end. *)
Theorem Deactivate_stops_the_update_signals_of_the_module
    (num_updates : nat) (w : MABE) (m s : nat) :
  SIG_BeforeUpdate <> SIG_OnUpdate ->
  s = SIG_BeforeUpdate \/ s = SIG_OnUpdate ->
  let w' := Update num_updates (set_base (Deactivate m (base w)) w) in
  deliveries s m (log w') = deliveries s m (log w)
  /\ has_signal_at (modules (base w')) m s = false.
Proof.
  intros Hdiff Hs. cbn zeta.
  destruct (Update_quiet num_updates m s (set_base (Deactivate m (base w)) w) Hdiff Hs)
    as [HL [Hoff _]]; [|done].
  split; [|by left]. unfold has_signal_at, Deactivate. cbn.
  rewrite list_lookup_alter_eq. destruct (modules (base w) !! m) as [md|]; cbn; [|done].
  rewrite list_lookup_fmap. by destruct (has_signal md !! s).
Qed.

(** X28.  A module whose flag for [BeforeUpdate] or [OnUpdate] is set but
    whose class does not override the handler: after a rescan, the
    handler of [Module] is called in the first update, once, turns the
    flag off, and is not called in any later update. *)
Theorem handler_of_Module_is_called_once_and_turns_itself_off
    (num_updates : nat) (w : MABE) (m s : nat) :
  SIG_BeforeUpdate <> SIG_OnUpdate ->
  s = SIG_BeforeUpdate \/ s = SIG_OnUpdate ->
  s < length (sig_ptrs (base w)) ->
  has_signal_at (modules (base w)) m s = true ->
  overridden m s = false ->
  rescan_signals (base w) = true ->
  exit_now w = false -> (update w = 0%Z -> start_exits = false) ->
  0 < num_updates ->
  let w' := Update num_updates w in
  deliveries s m (log w')
  = deliveries s m (log w)
      ++ [if decide (s = SIG_BeforeUpdate) then update w
          else ((update w + 1) mod 2 ^ 64)%Z]
  /\ has_signal_at (modules (base w')) m s = false.
Proof.
  intros Hdiff Hs Hlen Hon Hov Hr Hexit Hstart Hn. cbn zeta.
  assert (Hloop : forall w0, base w0 = base w -> update w0 = update w ->
                    exit_now w0 = false ->
            deliveries s m (log (Update_loop num_updates w0))
            = deliveries s m (log w0)
                ++ [if decide (s = SIG_BeforeUpdate) then update w
                    else ((update w + 1) mod 2 ^ 64)%Z]
            /\ has_signal_at (modules (base (Update_loop num_updates w0))) m s = false).
  { intros w0 Hb Hu He. destruct num_updates as [|n]; [lia|].
    cbn [UpdateLoop.Update_loop]. rewrite He.
    destruct (Update_body_module w0 m s Hdiff) as (HS & HL & HF & HR).
    assert (Hlist : listeners (rescanned w0) s = subscribers (modules (base w)) s).
    { rewrite rescanned_listeners; rewrite Hb; done. }
    assert (Hin : m ∈ listeners (rescanned w0) s)
      by (rewrite Hlist; by apply subscribers_elem).
    assert (Hnd : NoDup (listeners (rescanned w0) s))
      by (rewrite Hlist; apply subscribers_NoDup).
    assert (Hq : quiet (Update_body w0) m s).
    { split.
      - rewrite HF, Hov. cbn [negb andb].
        destruct Hs as [-> | ->].
        + rewrite (bool_decide_eq_true_2 (_ /\ _)) by done. by rewrite andb_false_r.
        + rewrite (bool_decide_eq_true_2 (SIG_OnUpdate = SIG_OnUpdate /\ _)) by done.
          by rewrite orb_true_r, andb_false_r.
      - left. apply HR; [done|]. destruct Hs as [-> | ->]; [by left|by right]. }
    destruct (Update_loop_quiet n m s (Update_body w0) Hdiff Hs Hq) as [IL [Ioff _]].
    split; [|done]. rewrite IL, HL, !deliveries_app. cbn [deliveries].
    rewrite app_nil_r, Hu. f_equal.
    destruct Hs as [-> | ->].
    + rewrite decide_True by done.
      rewrite (deliveries_listening_once _ _ _ _ Hnd Hin).
      by rewrite deliveries_other_signal by done.
    + rewrite decide_False by done.
      rewrite (deliveries_listening_once _ _ _ _ Hnd Hin).
      by rewrite deliveries_other_signal by done. }
  unfold UpdateLoop.Update. destruct (Z.eqb_spec (update w) 0) as [H0|H0].
  - set (w0 := set_exit_now _ _).
    destruct (Hloop w0) as [HL Hoff]; [done|done|..].
    { unfold w0. cbn. by rewrite Hexit, Hstart. }
    split; [|done]. rewrite HL. unfold w0. cbn [log set_exit_now note].
    rewrite deliveries_app. cbn. by rewrite app_nil_r.
  - by apply Hloop.
Qed.

(** *** A module that listens *)

Lemma Update_body_tuned (w : MABE) (m s : nat) :
  SIG_BeforeUpdate <> SIG_OnUpdate ->
  (s = SIG_BeforeUpdate \/ s = SIG_OnUpdate) ->
  overridden m s = true ->
  tuned w m s ->
  deliveries s m (log (Update_body w))
  = deliveries s m (log w)
      ++ [if decide (s = SIG_BeforeUpdate) then update w
          else ((update w + 1) mod 2 ^ 64)%Z]
  /\ tuned (Update_body w) m s.
Proof.
  intros Hdiff Hs Hov (Hon & Hlen & Hor).
  destruct (Update_body_module w m s Hdiff) as (HS & HL & HF & _).
  destruct (rescanned_frame w) as (_ & Hlen0 & _).
  assert (Hgood : NoDup (listeners (rescanned w) s) /\ m ∈ listeners (rescanned w) s).
  { destruct (rescan_signals (base w)) eqn:Hr.
    - rewrite rescanned_listeners by done. split; [apply subscribers_NoDup|].
      by apply subscribers_elem.
    - rewrite rescanned_same by done. by destruct Hor. }
  destruct Hgood as [Hnd Hin].
  split.
  - rewrite HL, !deliveries_app. cbn [deliveries]. rewrite app_nil_r. f_equal.
    destruct Hs as [-> | ->].
    + rewrite decide_True by done.
      rewrite (deliveries_listening_once _ _ _ _ Hnd Hin).
      by rewrite deliveries_other_signal by done.
    + rewrite decide_False by done.
      rewrite (deliveries_listening_once _ _ _ _ Hnd Hin).
      by rewrite deliveries_other_signal by done.
  - split; [by rewrite HF, Hon, Hov|].
    split; [by rewrite HS, Hlen0|].
    right. unfold listeners. rewrite HS. done.
Qed.

Lemma Update_loop_tuned (n : nat) (m s : nat) : forall w,
  SIG_BeforeUpdate <> SIG_OnUpdate ->
  (s = SIG_BeforeUpdate \/ s = SIG_OnUpdate) ->
  overridden m s = true ->
  tuned w m s ->
  exit_now w = false -> (0 <= update w)%Z -> (update w + Z.of_nat n < 2 ^ 64)%Z ->
  (forall k, k < n -> update_exits (update w + Z.of_nat k + 1) = false) ->
  deliveries s m (log (Update_loop n w))
  = deliveries s m (log w)
      ++ map (fun k => if decide (s = SIG_BeforeUpdate)
                       then (update w + Z.of_nat k)%Z
                       else (update w + Z.of_nat k + 1)%Z) (seq 0 n).
Proof.
  induction n as [|n IH]; intros w Hdiff Hs Hov Ht Hexit Hpos Hmax Hno.
  - cbn. by rewrite app_nil_r.
  - cbn [UpdateLoop.Update_loop]. rewrite Hexit.
    destruct (Update_body_tuned w m s Hdiff Hs Hov Ht) as [HL Ht'].
    destruct (Update_body_counts w) as (HU & HE & _).
    rewrite Z.mod_small in HU, HE, HL by lia.
    rewrite IH; try done.
    + rewrite HL, HU, <- app_assoc. f_equal. cbn [seq map app].
      f_equal.
      * destruct (decide _); f_equal; lia.
      * rewrite <- seq_shift, map_map. apply map_ext. intros k.
        destruct (decide _); lia.
    + rewrite HE, Hexit. cbn [orb]. rewrite <- (Hno 0) by lia. f_equal. lia.
    + lia.
    + lia.
    + intros k Hk. rewrite HU. rewrite <- (Hno (S k)) by lia. f_equal. lia.
Qed.

(** X29.  A module whose class overrides the handler of [BeforeUpdate] or
    [OnUpdate], and whose flag is set: while nothing asks to exit, the
    handler is called once in every update, [BeforeUpdate] with the
    number of the update that ends and [OnUpdate] with the number of the
    one that starts, also when handlers of other modules turn themselves
    off in between. *)
Theorem handler_of_a_derived_module_is_called_in_every_update
    (num_updates : nat) (w : MABE) (m s : nat) :
  SIG_BeforeUpdate <> SIG_OnUpdate ->
  s = SIG_BeforeUpdate \/ s = SIG_OnUpdate ->
  s < length (sig_ptrs (base w)) ->
  has_signal_at (modules (base w)) m s = true ->
  overridden m s = true ->
  rescan_signals (base w) = true ->
  exit_now w = false -> (update w = 0%Z -> start_exits = false) ->
  (0 <= update w)%Z -> (update w + Z.of_nat num_updates < 2 ^ 64)%Z ->
  (forall k, k < num_updates -> update_exits (update w + Z.of_nat k + 1) = false) ->
  let w' := Update num_updates w in
  deliveries s m (log w')
  = deliveries s m (log w)
      ++ map (fun k => if decide (s = SIG_BeforeUpdate)
                       then (update w + Z.of_nat k)%Z
                       else (update w + Z.of_nat k + 1)%Z) (seq 0 num_updates).
Proof.
  intros Hdiff Hs Hlen Hon Hov Hr Hexit Hstart Hpos Hmax Hno. cbn zeta.
  unfold UpdateLoop.Update. destruct (Z.eqb_spec (update w) 0) as [H0|H0].
  - set (w0 := set_exit_now _ _).
    rewrite (Update_loop_tuned num_updates m s w0); try done.
    + unfold w0. cbn [log set_exit_now note update].
      rewrite deliveries_app. cbn [deliveries]. by rewrite app_nil_r.
    + split; [done|]. split; [done|]. by left.
    + unfold w0. cbn. by rewrite Hexit, Hstart.
  - apply Update_loop_tuned; try done. split; [done|]. split; [done|]. by left.
Qed.

End UpdateLoopFacts.

Section UpdateLoopRuns.
Import SignalBus UpdateLoop UpdateScenario.
#[local] Open Scope list_scope.

Ltac settle :=
  first [ done | lia | by left | by right | cbn; lia
        | let j := fresh in let Hj := fresh in
          intros j Hj; by replace j with 0 by lia ].

(** X25 at work: three updates of the fresh world. *)
Lemma Update_witness :
  let w' := Update 0 1 overrides false never_exits 3 fresh_world in
  update w' = 3%Z /\ exit_now w' = false
  /\ script_calls (log w')
     = [StartEvents; UpdateEvents 1; UpdateEvents 2; UpdateEvents 3].
Proof.
  destruct (Update_runs_every_update_while_nothing_asks_to_exit
              0 1 overrides false never_exits 3 fresh_world)
    as (Hu & He & Hs); [settle..|].
  cbn zeta. split; [exact Hu|]. split; [exact He|exact Hs].
Defined.

(** X26 at work: of five updates asked for, the script ends the run in
    the second. *)
Lemma Update_exit_witness :
  let w' := Update 0 1 overrides false exits_at_2 5 fresh_world in
  update w' = 2%Z /\ exit_now w' = true
  /\ script_calls (log w') = [StartEvents; UpdateEvents 1; UpdateEvents 2]
  /\ Update 0 1 overrides false exits_at_2 4 w' = w'.
Proof.
  destruct (Update_finishes_the_update_in_which_exit_is_asked_for
              0 1 overrides false exits_at_2 5 1 fresh_world)
    as (Hu & He & Hs & Hmore); [settle..|].
  cbn zeta. split; [exact Hu|]. split; [exact He|]. split; [exact Hs|apply Hmore].
Defined.

(** X27 at work: a deactivated "EvalNK" hears nothing of three updates. *)
Lemma Deactivate_witness :
  let w' := Update 0 1 overrides false never_exits 3
              (set_base (Deactivate 0 (base fresh_world)) fresh_world) in
  deliveries 0 0 (log w') = [] /\ has_signal_at (modules (base w')) 0 0 = false.
Proof.
  apply (Deactivate_stops_the_update_signals_of_the_module
           0 1 overrides false never_exits 3 fresh_world 0 0); settle.
Defined.

(** X28 at work: the OnUpdate handler that "Select" leaves to [Module]
    runs in the first of three updates only. *)
Lemma handler_of_Module_witness :
  let w' := Update 0 1 overrides false never_exits 3 fresh_world in
  deliveries 1 1 (log w') = [1%Z] /\ has_signal_at (modules (base w')) 1 1 = false.
Proof.
  apply (handler_of_Module_is_called_once_and_turns_itself_off
           0 1 overrides false never_exits 3 fresh_world 1 1); settle.
Defined.

(** X29 at work: the BeforeUpdate handler of "EvalNK" runs in each of
    three updates. *)
Lemma handler_of_a_derived_module_witness :
  deliveries 0 0 (log (Update 0 1 overrides false never_exits 3 fresh_world))
  = [0%Z; 1%Z; 2%Z].
Proof.
  apply (handler_of_a_derived_module_is_called_in_every_update
           0 1 overrides false never_exits 3 fresh_world 0 0); settle.
Defined.

End UpdateLoopRuns.
